(** * The SELFIES decoder of [terminator/selfies.py] (selfies v1.0.4)

    A shallow embedding of the decoder, function by function, and the
    properties of it that the specification states.

    Conventions of the embedding.
    - A Python [str] is a [string]; a character is a code point below 256.
    - A Python [int] is a [Z].
    - A [dict] from atom keys to bond counts is a [gmap string Z]; the
      dictionaries live in a store and the module globals hold references
      to them, because [set_semantic_constraints] distinguishes sharing a
      dictionary from copying it.
    - A [dict] whose iteration order is used is an insertion-ordered
      association list.
    - A function that can raise returns a [result]; the exceptions are the
      ones the interpreter raises at the operations the source performs.
    - A [while] loop is a recursion on a budget; [OutOfFuel] is the budget
      running out and is no Python behaviour. *)

From Stdlib Require Import ZArith Ascii String Lia DecimalString.
From stdpp Require Import base option list gmap strings.

Local Open Scope Z_scope.

(** ** Exceptions and results *)

(** The [ValueError]s of the module, by the place that raises them. *)
Inductive value_error : Type :=
  | MalformedBrackets          (* _parse_selfies: misplaced or missing brackets *)
  | UnknownBranchSymbol        (* get_next_branch_state: unknown branch symbol *)
  | ExcessHydrogens            (* get_next_state: too many Hs in symbol *)
  | InvalidConstraintTable     (* set_semantic_constraints: both checks *)
  | UnrecognizedConstraintType (* decoder: unrecognized constraint type *)
  | InvalidLiteral.            (* int(): invalid literal for int() *)

Inductive exn : Type :=
  | ValueError (why : value_error)
  | IndexError
  | KeyError.

Inductive result (A : Type) : Type :=
  | Ok (a : A)
  | Raise (e : exn)
  | OutOfFuel.
Arguments Ok {A} a.
Arguments Raise {A} e.
Arguments OutOfFuel {A}.

#[global] Instance result_ret : MRet result := fun A a => Ok a.
#[global] Instance result_bind : MBind result := fun A B f m =>
  match m with
  | Ok a => f a
  | Raise e => Raise e
  | OutOfFuel => OutOfFuel
  end.

#[global] Instance value_error_eq_dec : EqDecision value_error.
Proof. solve_decision. Defined.
#[global] Instance exn_eq_dec : EqDecision exn.
Proof. solve_decision. Defined.

(** ** Python strings, lists and integers *)

Module Py.

Definition len (s : string) : Z := Z.of_nat (String.length s).

Fixpoint drop (n : nat) (s : string) : string :=
  match n, s with
  | O, _ => s
  | S n', String _ s' => drop n' s'
  | S _, EmptyString => EmptyString
  end.

Fixpoint take (n : nat) (s : string) : string :=
  match n, s with
  | S n', String c s' => String c (take n' s')
  | _, _ => EmptyString
  end.

(** [s[i]]: a negative index counts from the end; out of range raises. *)
Definition getitem (s : string) (i : Z) : result ascii :=
  let j := if i <? 0 then i + len s else i in
  if j <? 0 then Raise IndexError
  else match drop (Z.to_nat j) s with
       | String c _ => Ok c
       | EmptyString => Raise IndexError
       end.

(** A bound of a slice is clipped into [0, len]. *)
Definition slice_bound (n i : Z) : Z :=
  if i <? 0 then Z.max 0 (i + n) else Z.min i n.

(** [s[lo:hi]]; [None] is an omitted bound. *)
Definition slice (s : string) (lo hi : option Z) : string :=
  let n := len s in
  let a := from_option (slice_bound n) 0 lo in
  let b := from_option (slice_bound n) n hi in
  take (Z.to_nat (b - a)) (drop (Z.to_nat a) s).

(** Position of the first [c] in [s], the head of [s] being at [pos]. *)
Fixpoint index_from (c : ascii) (s : string) (pos : Z) : Z :=
  match s with
  | EmptyString => -1
  | String a s' => if Ascii.eqb a c then pos else index_from c s' (pos + 1)
  end.

(** [s.find(c, start)] for a one-character [c]. *)
Definition find (s : string) (c : ascii) (start : Z) : Z :=
  let a := slice_bound (len s) start in
  index_from c (drop (Z.to_nat a) s) a.

Fixpoint startswith (p s : string) : bool :=
  match p, s with
  | EmptyString, _ => true
  | String a p', String b s' => Ascii.eqb a b && startswith p' s'
  | String _ _, EmptyString => false
  end.

(** [sub in s] *)
Fixpoint contains (sub s : string) : bool :=
  startswith sub s ||
  match s with
  | EmptyString => false
  | String _ s' => contains sub s'
  end.

(** [s.split(sep)] for a one-character separator. *)
Fixpoint split (sep : ascii) (s : string) : list string :=
  match s with
  | EmptyString => [EmptyString]
  | String c s' =>
      if Ascii.eqb c sep then EmptyString :: split sep s'
      else match split sep s' with
           | h :: t => String c h :: t
           | [] => [String c EmptyString]
           end
  end.

(** [sep.join(l)] *)
Fixpoint join (sep : string) (l : list string) : string :=
  match l with
  | [] => EmptyString
  | [x] => x
  | x :: l' => x +:+ sep +:+ join sep l'
  end.

Definition code (c : ascii) : Z := Z.of_N (N_of_ascii c).

(** [c.isdigit()]: the ten digits, and the superscripts 2, 3 and 1. *)
Definition isdigit (c : ascii) : bool :=
  let n := code c in
  ((48 <=? n) && (n <=? 57)) || (n =? 178) || (n =? 179) || (n =? 185).

(** [c.isalpha()] on the code points below 256. *)
Definition isalpha (c : ascii) : bool :=
  let n := code c in
  ((65 <=? n) && (n <=? 90)) || ((97 <=? n) && (n <=? 122))
  || (n =? 170) || (n =? 181) || (n =? 186)
  || ((192 <=? n) && (n <=? 214)) || ((216 <=? n) && (n <=? 246))
  || ((248 <=? n) && (n <=? 255)).

Fixpoint int_digits (acc : Z) (s : string) : result Z :=
  match s with
  | EmptyString => Ok acc
  | String c s' =>
      let n := code c in
      if (48 <=? n) && (n <=? 57) then int_digits (10 * acc + (n - 48)) s'
      else Raise (ValueError InvalidLiteral)
  end.

(** [int(s)] where the source calls it: on one character, and on a run of
    [isdigit] characters. Only decimal digits convert. *)
Definition int (s : string) : result Z :=
  match s with
  | EmptyString => Raise (ValueError InvalidLiteral)
  | _ => int_digits 0 s
  end.

Definition str1 (c : ascii) : string := String c EmptyString.

(** [str(n)] *)
Definition str (n : Z) : string := NilZero.string_of_int (Z.to_int n).

(** ["{:+}".format(n)] *)
Definition format_signed (n : Z) : string :=
  if n <? 0 then str n else "+" +:+ str n.

(** Position in a list of [n] elements that index [i] denotes. *)
Definition position (n : nat) (i : Z) : result nat :=
  let j := if i <? 0 then i + Z.of_nat n else i in
  if (0 <=? j) && (j <? Z.of_nat n) then Ok (Z.to_nat j) else Raise IndexError.

(** [l[i]] *)
Definition nth {A} (l : list A) (i : Z) : result A :=
  p ← position (length l) i;
  match l !! p with
  | Some x => Ok x
  | None => Raise IndexError
  end.

(** [l[i] = f(l[i])] *)
Definition update {A} (l : list A) (i : Z) (f : A → A) : result (list A) :=
  p ← position (length l) i;
  Ok (alter f p l).

End Py.

(** A generator is modelled by what it will yield: the values still to
    come, in order, and what pulling does once they are used up. The
    generators of the module either yield [''] for ever
    ([ending = Ok ()]) or raise ([ending = Raise e]); they do not depend on
    their consumer, so this is all there is to them. An exception leaves
    the decoder, so a generator that has raised is never pulled again. *)
Record gen : Type := Gen { pending : list string; ending : result unit }.

Definition yield (x : string) (g : gen) : gen :=
  Gen (x :: pending g) (ending g).

(** [next(g)] *)
Definition next (g : gen) : result (string * gen) :=
  match pending g with
  | x :: rest => Ok (x, Gen rest (ending g))
  | [] => _ ← ending g; Ok (EmptyString, g)
  end.

(** [for _ in range(n): l.append(next(g))] *)
Fixpoint pull (n : nat) (g : gen) : result (list string * gen) :=
  match n with
  | O => Ok ([], g)
  | S n' =>
      '(x, g) ← next g;
      '(l, g) ← pull n' g;
      Ok (x :: l, g)
  end.

(** ** The constraint registry *)

(** The module globals of lines 12-44. [default_bond_constraints],
    [octet_rule_bond_constraints] and [hypervalent_bond_constraints] are
    three dictionaries; [_bond_constraints] starts as a second name of the
    first one. *)
Definition default_table : gmap string Z :=
  list_to_map
    [("H", 1); ("F", 1); ("Cl", 1); ("Br", 1); ("I", 1);
     ("O", 2); ("O+1", 3); ("O-1", 1);
     ("N", 3); ("N+1", 4); ("N-1", 2);
     ("C", 4); ("C+1", 5); ("C-1", 3);
     ("P", 5); ("P+1", 6); ("P-1", 4);
     ("S", 6); ("S+1", 7); ("S-1", 5);
     ("?", 8)].

(** [d = dict(base); d.update(changes)] *)
Definition updated (base changes : gmap string Z) : gmap string Z :=
  changes ∪ base.

Definition octet_rule_table : gmap string Z :=
  updated default_table
    (list_to_map [("S", 2); ("S+1", 3); ("S-1", 1);
                  ("P", 3); ("P+1", 4); ("P-1", 2)]).

Definition hypervalent_table : gmap string Z :=
  updated default_table
    (list_to_map [("Cl", 7); ("Br", 7); ("I", 7); ("N", 5)]).

(** The interpreter state the module touches: the dictionaries, by
    address, and the four globals that refer to them. *)
Record world : Type := World {
  store : list (gmap string Z);
  default_bond_constraints : nat;
  octet_rule_bond_constraints : nat;
  hypervalent_bond_constraints : nat;
  _bond_constraints : nat
}.

(** The state after the module is imported. *)
Definition initial_world : world :=
  World [default_table; octet_rule_table; hypervalent_table] 0 1 2 0.

(** The dictionary a reference denotes. *)
Definition deref (w : world) (r : nat) : gmap string Z :=
  default ∅ (store w !! r).

(** A new dictionary object with the given content. *)
Definition new_dict (t : gmap string Z) (w : world) : nat * world :=
  (length (store w),
   World (store w ++ [t]) (default_bond_constraints w)
         (octet_rule_bond_constraints w) (hypervalent_bond_constraints w)
         (_bond_constraints w)).

(** [dict(d)] *)
Definition dict (r : nat) (w : world) : nat * world := new_dict (deref w r) w.

(** [d[k] = v] by whoever holds the reference [r] *)
Definition setitem (r : nat) (k : string) (v : Z) (w : world) : world :=
  World (alter (insert k v) r (store w)) (default_bond_constraints w)
        (octet_rule_bond_constraints w) (hypervalent_bond_constraints w)
        (_bond_constraints w).

Definition set_active (r : nat) (w : world) : world :=
  World (store w) (default_bond_constraints w)
        (octet_rule_bond_constraints w) (hypervalent_bond_constraints w) r.

(** The dictionary the decoder operates on. *)
Definition active_table (w : world) : gmap string Z :=
  deref w (_bond_constraints w).

Definition get_default_constraints (w : world) : nat * world :=
  dict (default_bond_constraints w) w.

Definition get_octet_rule_constraints (w : world) : nat * world :=
  dict (octet_rule_bond_constraints w) w.

Definition get_hypervalent_constraints (w : world) : nat * world :=
  dict (hypervalent_bond_constraints w) w.

Definition get_semantic_constraints (w : world) : nat * world :=
  dict (_bond_constraints w) w.

(** The two checks of lines 170-178. *)
Definition has_wildcard (t : gmap string Z) : Prop := is_Some (t !! "?").
Definition values_in_range (t : gmap string Z) : Prop :=
  map_Forall (fun _ value => 1 ≤ value ≤ 8) t.

Definition set_semantic_constraints (bond_constraints : option nat) (w : world)
  : result unit * world :=
  match bond_constraints with
  | None => (Ok (), set_active (default_bond_constraints w) w)
  | Some r =>
      let t := deref w r in
      if bool_decide (has_wildcard t) then
        if bool_decide (values_in_range t) then
          let '(copy, w) := dict r w in
          (Ok (), set_active copy w)
        else (Raise (ValueError InvalidConstraintTable), w)
      else (Raise (ValueError InvalidConstraintTable), w)
  end.

(** ** Symbol state functions *)

(** [get_num_from_bond] *)
Definition get_num_from_bond (bond_symbol : string) : Z :=
  if String.eqb bond_symbol "=" then 2
  else if String.eqb bond_symbol "#" then 3
  else 1.

(** [get_bond_from_num]: [('', '=', '#')[n - 1]] *)
Definition get_bond_from_num (n : Z) : result string :=
  Py.nth [""; "="; "#"] (n - 1).

(** [while p(s[i]): i += 1], for [0 <= i]; the value is the final [i]. *)
Fixpoint scan (p : ascii → bool) (rest : string) (i : Z) : result Z :=
  match rest with
  | EmptyString => Raise IndexError
  | String c rest' => if p c then scan p rest' (i + 1) else Ok i
  end.

Definition skip_while (p : ascii → bool) (s : string) (i : Z) : result Z :=
  scan p (Py.drop (Z.to_nat i) s) i.

(** [find_element] *)
Definition find_element (atom_symbol : string) : result (Z * Z) :=
  c ← Py.getitem atom_symbol 0;
  if negb (Ascii.eqb c "[") then Ok (0, Py.len atom_symbol)
  else
    i ← skip_while Py.isdigit atom_symbol 1;
    c ← Py.getitem atom_symbol (i + 1);
    if Py.isalpha c && negb (Ascii.eqb c "H") then Ok (i, i + 2)
    else Ok (i, i + 1).

Definition is_sign (c : ascii) : bool := Ascii.eqb c "+" || Ascii.eqb c "-".

(** The loop of lines 429-431, on [rest = atom_symbol[i:]]. *)
Fixpoint sign_run (rest : string) (charge : Z) : result Z :=
  match rest with
  | EmptyString => Raise IndexError
  | String c rest' =>
      if is_sign c
      then sign_run rest' (charge + (if Ascii.eqb c "+" then 1 else -1))
      else Ok charge
  end.

(** [parse_atom_symbol] *)
Definition parse_atom_symbol (atom_symbol : string) : result (string * Z * Z) :=
  c ← Py.getitem atom_symbol 0;
  if negb (Ascii.eqb c "[") then Ok (atom_symbol, 0, 0)
  else
    '(atom_start, atom_end) ← find_element atom_symbol;
    let i := atom_end in
    c ← Py.getitem atom_symbol i;
    let i := if Ascii.eqb c "@" then i + 1 else i in
    c ← Py.getitem atom_symbol i;
    let i := if Ascii.eqb c "@" then i + 1 else i in
    c ← Py.getitem atom_symbol i;
    '(h_count, i) ←
      (if Ascii.eqb c "H" then
         let i := i + 1 in
         c ← Py.getitem atom_symbol i;
         if Py.isdigit c then
           h_count ← Py.int (Py.str1 c);
           Ok (h_count, i + 1)
         else Ok (1, i)
       else Ok (0, i));
    c ← Py.getitem atom_symbol i;
    charge ←
      (if is_sign c then
         let charge := if Ascii.eqb c "+" then 1 else -1 in
         let i := i + 1 in
         c ← Py.getitem atom_symbol i;
         if is_sign c then
           sign_run (Py.drop (Z.to_nat i) atom_symbol) charge
         else if Py.isdigit c then
           let s := i in
           i ← skip_while Py.isdigit atom_symbol i;
           magnitude ← Py.int (Py.slice atom_symbol (Some s) (Some i));
           Ok (charge * magnitude)
         else Ok charge
       else Ok 0);
    Ok (Py.slice atom_symbol (Some atom_start) (Some atom_end), h_count, charge).

(** The backslash, character 92. *)
Definition backslash : ascii := "092".

Definition is_bond_char (c : ascii) : bool :=
  Ascii.eqb c "/" || Ascii.eqb c backslash || Ascii.eqb c "="
  || Ascii.eqb c "#".

(** [d.get(k, d['?'])]: the default is evaluated before the lookup. *)
Definition get_or_wildcard (t : gmap string Z) (k : string) : result Z :=
  match t !! "?" with
  | None => Raise KeyError
  | Some fallback => Ok (default fallback (t !! k))
  end.

(** [get_next_state]; it reads the global [_bond_constraints]. *)
Definition get_next_state (w : world) (symbol : string) (state : Z)
  : result (string * Z) :=
  if String.eqb symbol "[epsilon]" then
    if state =? 0 then Ok ("", 0) else Ok ("", -1)
  else
    c ← Py.getitem symbol 1;
    let bond := if is_bond_char c then Py.str1 c else "" in
    let bond_num := get_num_from_bond bond in
    let smiles_symbol :=
      if String.eqb (Py.slice symbol (Some (-5)) None) "expl]"
      then "[" +:+ Py.slice symbol (Some (1 + Py.len bond)) (Some (-5)) +:+ "]"
      else Py.slice symbol (Some (1 + Py.len bond)) (Some (-1)) in
    '(element, h_count, charge) ← parse_atom_symbol smiles_symbol;
    let atom_or_ion :=
      if charge =? 0 then element else element +:+ Py.format_signed charge in
    max_bonds ← get_or_wildcard (active_table w) atom_or_ion;
    if (max_bonds <? h_count) || ((h_count =? max_bonds) && (0 <? state))
    then Raise (ValueError ExcessHydrogens)
    else
      let max_bonds := max_bonds - h_count in
      if state =? 0 then Ok ("" +:+ smiles_symbol, max_bonds)
      else
        '(bond_num, bond) ←
          (if Z.min state max_bonds <? bond_num then
             let bond_num := Z.min state max_bonds in
             bond ← get_bond_from_num bond_num;
             Ok (bond_num, bond)
           else Ok (bond_num, bond));
        let next_state := max_bonds - bond_num in
        let next_state := if next_state =? 0 then -1 else next_state in
        Ok (bond +:+ smiles_symbol, next_state).

(** [get_next_branch_state] *)
Definition get_next_branch_state (branch_symbol : string) (state : Z)
  : result (Z * Z) :=
  c ← Py.getitem branch_symbol (-2);
  branch_type ← Py.int (Py.str1 c);
  if negb ((1 <=? branch_type) && (branch_type <=? 3))
  then Raise (ValueError UnknownBranchSymbol)
  else if (2 <=? state) && (state <=? 8) then
    let branch_init_state := Z.min (state - 1) branch_type in
    let next_state := state - branch_init_state in
    Ok (branch_init_state, next_state)
  else Ok (-1, state).

(** ** The index alphabet *)

Definition _index_alphabet : list string :=
  ["[C]"; "[Ring1]"; "[Ring2]";
   "[Branch1_1]"; "[Branch1_2]"; "[Branch1_3]";
   "[Branch2_1]"; "[Branch2_2]"; "[Branch2_3]";
   "[O]"; "[N]"; "[=N]"; "[=C]"; "[#C]"; "[S]"; "[P]"].

(** [{c: i for i, c in enumerate(_index_alphabet)}] *)
Definition _alphabet_code : gmap string Z :=
  list_to_map (imap (fun i c => (c, Z.of_nat i)) _index_alphabet).

(** [get_n_from_symbols]: the loop over [enumerate(reversed(symbols))]. *)
Fixpoint n_from_reversed (i : Z) (rev_symbols : list string) : Z :=
  match rev_symbols with
  | [] => 0
  | c :: rest =>
      default 0 (_alphabet_code !! c) * Z.of_nat (size _alphabet_code) ^ i
      + n_from_reversed (i + 1) rest
  end.

Definition get_n_from_symbols (symbols : list string) : Z :=
  n_from_reversed 0 (reverse symbols).

(** The [while n:] loop of [get_symbols_from_n]. *)
Fixpoint symbols_loop (fuel : nat) (n : Z) (symbols : list string)
  : result (list string) :=
  if n =? 0 then Ok symbols
  else match fuel with
       | O => OutOfFuel
       | S fuel' =>
           let base := Z.of_nat (length _index_alphabet) in
           c ← Py.nth _index_alphabet (n mod base);
           symbols_loop fuel' (n / base) (symbols ++ [c])
       end.

(** [get_symbols_from_n]. Each turn of the loop makes a positive [n]
    smaller, so [n] turns are enough; a negative [n] stays negative and the
    loop does not end. *)
Definition get_symbols_from_n (n : Z) : result (list string) :=
  if n =? 0 then c ← Py.nth _index_alphabet 0; Ok [c]
  else
    symbols ← symbols_loop (Z.to_nat n) n [];
    Ok (reverse symbols).

(** ** The symbol stream *)

(** The loop of [_parse_selfies]. Every turn moves [left_idx] forward, so
    the budget of [_parse_selfies] below is never used up
    ([_parse_selfies_finishes]). *)
Fixpoint parse_loop (fuel : nat) (selfies : string) (left_idx : Z) : gen :=
  if (0 <=? left_idx) && (left_idx <? Py.len selfies) then
    match fuel with
    | O => Gen [] OutOfFuel
    | S fuel' =>
        let right_idx := Py.find selfies "]" (left_idx + 1) in
        match Py.getitem selfies left_idx with
        | Ok c =>
            if negb (Ascii.eqb c "[") || (right_idx =? -1)
            then Gen [] (Raise (ValueError MalformedBrackets))
            else
              let next_symbol :=
                Py.slice selfies (Some left_idx) (Some (right_idx + 1)) in
              let left_idx := right_idx + 1 in
              if negb (String.eqb next_symbol "[nop]")
              then yield next_symbol (parse_loop fuel' selfies left_idx)
              else parse_loop fuel' selfies left_idx
        | Raise e => Gen [] (Raise e)
        | OutOfFuel => Gen [] OutOfFuel
        end
    end
  else Gen [] (Ok ()).

(** [_parse_selfies] *)
Definition _parse_selfies (selfies : string) : gen :=
  let left_idx := Py.find selfies "[" 0 in
  parse_loop (String.length selfies) selfies left_idx.

(** [_parse_selfies_symbols] *)
Definition _parse_selfies_symbols (selfies_symbols : list string) : gen :=
  Gen (filter (fun symbol => symbol ≠ "[nop]") selfies_symbols) (Ok ()).

(** ** The derivation *)

(** [derived[i] = [symbol, bonds, parent]]: the text of the i-th atom with
    its bond, the bonds it can still make, and the atom it is bonded to. *)
Record atom : Type := Atom { text : string; bonds : Z; parent : Z }.

Definition set_text (f : string → string) (a : atom) : atom :=
  Atom (f (text a)) (bonds a) (parent a).
Definition sub_bonds (n : Z) (a : atom) : atom :=
  Atom (text a) (bonds a - n) (parent a).

(** A dictionary whose order of insertion is kept. *)
Section ordered_dict.
Context {K V : Type} `{EqDecision K}.

Fixpoint od_get (k : K) (d : list (K * V)) : option V :=
  match d with
  | [] => None
  | (k', v) :: d' => if decide (k = k') then Some v else od_get k d'
  end.

(** [d[k] = v]: a known key keeps its place, a new one goes last. *)
Fixpoint od_set (k : K) (v : V) (d : list (K * V)) : list (K * V) :=
  match d with
  | [] => [(k, v)]
  | (k', v') :: d' =>
      if decide (k = k') then (k, v) :: d' else (k', v') :: od_set k v d'
  end.
End ordered_dict.

(** [while branch_start in branches: branch_start = branches[branch_start] + 1] *)
Fixpoint skip_branches (fuel : nat) (branches : list (Z * Z)) (branch_start : Z)
  : result Z :=
  match od_get branch_start branches with
  | None => Ok branch_start
  | Some branch_end =>
      match fuel with
      | O => OutOfFuel
      | S fuel' => skip_branches fuel' branches (branch_end + 1)
      end
  end.

Definition ring : Type := Z * Z * string.

(** What [_translate_selfies_derive] fills in. *)
Definition graph : Type := list atom * list (Z * Z) * list ring.

(** One turn of the loop of [_translate_selfies_derive], lines 635-706:
    from the current symbol and the loop variables to the loop variables
    after it. [self] is the function itself, for the branch. *)
Definition derive_body
    (self : gen → Z → list atom → Z → list (Z * Z) → list ring → result graph)
    (w : world) (curr_symbol : string) (selfies_gen : gen) (state : Z)
    (derived : list atom) (prev_idx : Z)
    (branches : list (Z * Z)) (rings : list ring)
  : result (gen * Z * list atom * Z * list (Z * Z) * list ring) :=
  if Py.contains "Branch" curr_symbol then
    '(branch_init_state, new_state) ← get_next_branch_state curr_symbol state;
    if state <=? 1 then
      Ok (selfies_gen, new_state, derived, prev_idx, branches, rings)
    else
      c ← Py.getitem curr_symbol (-4);
      L ← Py.int (Py.str1 c);
      '(L_symbols, selfies_gen) ← pull (Z.to_nat L) selfies_gen;
      let N := get_n_from_symbols L_symbols in
      '(branch_symbols, selfies_gen) ← pull (Z.to_nat (N + 1)) selfies_gen;
      let branch_gen := _parse_selfies_symbols branch_symbols in
      let branch_start := Z.of_nat (length derived) in
      '(derived, branches, rings) ←
        self branch_gen branch_init_state derived prev_idx branches rings;
      let branch_end := Z.of_nat (length derived) - 1 in
      branch_start ← skip_branches (length branches) branches branch_start;
      let branches :=
        if branch_start <=? branch_end
        then od_set branch_start branch_end branches
        else branches in
      Ok (selfies_gen, new_state, derived, prev_idx, branches, rings)
  else if Py.contains "Ring" curr_symbol then
    let new_state := state in
    if state =? 0 then
      Ok (selfies_gen, new_state, derived, prev_idx, branches, rings)
    else
      c ← Py.getitem curr_symbol (-2);
      L ← Py.int (Py.str1 c);
      '(L_symbols, selfies_gen) ← pull (Z.to_nat L) selfies_gen;
      let N := get_n_from_symbols L_symbols in
      let left_idx := Z.max 0 (prev_idx - (N + 1)) in
      let right_idx := prev_idx in
      bond_symbol ←
        (if String.eqb (Py.slice curr_symbol (Some 1) (Some 5)) "Expl"
         then c ← Py.getitem curr_symbol 5; Ok (Py.str1 c)
         else Ok "");
      let rings := rings ++ [(left_idx, right_idx, bond_symbol)] in
      Ok (selfies_gen, new_state, derived, prev_idx, branches, rings)
  else
    '(new_symbol, new_state) ← get_next_state w curr_symbol state;
    if negb (String.eqb new_symbol "") then
      let derived := derived ++ [Atom new_symbol new_state prev_idx] in
      derived ←
        (if 0 <=? prev_idx then
           c ← Py.getitem new_symbol 0;
           let bond_num := get_num_from_bond (Py.str1 c) in
           Py.update derived prev_idx (sub_bonds bond_num)
         else Ok derived);
      let prev_idx := Z.of_nat (length derived) - 1 in
      Ok (selfies_gen, new_state, derived, prev_idx, branches, rings)
    else Ok (selfies_gen, new_state, derived, prev_idx, branches, rings).

(** The loop of [_translate_selfies_derive], entered with the symbol that
    was just pulled. A turn of the loop and a call for a branch each take
    one unit of the budget. *)
Fixpoint derive_loop (fuel : nat) (w : world) (curr_symbol : string)
    (selfies_gen : gen) (state : Z) (derived : list atom) (prev_idx : Z)
    (branches : list (Z * Z)) (rings : list ring) : result graph :=
  if negb (String.eqb curr_symbol "") && (0 <=? state) then
    match fuel with
    | O => OutOfFuel
    | S fuel' =>
        let self g init_state derived prev_idx branches rings :=
          '(curr_symbol, g) ← next g;
          derive_loop fuel' w curr_symbol g init_state
                      derived prev_idx branches rings in
        '(selfies_gen, new_state, derived, prev_idx, branches, rings) ←
          derive_body self w curr_symbol selfies_gen state
                      derived prev_idx branches rings;
        '(curr_symbol, selfies_gen) ← next selfies_gen;
        derive_loop fuel' w curr_symbol selfies_gen new_state
                    derived prev_idx branches rings
    end
  else Ok (derived, branches, rings).

(** [_translate_selfies_derive] *)
Definition _translate_selfies_derive (fuel : nat) (w : world)
    (selfies_gen : gen) (init_state : Z) (derived : list atom) (prev_idx : Z)
    (branches : list (Z * Z)) (rings : list ring) : result graph :=
  '(curr_symbol, selfies_gen) ← next selfies_gen;
  let state := init_state in
  derive_loop fuel w curr_symbol selfies_gen state
              derived prev_idx branches rings.

(** ** Rings *)

Definition is_old_bond_char (c : ascii) : bool :=
  Ascii.eqb c "-" || Ascii.eqb c "/" || Ascii.eqb c backslash
  || Ascii.eqb c "=" || Ascii.eqb c "#".

(** One turn of the first loop of [_form_rings_bilocally], lines 727-776. *)
Definition resolve_ring (acc : list atom * list (Z * Z * string)) (r : ring)
  : result (list atom * list (Z * Z * string)) :=
  let '(derived, ring_locs) := acc in
  let '(left_idx, right_idx, bond_symbol) := r in
  if left_idx =? right_idx then Ok acc
  else
    left_end ← Py.nth derived left_idx;
    right_end ← Py.nth derived right_idx;
    let bond_num := get_num_from_bond bond_symbol in
    if (bonds left_end <=? 0) || (bonds right_end <=? 0) then Ok acc
    else
      '(bond_num, bond_symbol) ←
        (if Z.min (bonds left_end) (bonds right_end) <? bond_num then
           let bond_num := Z.min (bonds left_end) (bonds right_end) in
           bond_symbol ← get_bond_from_num bond_num;
           Ok (bond_num, bond_symbol)
         else Ok (bond_num, bond_symbol));
      '(derived, ring_locs) ←
        (if left_idx =? parent right_end then
           let right_symbol := text right_end in
           c ← Py.getitem right_symbol 0;
           let old_bond := if is_old_bond_char c then Py.str1 c else "" in
           let new_bond_num :=
             Z.min (bond_num + get_num_from_bond old_bond) 3 in
           new_bond_symbol ← get_bond_from_num new_bond_num;
           derived ←
             Py.update derived right_idx
               (set_text (fun t =>
                  new_bond_symbol +:+ Py.slice t (Some (Py.len old_bond)) None));
           Ok (derived, ring_locs)
         else
           let loc := (left_idx, right_idx) in
           match od_get loc ring_locs with
           | Some old_symbol =>
               let new_bond_num :=
                 Z.min (bond_num + get_num_from_bond old_symbol) 3 in
               new_bond_symbol ← get_bond_from_num new_bond_num;
               Ok (derived, od_set loc new_bond_symbol ring_locs)
           | None => Ok (derived, od_set loc bond_symbol ring_locs)
           end);
      derived ← Py.update derived left_idx (sub_bonds bond_num);
      derived ← Py.update derived right_idx (sub_bonds bond_num);
      Ok (derived, ring_locs).

Fixpoint resolve_rings (acc : list atom * list (Z * Z * string))
    (rings : list ring) : result (list atom * list (Z * Z * string)) :=
  match rings with
  | [] => Ok acc
  | r :: rings' => acc ← resolve_ring acc r; resolve_rings acc rings'
  end.

(** The second loop of [_form_rings_bilocally], lines 780-789. *)
Fixpoint add_rings (ring_counter : Z) (ring_locs : list (Z * Z * string))
    (derived : list atom) : result (list atom) :=
  match ring_locs with
  | [] => Ok derived
  | (left_idx, right_idx, bond_symbol) :: ring_locs' =>
      let ring_id := Py.str ring_counter in
      let ring_id := if Py.len ring_id =? 2 then "%" +:+ ring_id else ring_id in
      derived ←
        Py.update derived left_idx
                  (set_text (fun t => t +:+ bond_symbol +:+ ring_id));
      derived ←
        Py.update derived right_idx
                  (set_text (fun t => t +:+ bond_symbol +:+ ring_id));
      add_rings (ring_counter + 1) ring_locs' derived
  end.

(** [_form_rings_bilocally] *)
Definition _form_rings_bilocally (derived : list atom) (rings : list ring)
  : result (list atom) :=
  '(derived, ring_locs) ← resolve_rings (derived, []) rings;
  add_rings 1 ring_locs derived.

(** ** Fragments and the decoder *)

(** The loop of lines 594-596. *)
Fixpoint create_branches (branches : list (Z * Z)) (derived : list atom)
  : result (list atom) :=
  match branches with
  | [] => Ok derived
  | (lb, rb) :: branches' =>
      derived ← Py.update derived lb (set_text (fun t => "(" +:+ t));
      derived ← Py.update derived rb (set_text (fun t => t +:+ ")"));
      create_branches branches' derived
  end.

(** [_translate_selfies]. The derivation is given one unit of budget for
    each symbol of the stream. *)
Definition _translate_selfies (w : world) (selfies : string) : result string :=
  let selfies_gen := _parse_selfies selfies in
  '(derived, branches, rings) ←
    _translate_selfies_derive (length (pending selfies_gen)) w
                              selfies_gen 0 [] (-1) [] [];
  derived ← _form_rings_bilocally derived rings;
  derived ← create_branches branches derived;
  Ok (foldr (fun a smiles => text a +:+ smiles) "" derived).

(** The loop of lines 494-498. *)
Fixpoint translate_fragments (w : world) (fragments : list string)
    (all_smiles : list string) : result (list string) :=
  match fragments with
  | [] => Ok all_smiles
  | s :: fragments' =>
      smiles ← _translate_selfies w s;
      translate_fragments w fragments'
        (if negb (String.eqb smiles "") then all_smiles ++ [smiles]
         else all_smiles)
  end.

(** Lines 482-489 of [decoder]: the preset that was asked for is made the
    active table. *)
Definition apply_override (constraints : option string) (w : world)
  : result unit * world :=
  match constraints with
  | None => (Ok (), w)
  | Some name =>
      if String.eqb name "octet_rule" then
        let '(t, w) := get_octet_rule_constraints w in
        set_semantic_constraints (Some t) w
      else if String.eqb name "hypervalent" then
        let '(t, w) := get_hypervalent_constraints w in
        set_semantic_constraints (Some t) w
      else (Raise (ValueError UnrecognizedConstraintType), w)
  end.

(** Lines 500-501, and again 506-507:
    [if constraints is not None: set_semantic_constraints(old_constraints)] *)
Definition restore_constraints (constraints : option string)
    (old_constraints : nat) (w : world) : result unit * world :=
  match constraints with
  | Some _ => set_semantic_constraints (Some old_constraints) w
  | None => (Ok (), w)
  end.

(** [decoder]; [Ok None] is the [None] it returns for a decoding error.
    What [print_error] sends to the console is left out. *)
Definition decoder (selfies : string) (constraints : option string) (w : world)
  : result (option string) * world :=
  let '(old_constraints, w) := get_semantic_constraints w in
  let '(chosen, w) := apply_override constraints w in
  match chosen with
  | Raise e => (Raise e, w)
  | OutOfFuel => (OutOfFuel, w)
  | Ok _ =>
      (* try: *)
      let '(tried, w) :=
        match translate_fragments w (Py.split "." selfies) [] with
        | Ok all_smiles =>
            let '(restored, w) :=
              restore_constraints constraints old_constraints w in
            (_ ← restored; Ok (Some (Py.join "." all_smiles)), w)
        | Raise e => (Raise e, w)
        | OutOfFuel => (OutOfFuel, w)
        end in
      match tried with
      | Raise (ValueError _) =>
          (* except ValueError: *)
          let '(restored, w) :=
            restore_constraints constraints old_constraints w in
          (_ ← restored; Ok None, w)
      | _ => (tried, w)
      end
  end.

(** ** The robust alphabet *)

(** [get_semantic_robust_alphabet]; it reads the global [_bond_constraints].
    The result is a set, so the order in which the items of the table are
    visited does not show in it. *)
Definition get_semantic_robust_alphabet (w : world) : gset string :=
  let alphabet_subset : gset string := ∅ in
  let organic_subset : gset string :=
    list_to_set ["B"; "C"; "N"; "O"; "S"; "P"; "F"; "Cl"; "Br"; "I"] in
  let bonds : list (string * Z) := [("", 1); ("=", 2); ("#", 3)] in
  (* add atomic symbols *)
  let alphabet_subset :=
    foldl (fun alphabet_subset '((a, c), (b, m)) =>
             if (m >? c) || String.eqb a "?" then alphabet_subset
             else
               let symbol :=
                 if bool_decide (a ∈ organic_subset)
                 then "[" +:+ b +:+ a +:+ "]"
                 else "[" +:+ b +:+ a +:+ "expl]" in
               alphabet_subset ∪ {[symbol]})
          alphabet_subset
          (list_prod (map_to_list (active_table w)) bonds) in
  (* add branch and ring symbols *)
  foldl (fun alphabet_subset i =>
           let alphabet_subset :=
             alphabet_subset ∪ {["[Ring" +:+ Py.str i +:+ "]"]} in
           let alphabet_subset :=
             alphabet_subset ∪ {["[Expl=Ring" +:+ Py.str i +:+ "]"]} in
           foldl (fun alphabet_subset j =>
                    alphabet_subset
                    ∪ {["[Branch" +:+ Py.str i +:+ "_" +:+ Py.str j +:+ "]"]})
                 alphabet_subset [1; 2; 3])
        alphabet_subset [1; 2; 3].

(** * The vocabulary of the properties *)

(** ** States of the interpreter *)

(** A state with nothing but the table [t], which is active. *)
Definition world_of (t : gmap string Z) : world := World [t] 0 0 0 0.

(** A reference is live when the store holds a dictionary for it. The
    globals of a running interpreter are live. *)
Definition live (w : world) (r : nat) : Prop := (r < length (store w))%nat.

Record world_ok (w : world) : Prop := {
  default_live : live w (default_bond_constraints w);
  octet_rule_live : live w (octet_rule_bond_constraints w);
  hypervalent_live : live w (hypervalent_bond_constraints w);
  active_live : live w (_bond_constraints w)
}.

(** A table that [set_semantic_constraints] accepts. *)
Definition valid_table (t : gmap string Z) : Prop :=
  has_wildcard t ∧ values_in_range t.

(** The preset a name stands for, lines 484-487. *)
Definition preset_of (w : world) (name : string) : option nat :=
  if String.eqb name "octet_rule" then Some (octet_rule_bond_constraints w)
  else if String.eqb name "hypervalent" then Some (hypervalent_bond_constraints w)
  else None.

(** What the [try] statement of [decoder] returns, from the outcome of the
    loop over the fragments. *)
Definition decoded (fragments : result (list string)) : result (option string) :=
  match fragments with
  | Ok all_smiles => Ok (Some (Py.join "." all_smiles))
  | Raise (ValueError _) => Ok None
  | Raise e => Raise e
  | OutOfFuel => OutOfFuel
  end.

(** ** Symbols *)

(** The two digits of a branch symbol [[BranchL_X]]. [L], read at line 644,
    is the number of index symbols that give the length of the branch; [X],
    read at line 259, is the type of the branch. *)
Definition branch_length_digit (branch_symbol : string) : result Z :=
  c ← Py.getitem branch_symbol (-4); Py.int (Py.str1 c).

Definition branch_type_digit (branch_symbol : string) : result Z :=
  c ← Py.getitem branch_symbol (-2); Py.int (Py.str1 c).

(** The branch rule read with [L] where the source has [X]. *)
Definition branch_state_by_length_digit : Prop :=
  ∀ branch_symbol state L,
    branch_length_digit branch_symbol = Ok L → 1 ≤ L ≤ 3 → 2 ≤ state ≤ 8 →
    get_next_branch_state branch_symbol state
    = Ok (Z.min (state - 1) L, state - Z.min (state - 1) L).

(** Lines 200-212 of [get_next_state]: the bond character, the SMILES atom
    and what [parse_atom_symbol] reads in it. A symbol for which this is
    defined is a well-formed atom symbol. *)
Definition parsed_atom (symbol : string)
  : result (string * string * (string * Z * Z)) :=
  c ← Py.getitem symbol 1;
  let bond := if is_bond_char c then Py.str1 c else "" in
  let smiles_symbol :=
    if String.eqb (Py.slice symbol (Some (-5)) None) "expl]"
    then "[" +:+ Py.slice symbol (Some (1 + Py.len bond)) (Some (-5)) +:+ "]"
    else Py.slice symbol (Some (1 + Py.len bond)) (Some (-1)) in
  parsed ← parse_atom_symbol smiles_symbol;
  Ok (bond, smiles_symbol, parsed).

(** Lines 214-219: the bonds the active table allows the atom or ion. *)
Definition max_bonds_of (w : world) (element : string) (charge : Z) : result Z :=
  get_or_wildcard (active_table w)
    (if charge =? 0 then element else element +:+ Py.format_signed charge).

(** ** Budgets *)

(** A computation of the model finishes when its budget was enough: it
    stands for a run of the program that returns or raises. *)
Definition finishes {A : Type} (r : result A) : Prop := r ≠ OutOfFuel.

(** The symbols, other than the [''] that ends a loop, in a list and in
    what a stream still holds. *)
Definition real_symbols (l : list string) : nat :=
  length (filter (fun symbol => symbol ≠ "") l).

Definition symbols_left (g : gen) : nat := real_symbols (pending g).

(** Every branch that is registered ends no earlier than it starts
    (line 667). *)
Definition branches_ok (branches : list (Z * Z)) : Prop :=
  Forall (fun branch => branch.1 ≤ branch.2) branches.

(** The registered branches that start at [branch_start] or later. *)
Definition starts_from (branch_start : Z) (branches : list (Z * Z)) : nat :=
  length (filter (fun branch => branch_start ≤ branch.1) branches).

(** What a derivation that finishes leaves: if it returns, the branches
    are well formed. *)
Definition walk_ok (r : result graph) : Prop :=
  match r with
  | Ok (_, branches, _) => branches_ok branches
  | Raise _ => True
  | OutOfFuel => False
  end.

(** The same for one turn of the loop, which also leaves no more symbols
    in the stream than it found. *)
Definition turn_ok (g : gen)
    (r : result (gen * Z * list atom * Z * list (Z * Z) * list ring)) : Prop :=
  match r with
  | Ok (g', _, _, _, branches, _) =>
      ending g' = ending g
      ∧ (symbols_left g' ≤ symbols_left g)%nat
      ∧ branches_ok branches
  | Raise _ => True
  | OutOfFuel => False
  end.

(** ** Tactics *)

(** Case analysis on the computation a bind waits for. *)
Ltac bind_step := cbv beta iota delta [mbind result_bind mret result_ret].
Ltac case_result :=
  bind_step;
  match goal with
  | |- context [match ?m with Ok _ => _ | Raise _ => _ | OutOfFuel => _ end] =>
      destruct m as [?|?|] eqn:?
  end;
  bind_step; try reflexivity.
Ltac split_tuples :=
  repeat match goal with
         | x : (_ * _)%type |- _ => destruct x
         end.

Create HintDb finishes.

(** Goals [finishes r] for an [r] built from binds, tests and calls. *)
Ltac finish :=
  repeat first
    [ progress intros
    | progress bind_step
    | solve [auto with finishes]
    | match goal with
      | |- finishes (Ok _) => unfold finishes; discriminate
      | |- finishes (Raise _) => unfold finishes; discriminate
      | |- finishes (match ?m with Ok _ => _ | Raise _ => _ | OutOfFuel => _ end) =>
          let F := fresh "F" in
          assert (finishes m) as F by finish;
          destruct m as [?|?|];
          [ clear F | unfold finishes; discriminate | exfalso; exact (F eq_refl) ]
      | |- finishes (if ?b then _ else _) => destruct b
      | |- finishes (match ?x with (_, _) => _ end) => destruct x
      | |- finishes (match ?x with Some _ => _ | None => _ end) => destruct x
      end ].

(** One step through a bind in a goal [P (m ≫= f)], where [P] holds of
    every exception and of no exhausted budget. *)
Ltac through_bind :=
  bind_step;
  match goal with
  | |- _ (match ?m with Ok _ => _ | Raise _ => _ | OutOfFuel => _ end) =>
      let F := fresh "F" in
      assert (finishes m) as F by finish;
      destruct m as [?|?|] eqn:?;
      [ clear F | exact I | exfalso; exact (F eq_refl) ]
  end;
  bind_step.

(** ** Vocabulary of the further properties *)

(** A symbol as the stream cuts them: an opening bracket, a text without a
    closing bracket, and a closing bracket. *)
Definition bracketed (symbol : string) : Prop :=
  ∃ body, symbol = "[" +:+ body +:+ "]" ∧ Py.contains "]" body = false.

(** [''.join(symbols)] *)
Definition concat_symbols (symbols : list string) : string :=
  foldr String.append "" symbols.

(** The digit of a symbol in the index alphabet, 0 for any other symbol. *)
Definition index_digit (symbol : string) : Z :=
  default 0 (_alphabet_code !! symbol).

(** A list of index symbols without a leading zero digit: the form in which
    [get_symbols_from_n] writes a number. *)
Definition canonical_index (symbols : list string) : Prop :=
  symbols ≠ []
  ∧ Forall (fun symbol => symbol ∈ _index_alphabet) symbols
  ∧ (head symbols ≠ Some "[C]" ∨ symbols = ["[C]"]).

(** The four dictionaries the globals of the module refer to. *)
Definition module_tables (w : world)
  : gmap string Z * gmap string Z * gmap string Z * gmap string Z :=
  (deref w (default_bond_constraints w),
   deref w (octet_rule_bond_constraints w),
   deref w (hypervalent_bond_constraints w),
   active_table w).

(** The four functions that hand a table to the caller, each with the
    global it reads. *)
Definition table_getters : list ((world → nat * world) * (world → nat)) :=
  [(get_default_constraints, default_bond_constraints);
   (get_octet_rule_constraints, octet_rule_bond_constraints);
   (get_hypervalent_constraints, hypervalent_bond_constraints);
   (get_semantic_constraints, _bond_constraints)].

(** One step through a chain of binds: the call at the head of the goal
    returned, since the whole chain did. *)
Tactic Notation "head_case" "as" simple_intropattern(p) "eqn" ":" ident(E) :=
  match goal with
  | |- match ?m with Ok _ => _ | Raise _ => _ | OutOfFuel => _ end = Ok _ → _ =>
      destruct m as [p| |] eqn:E; [|discriminate|discriminate]
  end;
  bind_step; cbv zeta.

(** ** Robust symbols *)

(** Whether a call returned. *)
Definition returned {A : Type} (r : result A) : bool :=
  match r with Ok _ => true | _ => false end.

(** The digit of a ring symbol [[RingL]], read at line 676. *)
Definition ring_length_digit (ring_symbol : string) : result Z :=
  c ← Py.getitem ring_symbol (-2); Py.int (Py.str1 c).

(** A symbol each use of which in the derivation returns, in any state:
    a branch symbol with its two digits, the second one 1, 2 or 3; a ring
    symbol with its digit and a sixth character; [[epsilon]]; or an atom
    symbol that parses, with fewer hydrogens than the active table allows
    the atom bonds. The tests are in the order of the loop of
    [_translate_selfies_derive]. *)
Definition robust_symbol (w : world) (symbol : string) : bool :=
  if Py.contains "Branch" symbol then
    returned (branch_length_digit symbol)
    && match branch_type_digit symbol with
       | Ok X => (1 <=? X) && (X <=? 3)
       | _ => false
       end
  else if Py.contains "Ring" symbol then
    returned (ring_length_digit symbol) && returned (Py.getitem symbol 5)
  else
    String.eqb symbol "[epsilon]"
    || match parsed_atom symbol with
       | Ok (_, _, (element, h_count, charge)) =>
           match max_bonds_of w element charge with
           | Ok max_bonds => h_count <? max_bonds
           | _ => false
           end
       | _ => false
       end.

(** A stream that ends without an error and holds robust symbols, or the
    [''] of a stream that was used up. *)
Definition stream_ok (w : world) (g : gen) : Prop :=
  ending g = Ok ()
  ∧ Forall (fun symbol => symbol = "" ∨ robust_symbol w symbol = true)
           (pending g).

(** ** The graph under construction *)

(** [i] is the index of a derived atom. *)
Definition index_of (derived : list atom) (i : Z) : Prop :=
  0 ≤ i < Z.of_nat (length derived).

(** No atom has an empty text. *)
Definition texts_ok (derived : list atom) : Prop :=
  Forall (fun a => text a ≠ "") derived.

(** What the loops after the derivation rely on: no atom has an empty
    text, and the branches and rings are between derived atoms. *)
Record graph_ok (derived : list atom) (branches : list (Z * Z))
    (rings : list ring) : Prop := {
  graph_texts : texts_ok derived;
  branches_fit :
    Forall (fun branch => 0 ≤ branch.1 ≤ branch.2 ∧ index_of derived branch.2)
           branches;
  rings_fit :
    Forall (fun r : ring => index_of derived r.1.1 ∧ index_of derived r.1.2)
           rings
}.

(** The previous atom is a derived atom, or there is none and the state
    is 0 or below. *)
Definition cursor_ok (derived : list atom) (prev_idx state : Z) : Prop :=
  -1 ≤ prev_idx < Z.of_nat (length derived) ∧ (0 < state → 0 ≤ prev_idx).

(** A derivation that returns, with a graph that is well formed and has
    the atoms it was given. *)
Definition walk_safe (given : list atom) (r : result graph) : Prop :=
  match r with
  | Ok (derived, branches, rings) =>
      (length given ≤ length derived)%nat ∧ graph_ok derived branches rings
  | _ => False
  end.

(** The same for one turn of the loop. *)
Definition turn_safe (w : world) (g : gen) (given : list atom)
    (r : result (gen * Z * list atom * Z * list (Z * Z) * list ring)) : Prop :=
  match r with
  | Ok (g', state, derived, prev_idx, branches, rings) =>
      stream_ok w g'
      ∧ (symbols_left g' ≤ symbols_left g)%nat
      ∧ (length given ≤ length derived)%nat
      ∧ graph_ok derived branches rings
      ∧ cursor_ok derived prev_idx state
  | _ => False
  end.

(** The ring bonds that were kept are between derived atoms. *)
Definition ring_locs_fit (derived : list atom)
    (ring_locs : list (Z * Z * string)) : Prop :=
  Forall (fun loc : Z * Z * string =>
            index_of derived loc.1.1 ∧ index_of derived loc.1.2) ring_locs.

(** ** The robust alphabet *)

(** The test for a text without closing bracket followed by a closing
    bracket, and the one for [bracketed]. *)
Fixpoint closes (s : string) : bool :=
  match s with
  | "" => false
  | String c rest =>
      match rest with
      | "" => Ascii.eqb c "]"
      | _ => negb (Ascii.eqb c "]") && closes rest
      end
  end.

Definition is_bracketed (symbol : string) : bool :=
  match symbol with
  | String c rest => Ascii.eqb c "[" && closes rest
  | "" => false
  end.

(** A symbol of a string that [decoder] takes as one fragment and on
    which the derivation cannot fail. *)
Definition decodable_symbol (w : world) (symbol : string) : Prop :=
  bracketed symbol ∧ Py.contains "." symbol = false
  ∧ robust_symbol w symbol = true.

(** The three tables of the module. *)
Definition preset_table (t : gmap string Z) : Prop :=
  t = default_table ∨ t = octet_rule_table ∨ t = hypervalent_table.

(** ** The start of a fragment *)

(** A symbol that does nothing before the first atom: [[nop]],
    [[epsilon]], a branch symbol of type 1, 2 or 3, or a ring symbol. *)
Definition idle_at_start (symbol : string) : Prop :=
  symbol = "[nop]" ∨ symbol = "[epsilon]"
  ∨ (Py.contains "Branch" symbol = true
     ∧ ∃ X, branch_type_digit symbol = Ok X ∧ 1 ≤ X ≤ 3)
  ∨ (Py.contains "Branch" symbol = false ∧ Py.contains "Ring" symbol = true).


(** * Properties *)

(** ** The decoder reads the world only through the active table *)

Lemma active_world_of t : active_table (world_of t) = t.
Proof. reflexivity. Qed.

Lemma get_next_state_active w1 w2 symbol state :
  active_table w1 = active_table w2 →
  get_next_state w1 symbol state = get_next_state w2 symbol state.
Proof. intros H. unfold get_next_state. now rewrite H. Qed.

Lemma derive_body_ext self1 self2 w1 w2 c g st d p b r :
  (∀ g i d p b r, self1 g i d p b r = self2 g i d p b r) →
  active_table w1 = active_table w2 →
  derive_body self1 w1 c g st d p b r = derive_body self2 w2 c g st d p b r.
Proof.
  intros Hself Hw. unfold derive_body.
  rewrite (get_next_state_active w1 w2) by exact Hw.
  destruct (Py.contains "Branch" c); [|reflexivity].
  case_result. split_tuples.
  destruct (st <=? 1); [reflexivity|].
  do 4 (case_result; split_tuples).
  now rewrite Hself.
Qed.

Lemma derive_loop_S fuel w c g st d p b r :
  derive_loop (S fuel) w c g st d p b r =
  if negb (String.eqb c "") && (0 <=? st) then
    '(g, new_state, d, p, b, r) ←
      derive_body (_translate_selfies_derive fuel w) w c g st d p b r;
    '(c, g) ← next g;
    derive_loop fuel w c g new_state d p b r
  else Ok (d, b, r).
Proof. reflexivity. Qed.

Lemma derive_loop_active fuel w1 w2 :
  active_table w1 = active_table w2 →
  ∀ c g st d p b r,
    derive_loop fuel w1 c g st d p b r = derive_loop fuel w2 c g st d p b r.
Proof.
  intros Hw. induction fuel as [|fuel IH]; intros; [reflexivity|].
  rewrite !derive_loop_S.
  destruct (_ && _); [|reflexivity].
  rewrite (derive_body_ext (_translate_selfies_derive fuel w1)
             (_translate_selfies_derive fuel w2) w1 w2); [| |exact Hw].
  - do 2 (case_result; split_tuples). apply IH.
  - intros. unfold _translate_selfies_derive.
    case_result; split_tuples. apply IH.
Qed.

Lemma derive_active fuel w1 w2 g i d p b r :
  active_table w1 = active_table w2 →
  _translate_selfies_derive fuel w1 g i d p b r
  = _translate_selfies_derive fuel w2 g i d p b r.
Proof.
  intros Hw. unfold _translate_selfies_derive.
  case_result; split_tuples. now apply derive_loop_active.
Qed.

Lemma translate_active w1 w2 selfies :
  active_table w1 = active_table w2 →
  _translate_selfies w1 selfies = _translate_selfies w2 selfies.
Proof.
  intros Hw. unfold _translate_selfies.
  now rewrite (derive_active _ w1 w2) by exact Hw.
Qed.

Lemma translate_fragments_active w1 w2 fragments :
  active_table w1 = active_table w2 →
  ∀ all_smiles,
    translate_fragments w1 fragments all_smiles
    = translate_fragments w2 fragments all_smiles.
Proof.
  intros Hw. induction fragments as [|s fragments IH]; intros; simpl;
    [reflexivity|].
  rewrite (translate_active w1 w2 s Hw). case_result. apply IH.
Qed.

(** ** Worlds *)

Lemma initial_world_ok : world_ok initial_world.
Proof. split; unfold live; simpl; lia. Qed.

Lemma deref_new_dict_old t w r : live w r → deref (snd (new_dict t w)) r = deref w r.
Proof.
  unfold live, deref, new_dict. simpl. intros H.
  now rewrite lookup_app_l by exact H.
Qed.

Lemma deref_new_dict_new t w : deref (snd (new_dict t w)) (fst (new_dict t w)) = t.
Proof.
  unfold deref, new_dict. simpl.
  rewrite lookup_app_r by reflexivity. now rewrite Nat.sub_diag.
Qed.

Lemma live_new_dict t w r : live w r → live (snd (new_dict t w)) r.
Proof. unfold live, new_dict. simpl. rewrite length_app. simpl. lia. Qed.

Lemma new_dict_fresh t w : ¬ live w (fst (new_dict t w)).
Proof. unfold live, new_dict. simpl. lia. Qed.

Lemma new_dict_live t w : live (snd (new_dict t w)) (fst (new_dict t w)).
Proof. unfold live, new_dict. simpl. rewrite length_app. simpl. lia. Qed.

Lemma new_dict_ok t w : world_ok w → world_ok (snd (new_dict t w)).
Proof. intros [? ? ? ?]. split; now apply live_new_dict. Qed.

Lemma active_new_dict t w :
  world_ok w → active_table (snd (new_dict t w)) = active_table w.
Proof. intros [? ? ? ?]. now apply deref_new_dict_old. Qed.

(** Without an override the decoder translates under the active table and
    leaves it in place. *)
Lemma decoder_no_override selfies w :
  world_ok w →
  decoder selfies None w
  = (decoded (translate_fragments (world_of (active_table w))
                                  (Py.split "." selfies) []),
     snd (get_semantic_constraints w)).
Proof.
  intros Hok. unfold decoder, get_semantic_constraints, dict.
  destruct (new_dict _ w) as [old w'] eqn:E.
  assert (Ha : active_table w' = active_table (world_of (active_table w))).
  { replace w' with (snd (new_dict (deref w (_bond_constraints w)) w))
      by now rewrite E.
    now rewrite active_new_dict. }
  unfold apply_override, restore_constraints.
  rewrite (translate_fragments_active _ _ _ Ha). simpl.
  destruct (translate_fragments _ _ _) as [l|[v| |]|]; reflexivity.
Qed.

(** ** Two decodings *)

(** C1. Under the default table and with no override, the decoder turns
    "[C][=C][F]" into the SMILES "C=CF". *)
Theorem decoder_C_dC_F (w : world) :
  world_ok w → active_table w = default_table →
  fst (decoder "[C][=C][F]" None w) = Ok (Some "C=CF").
Proof.
  intros Hok Ht. rewrite decoder_no_override by exact Hok.
  rewrite Ht. vm_compute. reflexivity.
Qed.

Lemma decoder_C_dC_F_witness :
  fst (decoder "[C][=C][F]" None initial_world) = Ok (Some "C=CF").
Proof.
  apply (decoder_C_dC_F initial_world); [exact initial_world_ok|reflexivity].
Defined.


(** C2, as stated: under the default table "[C][C][Ring1]" would decode to
    the three-membered ring "C1CC1". It does not. *)
Lemma decoder_C_C_Ring1_is_not_a_ring :
  fst (decoder "[C][C][Ring1]" None initial_world) ≠ Ok (Some "C1CC1").
Proof. vm_compute. discriminate. Qed.

(** C2, amended. Under the default table "[C][C][Ring1]" decodes to "C=C":
    two atoms are derived, the ring symbol finds the stream used up and
    reads distance 0, which names the two atoms that are already bonded,
    and their bond becomes a double bond; no ring digit is written. The
    ring "C1CC1" is what "[C][C][C][Ring1][Ring1]" decodes to. *)
Theorem decoder_C_C_Ring1 (w : world) :
  world_ok w → active_table w = default_table →
  fst (decoder "[C][C][Ring1]" None w) = Ok (Some "C=C")
  ∧ fst (decoder "[C][C][C][Ring1][Ring1]" None w) = Ok (Some "C1CC1").
Proof.
  intros Hok Ht. rewrite !decoder_no_override by exact Hok.
  rewrite Ht. split; vm_compute; reflexivity.
Qed.

Lemma decoder_C_C_Ring1_witness :
  fst (decoder "[C][C][Ring1]" None initial_world) = Ok (Some "C=C")
  ∧ fst (decoder "[C][C][C][Ring1][Ring1]" None initial_world)
    = Ok (Some "C1CC1").
Proof.
  apply (decoder_C_C_Ring1 initial_world); [exact initial_world_ok|reflexivity].
Defined.

(** ** The branch rule *)

Lemma branch_type_digit_bind branch_symbol state :
  get_next_branch_state branch_symbol state =
  branch_type ← branch_type_digit branch_symbol;
  if negb ((1 <=? branch_type) && (branch_type <=? 3))
  then Raise (ValueError UnknownBranchSymbol)
  else if (2 <=? state) && (state <=? 8) then
    Ok (Z.min (state - 1) branch_type, state - Z.min (state - 1) branch_type)
  else Ok (-1, state).
Proof.
  unfold get_next_branch_state, branch_type_digit.
  destruct (Py.getitem branch_symbol (-2)); reflexivity.
Qed.

(** C3, as stated: the states of a branch would be computed from the number
    of index symbols of the branch symbol. "[Branch1_3]" in state 5 has one
    index symbol and type 3, and the states are (3, 2), not (1, 4). *)
Lemma branch_state_not_by_length_digit : ¬ branch_state_by_length_digit.
Proof.
  intros H. specialize (H "[Branch1_3]" 5 1).
  vm_compute in H. specialize (H eq_refl).
  assert (Ok (3, 2) = Ok (1, 4) :> result (Z * Z)) as E.
  { apply H; split; discriminate. }
  discriminate E.
Qed.

(** C3, amended. The states of a branch are computed from the type [X] of
    the branch symbol [[BranchL_X]], the digit before its closing bracket,
    not from [L], the number of index symbols. When the digit is read as
    [X]: for [1 <= X <= 3] and [2 <= state <= 8] the branch starts in state
    [min(state - 1, X)] and the chain goes on in state
    [state - min(state - 1, X)]; for [1 <= X <= 3] and any other state the
    result is [(-1, state)]; and the unknown-branch-symbol error is raised
    exactly when [X] is outside 1..3. *)
Theorem get_next_branch_state_by_type (branch_symbol : string) (state X : Z) :
  branch_type_digit branch_symbol = Ok X →
  (1 ≤ X ≤ 3 → 2 ≤ state ≤ 8 →
   get_next_branch_state branch_symbol state
   = Ok (Z.min (state - 1) X, state - Z.min (state - 1) X))
  ∧ (1 ≤ X ≤ 3 → ¬ (2 ≤ state ≤ 8) →
     get_next_branch_state branch_symbol state = Ok (-1, state))
  ∧ (get_next_branch_state branch_symbol state
     = Raise (ValueError UnknownBranchSymbol) ↔ ¬ (1 ≤ X ≤ 3)).
Proof.
  intros HX. rewrite branch_type_digit_bind, HX. bind_step.
  destruct (Z.leb_spec 1 X), (Z.leb_spec X 3); simpl;
    destruct (Z.leb_spec 2 state), (Z.leb_spec state 8); simpl;
    repeat split; intros; try lia; try reflexivity; try discriminate.
Qed.

Lemma get_next_branch_state_by_type_witness :
  get_next_branch_state "[Branch1_3]" 5 = Ok (3, 2)
  ∧ get_next_branch_state "[Branch1_3]" 1 = Ok (-1, 1)
  ∧ get_next_branch_state "[Branch1_4]" 5
    = Raise (ValueError UnknownBranchSymbol).
Proof.
  destruct (get_next_branch_state_by_type "[Branch1_3]" 5 3 eq_refl)
    as (H1 & _ & _).
  destruct (get_next_branch_state_by_type "[Branch1_3]" 1 3 eq_refl)
    as (_ & H2 & _).
  destruct (get_next_branch_state_by_type "[Branch1_4]" 5 4 eq_refl)
    as (_ & _ & H3).
  split; [|split].
  - apply H1; lia.
  - apply H2; lia.
  - apply H3; lia.
Defined.

(** ** Errors that leave the decoder *)

(** A [ValueError] stops at the [except] clause: the stream of "[C][" raises
    one for the bracket that is not closed, and the decoder returns [None]. *)
Example decoder_catches_ValueError :
  fst (decoder "[C][" None initial_world) = Ok None.
Proof. vm_compute. reflexivity. Qed.

(** C9. The decoder does not return for every string. On "[]" the text
    between the brackets is empty, [parse_atom_symbol] indexes it, and the
    [IndexError] is not a [ValueError]: it passes the [except] clause of the
    decoder and reaches the caller, whatever the state of the module. *)
Theorem decoder_raises_IndexError (w : world) :
  fst (decoder "[]" None w) = Raise IndexError.
Proof. vm_compute. reflexivity. Qed.

(** ** The constraint registry *)

Lemma store_live w r t : store w !! r = Some t → live w r.
Proof. intros H. unfold live. now apply lookup_lt_Some in H. Qed.

Lemma deref_store w r t : store w !! r = Some t → deref w r = t.
Proof. intros H. unfold deref. now rewrite H. Qed.

Lemma set_semantic_constraints_reject w r :
  ¬ (has_wildcard (deref w r) ∧ values_in_range (deref w r)) →
  set_semantic_constraints (Some r) w
  = (Raise (ValueError InvalidConstraintTable), w).
Proof.
  intros H. unfold set_semantic_constraints.
  repeat case_bool_decide; try reflexivity. tauto.
Qed.

Lemma set_semantic_constraints_accept w r :
  has_wildcard (deref w r) → values_in_range (deref w r) →
  set_semantic_constraints (Some r) w
  = (Ok (), set_active (fst (dict r w)) (snd (dict r w))).
Proof.
  intros H1 H2. unfold set_semantic_constraints.
  rewrite !bool_decide_eq_true_2 by assumption.
  now destruct (dict r w).
Qed.

Lemma values_out_of_range (t : gmap string Z) :
  ¬ values_in_range t ↔ ∃ key value, t !! key = Some value ∧ ¬ (1 ≤ value ≤ 8).
Proof. unfold values_in_range. now rewrite map_not_Forall by apply _. Qed.

Lemma no_wildcard (t : gmap string Z) : ¬ has_wildcard t ↔ t !! "?" = None.
Proof. unfold has_wildcard. now rewrite eq_None_not_Some. Qed.

(** C5. [set_semantic_constraints] on a dictionary [t] of the caller:
    it raises the invalid-table [ValueError] exactly when [t] has no key
    '?' or holds a value outside 1..8, and it has no other way to fail;
    when it raises, the state is as before; when it returns, the active
    table is a new dictionary with the content of [t], so that what the
    caller stores in [t] afterwards does not reach it. On [None] the active
    table is the default preset again. *)
Theorem set_semantic_constraints_spec (w : world) (r : nat) (t : gmap string Z) :
  store w !! r = Some t →
  let out := set_semantic_constraints (Some r) w in
  (fst out = Raise (ValueError InvalidConstraintTable)
   ↔ t !! "?" = None ∨ ∃ key value, t !! key = Some value ∧ ¬ (1 ≤ value ≤ 8))
  ∧ (fst out = Ok () ∨ fst out = Raise (ValueError InvalidConstraintTable))
  ∧ (fst out ≠ Ok () → snd out = w)
  ∧ (fst out = Ok () →
     active_table (snd out) = t
     ∧ ¬ live w (_bond_constraints (snd out))
     ∧ _bond_constraints (snd out) ≠ r
     ∧ deref (snd out) r = t
     ∧ ∀ key value, active_table (setitem r key value (snd out)) = t)
  ∧ _bond_constraints (snd (set_semantic_constraints None w))
    = default_bond_constraints w
  ∧ store (snd (set_semantic_constraints None w)) = store w
  ∧ fst (set_semantic_constraints None w) = Ok ().
Proof.
  intros Hr out. pose proof (store_live _ _ _ Hr) as Hlive.
  pose proof (deref_store _ _ _ Hr) as Ht.
  rewrite <- no_wildcard, <- values_out_of_range.
  destruct (decide (has_wildcard t ∧ values_in_range t)) as [[H1 H2]|Hbad].
  - (* accepted *)
    assert (Hout : out = (Ok (), set_active (fst (dict r w)) (snd (dict r w)))).
    { subst out. apply set_semantic_constraints_accept; now rewrite Ht. }
    rewrite Hout. simpl. repeat split; try tauto; try discriminate.
    + unfold active_table, deref. simpl.
      rewrite lookup_app_r by reflexivity. rewrite Nat.sub_diag. simpl.
      now rewrite Hr.
    + unfold live. lia.
    + unfold live in Hlive. lia.
    + unfold deref. simpl. rewrite lookup_app_l by exact Hlive. now rewrite Hr.
    + intros key value. unfold active_table, deref, setitem. simpl.
      rewrite list_lookup_alter_ne by (unfold live in Hlive; lia).
      rewrite lookup_app_r by reflexivity. rewrite Nat.sub_diag. simpl.
      now rewrite Hr.
  - (* rejected *)
    assert (Hout : out = (Raise (ValueError InvalidConstraintTable), w)).
    { subst out. apply set_semantic_constraints_reject. now rewrite Ht. }
    rewrite Hout. simpl. repeat split; try tauto; try discriminate; auto.
    intros _. apply not_and_l in Hbad; tauto.
Qed.

Lemma set_semantic_constraints_spec_witness :
  let w := snd (new_dict {["?" := 9]} initial_world) in
  set_semantic_constraints (Some 3%nat) w
  = (Raise (ValueError InvalidConstraintTable), w).
Proof.
  intros w.
  destruct (set_semantic_constraints_spec w 3 {["?" := 9]} eq_refl)
    as (Hiff & _ & Hsame & _).
  assert (Hfail : fst (set_semantic_constraints (Some 3%nat) w)
                  = Raise (ValueError InvalidConstraintTable)).
  { apply Hiff. right. exists "?", 9. split; [reflexivity|lia]. }
  rewrite (surjective_pairing (set_semantic_constraints (Some 3%nat) w)).
  rewrite Hfail, Hsame; [reflexivity|]. rewrite Hfail. discriminate.
Defined.

(** A table that passes the checks is installed. *)
Example set_semantic_constraints_accepts :
  let w := snd (new_dict {["?" := 8; "C" := 4]} initial_world) in
  fst (set_semantic_constraints (Some 3%nat) w) = Ok ()
  ∧ active_table (snd (set_semantic_constraints (Some 3%nat) w))
    = {["?" := 8; "C" := 4]}.
Proof. split; vm_compute; reflexivity. Qed.

(** ** Overrides *)

Lemma dict_spec w r :
  world_ok w →
  let out := dict r w in
  world_ok (snd out)
  ∧ live (snd out) (fst out)
  ∧ deref (snd out) (fst out) = deref w r
  ∧ active_table (snd out) = active_table w
  ∧ ∀ r', live w r' → live (snd out) r' ∧ deref (snd out) r' = deref w r'.
Proof.
  intros Hok. unfold dict. cbv zeta.
  split; [now apply new_dict_ok|].
  split; [apply new_dict_live|].
  split; [apply deref_new_dict_new|].
  split; [now apply active_new_dict|].
  intros r' Hr'. split; [now apply live_new_dict|now apply deref_new_dict_old].
Qed.

Lemma set_active_ok w r : world_ok w → live w r → world_ok (set_active r w).
Proof. intros [? ? ? ?] Hr. split; assumption. Qed.

Lemma set_semantic_constraints_cases w r :
  world_ok w → live w r →
  let out := set_semantic_constraints (Some r) w in
  (valid_table (deref w r)
   ∧ fst out = Ok ()
   ∧ world_ok (snd out)
   ∧ active_table (snd out) = deref w r
   ∧ ∀ r', live w r' → live (snd out) r' ∧ deref (snd out) r' = deref w r')
  ∨ (¬ valid_table (deref w r)
     ∧ out = (Raise (ValueError InvalidConstraintTable), w)).
Proof.
  intros Hok Hr out. unfold valid_table.
  destruct (decide (has_wildcard (deref w r) ∧ values_in_range (deref w r)))
    as [[H1 H2]|Hbad].
  - left. subst out. rewrite set_semantic_constraints_accept by assumption.
    destruct (dict_spec w r Hok) as (Hok' & Hnew & Hcopy & Hact & Hold).
    split; [tauto|]. split; [reflexivity|]. split; [|split].
    + now apply set_active_ok.
    + exact Hcopy.
    + exact Hold.
  - right. subst out. split; [exact Hbad|].
    now apply set_semantic_constraints_reject.
Qed.

Lemma apply_override_cases name w old :
  world_ok w → live w old →
  let out := apply_override (Some name) w in
  (∃ preset, preset_of w name = Some preset
     ∧ fst out = Ok () ∧ world_ok (snd out)
     ∧ active_table (snd out) = deref w preset
     ∧ live (snd out) old ∧ deref (snd out) old = deref w old)
  ∨ ((∃ why, fst out = Raise (ValueError why))
     ∧ world_ok (snd out) ∧ active_table (snd out) = active_table w).
Proof.
  intros Hok Hold.
  assert (Hpreset : ∀ preset, live w preset →
    let out := set_semantic_constraints (Some (fst (dict preset w)))
                                        (snd (dict preset w)) in
    (fst out = Ok () ∧ world_ok (snd out)
     ∧ active_table (snd out) = deref w preset
     ∧ live (snd out) old ∧ deref (snd out) old = deref w old)
    ∨ ((∃ why, fst out = Raise (ValueError why))
       ∧ world_ok (snd out) ∧ active_table (snd out) = active_table w)).
  { intros preset Hp.
    destruct (dict_spec w preset Hok) as (Hok2 & Hnew & Hcopy2 & Hact2 & Hkeep2).
    destruct (set_semantic_constraints_cases _ _ Hok2 Hnew)
      as [(_ & Hr & Hok3 & Hact3 & Hkeep3)|[_ Hrej]]; cbv zeta.
    - left. split; [exact Hr|]. split; [exact Hok3|].
      split; [congruence|].
      destruct (Hkeep2 old Hold) as [Ho2 Ho2'].
      destruct (Hkeep3 old Ho2) as [Ho3 Ho3'].
      split; [exact Ho3|congruence].
    - right. rewrite Hrej. simpl. split; [eauto|].
      split; [exact Hok2|exact Hact2]. }
  unfold apply_override, preset_of,
    get_octet_rule_constraints, get_hypervalent_constraints.
  destruct (String.eqb name "octet_rule").
  - destruct (Hpreset _ (octet_rule_live _ Hok)) as [H|H];
      destruct (dict _ w); simpl in *; [left; eauto|right; exact H].
  - destruct (String.eqb name "hypervalent").
    + destruct (Hpreset _ (hypervalent_live _ Hok)) as [H|H];
        destruct (dict _ w); simpl in *; [left; eauto|right; exact H].
    + right. simpl. eauto.
Qed.

Lemma restore_constraints_valid name w old :
  world_ok w → live w old → valid_table (deref w old) →
  let out := restore_constraints (Some name) old w in
  fst out = Ok () ∧ world_ok (snd out) ∧ active_table (snd out) = deref w old.
Proof.
  intros Hok Hold Hvalid. unfold restore_constraints.
  destruct (set_semantic_constraints_cases _ _ Hok Hold)
    as [(_ & Hr & Hok' & Hact & _)|[Hbad _]]; [|contradiction].
  cbv zeta. auto.
Qed.

(** The ways out of a [decoder] call with an override, from a state whose
    active table is valid: it returns, or raises a [ValueError] before the
    [try], and the active table is as before the call; or it leaves through
    the [try] with something that is no [ValueError], and the preset stays
    the active table. *)
Lemma decoder_override_cases selfies name w :
  world_ok w → valid_table (active_table w) →
  let out := decoder selfies (Some name) w in
  world_ok (snd out)
  ∧ (((∃ smiles, fst out = Ok smiles) ∨ (∃ why, fst out = Raise (ValueError why)))
     ∧ active_table (snd out) = active_table w
     ∨ (fst out = Raise IndexError ∨ fst out = Raise KeyError
        ∨ fst out = OutOfFuel)
       ∧ ∃ preset, preset_of w name = Some preset
                   ∧ active_table (snd out) = deref w preset).
Proof.
  intros Hok Hvalid out. subst out. unfold decoder, get_semantic_constraints.
  destruct (dict_spec w (_bond_constraints w) Hok)
    as (Hok1 & Hold & Hcopy & Hact1 & Hkeep1).
  assert (Hoct : octet_rule_bond_constraints (snd (dict (_bond_constraints w) w))
                 = octet_rule_bond_constraints w) by reflexivity.
  assert (Hhyp : hypervalent_bond_constraints (snd (dict (_bond_constraints w) w))
                 = hypervalent_bond_constraints w) by reflexivity.
  destruct (dict (_bond_constraints w) w) as [old w1]. cbn [fst snd] in *.
  destruct (apply_override_cases name w1 old Hok1 Hold)
    as [(preset & Hname & Hr & Hok2 & Hact2 & Hold2 & Hderef2)
       |((why & Hr) & Hok2 & Hact2)].
  - (* the preset is in place *)
    assert (Hpre : ∃ preset', preset_of w name = Some preset'
                              ∧ active_table (snd (apply_override (Some name) w1))
                                = deref w preset').
    { unfold preset_of in *.
      destruct (String.eqb name "octet_rule").
      - injection Hname as <-. exists (octet_rule_bond_constraints w).
        split; [reflexivity|]. rewrite Hact2, Hoct.
        apply Hkeep1, Hok.
      - destruct (String.eqb name "hypervalent"); [|discriminate].
        injection Hname as <-. exists (hypervalent_bond_constraints w).
        split; [reflexivity|]. rewrite Hact2, Hhyp. apply Hkeep1, Hok. }
    destruct (apply_override (Some name) w1) as [chosen w2]. cbn [fst snd] in *.
    subst chosen.
    assert (Hv2 : valid_table (deref w2 old))
      by (rewrite Hderef2, Hcopy; exact Hvalid).
    destruct (restore_constraints_valid name w2 old Hok2 Hold2 Hv2)
      as (Hres & Hok3 & Hact3).
    rewrite Hderef2, Hcopy in Hact3.
    destruct (restore_constraints (Some name) old w2) as [restored w3] eqn:Hrest.
    cbn [fst snd] in *. subst restored.
    destruct (translate_fragments w2 (Py.split "." selfies) [])
      as [all_smiles|[why| |]|];
      rewrite ?Hrest; cbn [fst snd mbind result_bind].
    + split; [exact Hok3|]. left. split; [left; eauto|exact Hact3].
    + split; [exact Hok3|]. left. split; [left; eauto|exact Hact3].
    + split; [exact Hok2|]. right. split; [auto|exact Hpre].
    + split; [exact Hok2|]. right. split; [auto|exact Hpre].
    + split; [exact Hok2|]. right. split; [auto|exact Hpre].
  - (* the preset is refused, or the name is unknown *)
    destruct (apply_override (Some name) w1) as [chosen w2]. cbn [fst snd] in *.
    subst chosen. split; [exact Hok2|]. left.
    split; [right; eauto|]. cbn [snd]. congruence.
Qed.

(** C4. An override is not undone on every way out of [decoder]. From the
    state after import, [decoder("[]", constraints="octet_rule")] raises
    [IndexError]; neither of the two places that put the old table back is
    reached, and the octet-rule table stays active: a later call without an
    override decodes "[C][=S][=C]" to "C=S", where before it gave
    "C=S=C". *)
Theorem decoder_override_outlives_IndexError :
  let out := decoder "[]" (Some "octet_rule") initial_world in
  fst out = Raise IndexError
  ∧ active_table initial_world = default_table
  ∧ active_table (snd out) = octet_rule_table
  ∧ fst (decoder "[C][=S][=C]" None initial_world) = Ok (Some "C=S=C")
  ∧ fst (decoder "[C][=S][=C]" None (snd out)) = Ok (Some "C=S").
Proof. repeat split; vm_compute; reflexivity. Qed.

(** When [decoder] returns, with a result or with [None], the table that
    was active before the call is active again. *)
Lemma decoder_return_restores selfies constraints w smiles :
  world_ok w → valid_table (active_table w) →
  fst (decoder selfies constraints w) = Ok smiles →
  world_ok (snd (decoder selfies constraints w))
  ∧ active_table (snd (decoder selfies constraints w)) = active_table w.
Proof.
  intros Hok Hvalid Hret. destruct constraints as [name|].
  - destruct (decoder_override_cases selfies name w Hok Hvalid)
      as (Hok' & [[_ Hact]|[Hesc _]]); [tauto|].
    rewrite Hret in Hesc. destruct Hesc as [?|[?|?]]; discriminate.
  - rewrite decoder_no_override by exact Hok. simpl.
    destruct (dict_spec w (_bond_constraints w) Hok) as (? & _ & _ & ? & _).
    split; assumption.
Qed.

(** When [decoder] lets an exception that is no [ValueError] out of its
    [try], the preset of the override stays the active table. *)
Lemma decoder_escape_keeps_override selfies name w e :
  world_ok w → valid_table (active_table w) →
  fst (decoder selfies (Some name) w) = Raise e →
  (∀ why, e ≠ ValueError why) →
  ∃ preset, preset_of w name = Some preset
            ∧ active_table (snd (decoder selfies (Some name) w))
              = deref w preset.
Proof.
  intros Hok Hvalid Hraise Hother.
  destruct (decoder_override_cases selfies name w Hok Hvalid)
    as (_ & [[[[smiles Hret]|[why Hwhy]] _]|[_ Hpreset]]).
  - rewrite Hraise in Hret. discriminate.
  - rewrite Hraise in Hwhy. injection Hwhy as ->. now destruct (Hother why).
  - exact Hpreset.
Qed.

(** A call without an override after a call that returned decodes as it
    would have before that call. *)
Lemma decoder_after_return selfies constraints w smiles selfies' :
  world_ok w → valid_table (active_table w) →
  fst (decoder selfies constraints w) = Ok smiles →
  fst (decoder selfies' None (snd (decoder selfies constraints w)))
  = fst (decoder selfies' None w).
Proof.
  intros Hok Hvalid Hret.
  destruct (decoder_return_restores _ _ _ _ Hok Hvalid Hret) as [Hok' Hact].
  rewrite !decoder_no_override by assumption. simpl. now rewrite Hact.
Qed.

(** ** The index code *)

Lemma alphabet_base : Z.of_nat (size _alphabet_code) = 16.
Proof. reflexivity. Qed.

Lemma alphabet_digit (d : Z) :
  0 ≤ d < 16 →
  ∃ c, Py.nth _index_alphabet d = Ok c ∧ _alphabet_code !! c = Some d.
Proof.
  intros Hd.
  assert (d = 0 ∨ d = 1 ∨ d = 2 ∨ d = 3 ∨ d = 4 ∨ d = 5 ∨ d = 6 ∨ d = 7
          ∨ d = 8 ∨ d = 9 ∨ d = 10 ∨ d = 11 ∨ d = 12 ∨ d = 13 ∨ d = 14
          ∨ d = 15) as Hcases by lia.
  repeat (destruct Hcases as [->|Hcases]);
    [..|subst d]; eexists; (split; [reflexivity|vm_compute; reflexivity]).
Qed.

(** The loop writes the base-16 digits of [n], the last one first. *)
Lemma symbols_loop_digits fuel :
  ∀ n symbols, 0 ≤ n → (Z.to_nat n ≤ fuel)%nat →
    ∃ digits, symbols_loop fuel n symbols = Ok (symbols ++ digits)
              ∧ ∀ i, 0 ≤ i → n_from_reversed i digits = n * 16 ^ i.
Proof.
  induction fuel as [|fuel IH]; intros n symbols Hn Hfuel.
  - assert (n = 0) as -> by lia. exists []. split.
    + simpl. now rewrite app_nil_r.
    + intros i _. reflexivity.
  - destruct (Z.eqb_spec n 0) as [->|Hpos].
    + exists []. split; [simpl; now rewrite app_nil_r|reflexivity].
    + cbn [symbols_loop]. rewrite (proj2 (Z.eqb_neq n 0) Hpos).
      change (Z.of_nat (length _index_alphabet)) with 16.
      destruct (alphabet_digit (n mod 16)) as (c & Hc & Hcode).
      { apply Z.mod_pos_bound. lia. }
      rewrite Hc. bind_step.
      destruct (IH (n / 16) (symbols ++ [c])) as (digits & Hloop & Hval).
      { apply Z.div_pos; lia. }
      { assert (n / 16 < n) by (apply Z.div_lt; lia). lia. }
      exists (c :: digits). split.
      * rewrite Hloop. now rewrite <- app_assoc.
      * intros i Hi. cbn [n_from_reversed]. rewrite Hcode, alphabet_base.
        rewrite Hval by lia. cbn [default from_option id].
        rewrite Z.pow_add_r by lia. rewrite Z.pow_1_r.
        pose proof (Z.div_mod n 16 ltac:(lia)) as Hdm. nia.
Qed.

(** C6. For every [n >= 0], so for every [n] below [16^k], and in
    particular from 0 to 4095, [get_symbols_from_n] returns symbols from
    which [get_n_from_symbols] computes [n] again; and for 0 it returns the
    first symbol of the alphabet alone, not the empty list. *)
Theorem index_round_trip (n : Z) :
  0 ≤ n →
  (∃ symbols, get_symbols_from_n n = Ok symbols
              ∧ get_n_from_symbols symbols = n)
  ∧ get_symbols_from_n 0 = Ok ["[C]"]
  ∧ _index_alphabet !! 0%nat = Some "[C]".
Proof.
  intros Hn. split; [|split; reflexivity].
  unfold get_symbols_from_n. destruct (Z.eqb_spec n 0) as [->|Hpos].
  - exists ["[C]"]. split; reflexivity.
  - destruct (symbols_loop_digits (Z.to_nat n) n [] Hn (le_n _))
      as (digits & Hloop & Hval).
    rewrite Hloop. exists (reverse digits). split; [reflexivity|].
    unfold get_n_from_symbols. rewrite reverse_involutive.
    rewrite Hval by lia. lia.
Qed.

Lemma index_round_trip_witness :
  ∃ symbols, get_symbols_from_n 4095 = Ok symbols
             ∧ get_n_from_symbols symbols = 4095.
Proof.
  destruct (index_round_trip 4095) as [H _]; [lia|exact H].
Defined.

(** A negative [n] never becomes 0: the loop of [get_symbols_from_n] does
    not end. *)
Lemma symbols_loop_negative fuel :
  ∀ n symbols, n < 0 → symbols_loop fuel n symbols = OutOfFuel.
Proof.
  induction fuel as [|fuel IH]; intros n symbols Hn; cbn [symbols_loop];
    rewrite (proj2 (Z.eqb_neq n 0)) by lia; [reflexivity|].
  change (Z.of_nat (length _index_alphabet)) with 16.
  destruct (alphabet_digit (n mod 16)) as (c & Hc & _).
  { apply Z.mod_pos_bound. lia. }
  rewrite Hc. bind_step. apply IH.
  apply Z.div_lt_upper_bound; lia.
Qed.

(** ** Hydrogens *)

Lemma get_num_from_bond_range bond : 1 ≤ get_num_from_bond bond ≤ 3.
Proof.
  unfold get_num_from_bond.
  destruct (String.eqb bond "="); [lia|].
  destruct (String.eqb bond "#"); lia.
Qed.

Lemma get_bond_from_num_defined n :
  1 ≤ n ≤ 3 → ∃ bond, get_bond_from_num n = Ok bond.
Proof.
  intros Hn. assert (n = 1 ∨ n = 2 ∨ n = 3) as [->|[->| ->]] by lia;
    eexists; reflexivity.
Qed.

(** [get_next_state] on a symbol that parses, up to the test of line 221. *)
Lemma get_next_state_parsed w symbol state bond smiles_symbol element h_count
      charge max_bonds :
  symbol ≠ "[epsilon]" →
  parsed_atom symbol = Ok (bond, smiles_symbol, (element, h_count, charge)) →
  max_bonds_of w element charge = Ok max_bonds →
  get_next_state w symbol state =
  if (max_bonds <? h_count) || ((h_count =? max_bonds) && (0 <? state))
  then Raise (ValueError ExcessHydrogens)
  else
    let max_bonds := max_bonds - h_count in
    if state =? 0 then Ok ("" +:+ smiles_symbol, max_bonds)
    else
      '(bond_num, bond) ←
        (if Z.min state max_bonds <? get_num_from_bond bond then
           let bond_num := Z.min state max_bonds in
           bond ← get_bond_from_num bond_num;
           Ok (bond_num, bond)
         else Ok (get_num_from_bond bond, bond));
      let next_state := max_bonds - bond_num in
      let next_state := if next_state =? 0 then -1 else next_state in
      Ok (bond +:+ smiles_symbol, next_state).
Proof.
  intros Heps Hparsed Hmax. unfold get_next_state.
  rewrite (proj2 (String.eqb_neq symbol "[epsilon]") Heps).
  unfold parsed_atom in Hparsed. unfold max_bonds_of in Hmax.
  destruct (Py.getitem symbol 1) as [c| |]; try discriminate.
  revert Hparsed. bind_step.
  destruct (parse_atom_symbol _) as [[[e h] q]| |]; try discriminate.
  intros [= <- <- <- <- <-]. bind_step. rewrite Hmax. reflexivity.
Qed.

(** C7. For an atom symbol other than [[epsilon]] that parses, and a state
    that is not negative, [get_next_state] raises the too-many-Hs
    [ValueError] exactly when the hydrogen count read in the symbol is above
    the bonds the active table allows the atom, or equals them in a state
    above 0; in every other case it returns a fragment and a next state. *)
Theorem get_next_state_excess_hydrogens
    (w : world) (symbol : string) (state : Z)
    (bond smiles_symbol element : string) (h_count charge max_bonds : Z) :
  symbol ≠ "[epsilon]" → 0 ≤ state →
  parsed_atom symbol = Ok (bond, smiles_symbol, (element, h_count, charge)) →
  max_bonds_of w element charge = Ok max_bonds →
  (get_next_state w symbol state = Raise (ValueError ExcessHydrogens)
   ↔ max_bonds < h_count ∨ (h_count = max_bonds ∧ 0 < state))
  ∧ (¬ (max_bonds < h_count ∨ (h_count = max_bonds ∧ 0 < state)) →
     ∃ fragment next_state,
       get_next_state w symbol state = Ok (fragment, next_state)).
Proof.
  intros Heps Hstate Hparsed Hmax.
  rewrite (get_next_state_parsed _ _ _ _ _ _ _ _ _ Heps Hparsed Hmax).
  destruct (Z.ltb_spec max_bonds h_count) as [Hlt|Hge]; cbn [orb].
  { split; [tauto|]. intros H. exfalso. apply H. now left. }
  destruct (Z.eqb_spec h_count max_bonds) as [Heq|Hne]; cbn [andb].
  - destruct (Z.ltb_spec 0 state) as [Hpos|Hzero].
    + split; [tauto|]. intros H. exfalso. apply H. now right.
    + assert (state = 0) as -> by lia. cbn. split.
      * split; [discriminate|]. lia.
      * intros _. eauto.
  - assert (Hroom : 1 ≤ max_bonds - h_count) by lia. cbv zeta.
    destruct (Z.eqb_spec state 0) as [->|Hst].
    + split; [|eauto]. split; [discriminate|]. lia.
    + pose proof (get_num_from_bond_range bond) as Hbond.
      destruct (Z.ltb_spec (Z.min state (max_bonds - h_count))
                           (get_num_from_bond bond)) as [Hcap|Hfree].
      * destruct (get_bond_from_num_defined (Z.min state (max_bonds - h_count)))
          as [b Hb]; [lia|].
        rewrite Hb. bind_step. split; [|eauto].
        split; [discriminate|]. lia.
      * bind_step. split; [|eauto]. split; [discriminate|]. lia.
Qed.

Lemma get_next_state_excess_hydrogens_witness :
  get_next_state initial_world "[CH4expl]" 1
  = Raise (ValueError ExcessHydrogens)
  ∧ ∃ fragment next_state,
      get_next_state initial_world "[CH3expl]" 1 = Ok (fragment, next_state).
Proof.
  split.
  - apply (get_next_state_excess_hydrogens
             initial_world "[CH4expl]" 1 "" "[CH4]" "C" 4 0 4);
      [discriminate|lia|reflexivity|reflexivity|].
    right. lia.
  - apply (get_next_state_excess_hydrogens
             initial_world "[CH3expl]" 1 "" "[CH3]" "C" 3 0 4);
      [discriminate|lia|reflexivity|reflexivity|].
    lia.
Defined.

(** ** Branch and ring symbols where there is no room *)

Lemma contains_nonempty sub s :
  sub ≠ "" → Py.contains sub s = true → s ≠ "".
Proof.
  intros Hsub Hin ->. destruct sub; [congruence|discriminate].
Qed.

(** C8. A branch symbol met in a state of at most 1 (its type being one of
    1, 2, 3, so that it is a branch symbol), and a ring symbol met in state
    0, take nothing from the stream, neither index symbols nor a body, and
    add nothing to the derived atoms, the branches or the rings; the state
    stays as it is, and the loop goes on with the next symbol of the
    stream, as if the symbol had not been there. *)
Theorem derive_body_no_room
    (self : gen → Z → list atom → Z → list (Z * Z) → list ring → result graph)
    (w : world) (curr_symbol : string) (selfies_gen : gen) (state : Z)
    (derived : list atom) (prev_idx : Z)
    (branches : list (Z * Z)) (rings : list ring) :
  (Py.contains "Branch" curr_symbol = true ∧ state ≤ 1
   ∧ ∃ X, branch_type_digit curr_symbol = Ok X ∧ 1 ≤ X ≤ 3)
  ∨ (Py.contains "Branch" curr_symbol = false
     ∧ Py.contains "Ring" curr_symbol = true ∧ state = 0) →
  derive_body self w curr_symbol selfies_gen state
              derived prev_idx branches rings
  = Ok (selfies_gen, state, derived, prev_idx, branches, rings)
  ∧ (0 ≤ state → ∀ fuel,
       derive_loop (S fuel) w curr_symbol selfies_gen state
                   derived prev_idx branches rings
       = _translate_selfies_derive fuel w selfies_gen state
                                   derived prev_idx branches rings).
Proof.
  intros Hcase.
  assert (Hbody : (∀ self', derive_body self' w curr_symbol selfies_gen state
                                          derived prev_idx branches rings
                  = Ok (selfies_gen, state, derived, prev_idx, branches, rings))
                  ∧ curr_symbol ≠ "").
  { destruct Hcase as [(Hbranch & Hstate & X & HX & Hrange)
                      |(Hbranch & Hring & ->)].
    - split; [|now apply (contains_nonempty "Branch")].
      intros self'. unfold derive_body. rewrite Hbranch.
      rewrite branch_type_digit_bind, HX. bind_step.
      rewrite (proj2 (Z.leb_le 1 X)), (proj2 (Z.leb_le X 3)) by lia.
      rewrite (proj2 (Z.leb_gt 2 state)) by lia. cbn [negb andb].
      now rewrite (proj2 (Z.leb_le state 1) Hstate).
    - split; [|now apply (contains_nonempty "Ring")].
      intros self'. unfold derive_body. now rewrite Hbranch, Hring. }
  destruct Hbody as [Hbody Hne]. split; [apply Hbody|].
  intros Hstate fuel. rewrite derive_loop_S.
  rewrite (proj2 (String.eqb_neq curr_symbol "") Hne).
  rewrite (proj2 (Z.leb_le 0 state) Hstate). cbn [negb andb].
  rewrite Hbody. reflexivity.
Qed.

Lemma derive_body_no_room_witness :
  let self := _translate_selfies_derive 2 initial_world in
  let stream := _parse_selfies_symbols ["[C]"; "[F]"] in
  derive_body self initial_world "[Branch1_2]" stream 1 [Atom "F" 1 (-1)] 0 [] []
  = Ok (stream, 1, [Atom "F" 1 (-1)], 0, [], [])
  ∧ derive_body self initial_world "[Ring1]" stream 0 [] (-1) [] []
    = Ok (stream, 0, [], -1, [], []).
Proof.
  intros self stream. split.
  - apply (derive_body_no_room self initial_world "[Branch1_2]" stream 1).
    left. split; [reflexivity|]. split; [lia|].
    exists 2. split; [reflexivity|lia].
  - apply (derive_body_no_room self initial_world "[Ring1]" stream 0).
    right. split; [reflexivity|]. split; reflexivity.
Defined.

(** With room, the same branch symbol takes its index symbol and its body
    from the stream. *)
Example derive_body_with_room :
  let self := _translate_selfies_derive 2 initial_world in
  let stream := _parse_selfies_symbols ["[C]"; "[F]"; "[O]"] in
  derive_body self initial_world "[Branch1_2]" stream 3 [Atom "C" 3 (-1)] 0 [] []
  = Ok (_parse_selfies_symbols ["[O]"], 1,
        [Atom "C" 2 (-1); Atom "F" (-1) 0], 0, [(1, 1)], []).
Proof. vm_compute. reflexivity. Qed.

(** ** Strings *)

Lemma len_nonneg s : 0 ≤ Py.len s.
Proof. unfold Py.len. lia. Qed.

Lemma length_app p s :
  String.length (p +:+ s) = (String.length p + String.length s)%nat.
Proof. induction p as [|a p IH]; simpl; [reflexivity|]. now rewrite IH. Qed.

Lemma len_app p s : Py.len (p +:+ s) = Py.len p + Py.len s.
Proof. unfold Py.len. rewrite length_app. lia. Qed.

Lemma drop_app p s n :
  Py.drop (String.length p + n) (p +:+ s) = Py.drop n s.
Proof. induction p as [|a p IH]; simpl; [reflexivity|exact IH]. Qed.

Lemma drop_app_Z p s i :
  0 ≤ i → Py.drop (Z.to_nat (Py.len p + i)) (p +:+ s) = Py.drop (Z.to_nat i) s.
Proof.
  intros Hi. unfold Py.len. rewrite Z2Nat.inj_add by lia.
  rewrite Nat2Z.id. apply drop_app.
Qed.

Lemma len_drop n s :
  (n ≤ String.length s)%nat → Py.len (Py.drop n s) = Py.len s - Z.of_nat n.
Proof.
  unfold Py.len. revert s. induction n as [|n IH]; intros s Hn; simpl.
  - lia.
  - destruct s as [|a s]; simpl in *; [lia|]. rewrite IH by lia. lia.
Qed.

Lemma index_from_range c s pos :
  Py.index_from c s pos = -1
  ∨ pos ≤ Py.index_from c s pos < pos + Py.len s.
Proof.
  unfold Py.len. revert pos. induction s as [|a s IH]; intros pos; simpl.
  - now left.
  - destruct (Ascii.eqb a c); [right; lia|].
    destruct (IH (pos + 1)) as [H|H]; [now left|right; lia].
Qed.

Lemma index_from_shift c s pos k :
  0 ≤ pos →
  Py.index_from c s (pos + k)
  = if Py.index_from c s pos =? -1 then -1 else Py.index_from c s pos + k.
Proof.
  revert pos. induction s as [|a s IH]; intros pos Hpos; simpl.
  - reflexivity.
  - destruct (Ascii.eqb a c).
    + now rewrite (proj2 (Z.eqb_neq pos (-1))) by lia.
    + replace (pos + k + 1) with (pos + 1 + k) by lia. apply IH. lia.
Qed.

Lemma index_from_absent c s pos :
  Py.contains (Py.str1 c) s = false → Py.index_from c s pos = -1.
Proof.
  revert pos. induction s as [|a s IH]; intros pos; simpl; [reflexivity|].
  rewrite (Ascii.eqb_sym a c).
  destruct (Ascii.eqb c a); simpl; [discriminate|]. intros H.
  apply IH. destruct s; exact H.
Qed.

Lemma index_from_skip c p s pos :
  Py.contains (Py.str1 c) p = false →
  Py.index_from c (p +:+ s) pos = Py.index_from c s (pos + Py.len p).
Proof.
  unfold Py.len. revert pos. induction p as [|a p IH]; intros pos; simpl.
  - intros _. f_equal. lia.
  - rewrite (Ascii.eqb_sym a c).
    destruct (Ascii.eqb c a); simpl; [discriminate|]. intros H.
    rewrite IH by (destruct p; exact H). f_equal. lia.
Qed.

Lemma slice_bound_app p s j :
  0 ≤ j →
  Py.slice_bound (Py.len (p +:+ s)) (Py.len p + j)
  = Py.len p + Py.slice_bound (Py.len s) j.
Proof.
  intros Hj. pose proof (len_nonneg p). unfold Py.slice_bound.
  rewrite len_app.
  rewrite (proj2 (Z.ltb_ge (Py.len p + j) 0)) by lia.
  rewrite (proj2 (Z.ltb_ge j 0)) by lia. lia.
Qed.

Lemma slice_bound_range n j : 0 ≤ n → 0 ≤ j → 0 ≤ Py.slice_bound n j ≤ n.
Proof.
  intros Hn Hj. unfold Py.slice_bound.
  rewrite (proj2 (Z.ltb_ge j 0)) by lia. lia.
Qed.

Lemma find_app p s c j :
  0 ≤ j →
  Py.find (p +:+ s) c (Py.len p + j)
  = if Py.find s c j =? -1 then -1 else Py.len p + Py.find s c j.
Proof.
  intros Hj. unfold Py.find. rewrite slice_bound_app by exact Hj.
  pose proof (slice_bound_range (Py.len s) j (len_nonneg s) Hj) as Ha.
  rewrite drop_app_Z by lia.
  rewrite (Z.add_comm (Py.len p)). rewrite index_from_shift by lia.
  destruct (_ =? -1); [reflexivity|lia].
Qed.

Lemma find_range s c j :
  0 ≤ j → Py.find s c j = -1 ∨ j ≤ Py.find s c j < Py.len s.
Proof.
  intros Hj. unfold Py.find.
  pose proof (slice_bound_range (Py.len s) j (len_nonneg s) Hj) as Ha.
  set (a := Py.slice_bound (Py.len s) j) in *.
  destruct (Z.le_gt_cases (Py.len s) j) as [Hout|Hin].
  - left. assert (a = Py.len s) as ->.
    { subst a. unfold Py.slice_bound.
      rewrite (proj2 (Z.ltb_ge j 0)) by lia. lia. }
    destruct (index_from_range c (Py.drop (Z.to_nat (Py.len s)) s) (Py.len s))
      as [H|H]; [exact H|].
    rewrite len_drop in H by (unfold Py.len; lia). lia.
  - assert (a = j) as ->.
    { subst a. unfold Py.slice_bound.
      rewrite (proj2 (Z.ltb_ge j 0)) by lia. lia. }
    destruct (index_from_range c (Py.drop (Z.to_nat j) s) j) as [H|H];
      [now left|right].
    rewrite len_drop in H by (unfold Py.len in *; lia). lia.
Qed.

Lemma getitem_app p s i :
  0 ≤ i → Py.getitem (p +:+ s) (Py.len p + i) = Py.getitem s i.
Proof.
  intros Hi. pose proof (len_nonneg p). unfold Py.getitem.
  rewrite (proj2 (Z.ltb_ge (Py.len p + i) 0)) by lia.
  rewrite (proj2 (Z.ltb_ge i 0)) by lia. cbv beta iota zeta.
  rewrite (proj2 (Z.ltb_ge (Py.len p + i) 0)) by lia.
  rewrite (proj2 (Z.ltb_ge i 0)) by lia.
  now rewrite drop_app_Z by exact Hi.
Qed.

Lemma getitem_total s i : Py.getitem s i ≠ OutOfFuel.
Proof.
  unfold Py.getitem. destruct (_ <? 0); [discriminate|].
  destruct (Py.drop _ s); discriminate.
Qed.

Lemma slice_app p s i j :
  0 ≤ i → 0 ≤ j →
  Py.slice (p +:+ s) (Some (Py.len p + i)) (Some (Py.len p + j))
  = Py.slice s (Some i) (Some j).
Proof.
  intros Hi Hj. unfold Py.slice. cbn [from_option].
  rewrite !slice_bound_app by assumption.
  pose proof (slice_bound_range (Py.len s) i (len_nonneg s) Hi).
  rewrite drop_app_Z by lia. f_equal. f_equal. lia.
Qed.

(** ** The symbol stream *)

Lemma parse_loop_stops fuel s i :
  (0 <=? i) && (i <? Py.len s) = false → parse_loop fuel s i = Gen [] (Ok ()).
Proof. intros H. destruct fuel; simpl; now rewrite H. Qed.

(** What is before the part of the string the loop reads does not count. *)
Lemma parse_loop_app fuel p s :
  ∀ i, 0 ≤ i →
    parse_loop fuel (p +:+ s) (Py.len p + i) = parse_loop fuel s i.
Proof.
  pose proof (len_nonneg p) as Hp.
  induction fuel as [|fuel IH]; intros i Hi; cbn [parse_loop];
    rewrite len_app;
    replace ((0 <=? Py.len p + i) && (Py.len p + i <? Py.len p + Py.len s))
      with ((0 <=? i) && (i <? Py.len s))
      by (destruct (Z.leb_spec 0 i), (Z.ltb_spec i (Py.len s)),
            (Z.leb_spec 0 (Py.len p + i)),
            (Z.ltb_spec (Py.len p + i) (Py.len p + Py.len s));
          simpl; lia || reflexivity);
    [reflexivity|].
  destruct ((0 <=? i) && (i <? Py.len s)); [|reflexivity].
  rewrite getitem_app by exact Hi.
  replace (Py.len p + i + 1) with (Py.len p + (i + 1)) by lia.
  rewrite find_app by lia.
  destruct (Py.getitem s i) as [c| |]; try reflexivity.
  destruct (find_range s "]" (i + 1)) as [Hnone|Hsome]; [lia| |].
  - rewrite Hnone. cbn [Z.eqb]. now rewrite !orb_true_r.
  - rewrite (proj2 (Z.eqb_neq (Py.find s "]" (i + 1)) (-1))) by lia.
    rewrite (proj2 (Z.eqb_neq (Py.len p + Py.find s "]" (i + 1)) (-1))) by lia.
    replace (Py.len p + Py.find s "]" (i + 1) + 1)
      with (Py.len p + (Py.find s "]" (i + 1) + 1)) by lia.
    rewrite slice_app by lia. rewrite IH by lia. reflexivity.
Qed.

(** More budget than the characters left changes nothing. *)
Lemma parse_loop_fuel s :
  ∀ fuel1 fuel2 i,
    0 ≤ i →
    (Z.to_nat (Py.len s - i) ≤ fuel1)%nat →
    (Z.to_nat (Py.len s - i) ≤ fuel2)%nat →
    parse_loop fuel1 s i = parse_loop fuel2 s i.
Proof.
  induction fuel1 as [|fuel1 IH]; intros fuel2 i Hi H1 H2.
  - rewrite !parse_loop_stops; [reflexivity| |];
      apply andb_false_iff; right; apply Z.ltb_ge; lia.
  - destruct (Z.ltb_spec i (Py.len s)) as [Hin|Hout].
    2:{ rewrite !parse_loop_stops; [reflexivity| |];
          apply andb_false_iff; right; apply Z.ltb_ge; lia. }
    destruct fuel2 as [|fuel2]; [lia|]. cbn [parse_loop].
    destruct ((0 <=? i) && (i <? Py.len s)); [|reflexivity].
    destruct (Py.getitem s i) as [c| |]; try reflexivity.
    destruct (find_range s "]" (i + 1)) as [Hnone|Hsome]; [lia| |].
    + rewrite Hnone. cbn [Z.eqb]. now rewrite !orb_true_r.
    + rewrite (IH fuel2 (Py.find s "]" (i + 1) + 1)) by lia. reflexivity.
Qed.

(** The budget of [_parse_selfies] is enough. *)
Lemma parse_loop_finishes s :
  ∀ fuel i,
    0 ≤ i → (Z.to_nat (Py.len s - i) ≤ fuel)%nat →
    ending (parse_loop fuel s i) ≠ OutOfFuel.
Proof.
  induction fuel as [|fuel IH]; intros i Hi Hfuel.
  - rewrite parse_loop_stops; [discriminate|].
    apply andb_false_iff; right; apply Z.ltb_ge; lia.
  - cbn [parse_loop].
    destruct ((0 <=? i) && (i <? Py.len s)) eqn:Hcond; [|discriminate].
    apply andb_true_iff in Hcond as [_ Hin%Z.ltb_lt].
    pose proof (getitem_total s i) as Htotal.
    destruct (Py.getitem s i) as [c| |]; [|discriminate|congruence].
    destruct (find_range s "]" (i + 1)) as [Hnone|Hsome]; [lia| |].
    + rewrite Hnone. cbn [Z.eqb]. rewrite orb_true_r. discriminate.
    + destruct (_ || _); [discriminate|].
      destruct (negb _); [cbn [yield ending]|]; apply IH; lia.
Qed.

Theorem _parse_selfies_finishes selfies :
  ending (_parse_selfies selfies) ≠ OutOfFuel.
Proof.
  unfold _parse_selfies.
  destruct (find_range selfies "[" 0) as [Hnone|Hsome]; [lia| |].
  - rewrite Hnone. rewrite parse_loop_stops by reflexivity. discriminate.
  - apply parse_loop_finishes; [lia|]. unfold Py.len in *. lia.
Qed.

Lemma find_from_start s c : Py.find s c 0 = Py.index_from c s 0.
Proof.
  unfold Py.find. pose proof (len_nonneg s).
  replace (Py.slice_bound (Py.len s) 0) with 0; [reflexivity|].
  unfold Py.slice_bound. cbn [Z.ltb Z.compare]. lia.
Qed.

Lemma _parse_selfies_no_bracket selfies :
  Py.contains "[" selfies = false → _parse_selfies selfies = Gen [] (Ok ()).
Proof.
  intros H. unfold _parse_selfies. rewrite find_from_start.
  rewrite (index_from_absent "[" selfies 0 H).
  now apply parse_loop_stops.
Qed.

Lemma _parse_selfies_skips_prefix prefix selfies :
  Py.contains "[" prefix = false →
  _parse_selfies (prefix +:+ selfies) = _parse_selfies selfies.
Proof.
  intros H. unfold _parse_selfies. rewrite !find_from_start.
  rewrite (index_from_skip "[" prefix selfies 0 H).
  rewrite (index_from_shift "[" selfies 0 (Py.len prefix)) by lia.
  rewrite <- find_from_start.
  destruct (find_range selfies "[" 0) as [Hnone|Hsome]; [lia| |].
  - rewrite Hnone. cbn [Z.eqb]. now rewrite !parse_loop_stops.
  - rewrite (proj2 (Z.eqb_neq (Py.find selfies "[" 0) (-1))) by lia.
    rewrite (Z.add_comm _ (Py.len prefix)). rewrite parse_loop_app by lia.
    apply parse_loop_fuel; [lia| |]; unfold Py.len in *;
      rewrite ?length_app; lia.
Qed.

(** ** Fragments without a bracket *)

Lemma contains_cons c a s :
  Py.contains (Py.str1 c) (String a s)
  = Ascii.eqb c a || Py.contains (Py.str1 c) s.
Proof. simpl. now rewrite andb_true_r. Qed.

Lemma split_no_bracket sep s :
  Py.contains "[" s = false →
  Forall (fun fragment => Py.contains "[" fragment = false) (Py.split sep s).
Proof.
  induction s as [|a s IH]; intros H.
  - repeat constructor.
  - change "[" with (Py.str1 "[") in *. rewrite contains_cons in H.
    apply orb_false_iff in H as [Ha Hs]. specialize (IH Hs).
    cbn [Py.split]. destruct (Ascii.eqb a sep).
    + constructor; [reflexivity|exact IH].
    + destruct (Py.split sep s) as [|h t].
      * constructor; [|constructor]. rewrite contains_cons, Ha. reflexivity.
      * inversion IH as [|? ? Hh Ht]; subst.
        constructor; [|exact Ht]. now rewrite contains_cons, Ha, Hh.
Qed.

Lemma _translate_selfies_no_bracket w selfies :
  Py.contains "[" selfies = false → _translate_selfies w selfies = Ok "".
Proof.
  intros H. unfold _translate_selfies.
  now rewrite (_parse_selfies_no_bracket selfies H).
Qed.

Lemma translate_fragments_no_bracket w fragments :
  Forall (fun fragment => Py.contains "[" fragment = false) fragments →
  ∀ all_smiles, translate_fragments w fragments all_smiles = Ok all_smiles.
Proof.
  induction 1 as [|s fragments Hs _ IH]; intros all_smiles; [reflexivity|].
  cbn [translate_fragments].
  rewrite (_translate_selfies_no_bracket w s Hs). bind_step. apply IH.
Qed.

(** C10. A string without '[' gives a stream without symbols; as a fragment
    it translates to the empty string with no error, and the decoder leaves
    the empty strings out of what it joins, so that it returns "" for the
    whole string, for "C" for instance. Characters in front of the first
    '[' of a fragment are passed over: the stream, and so the translation,
    are those of the fragment without them. *)
Theorem decoder_without_bracket (w : world) (selfies : string) :
  Py.contains "[" selfies = false →
  _parse_selfies selfies = Gen [] (Ok ())
  ∧ _translate_selfies w selfies = Ok ""
  ∧ fst (decoder selfies None w) = Ok (Some "")
  ∧ ∀ rest, _parse_selfies (selfies +:+ rest) = _parse_selfies rest
            ∧ _translate_selfies w (selfies +:+ rest)
              = _translate_selfies w rest.
Proof.
  intros H. split; [now apply _parse_selfies_no_bracket|].
  split; [now apply _translate_selfies_no_bracket|]. split.
  - unfold decoder. destruct (get_semantic_constraints w) as [old w1].
    cbn [apply_override restore_constraints].
    rewrite (translate_fragments_no_bracket w1 _ (split_no_bracket "." _ H)).
    reflexivity.
  - intros rest.
    pose proof (_parse_selfies_skips_prefix selfies rest H) as Hskip.
    split; [exact Hskip|]. unfold _translate_selfies. now rewrite Hskip.
Qed.

Lemma decoder_without_bracket_witness :
  fst (decoder "C" None initial_world) = Ok (Some "")
  ∧ _translate_selfies initial_world "C[O]" = _translate_selfies initial_world "[O]".
Proof.
  destruct (decoder_without_bracket initial_world "C" eq_refl)
    as (_ & _ & Hdec & Hrest).
  split; [exact Hdec|]. exact (proj2 (Hrest "[O]")).
Defined.

(** What the passing over amounts to: "C[O]" decodes to "O". *)
Example decoder_C_O : fst (decoder "C[O]" None initial_world) = Ok (Some "O").
Proof. vm_compute. reflexivity. Qed.

(** ** The budgets are enough *)

Lemma finishes_Ok {A} (r : result A) a : r = Ok a → finishes r.
Proof. intros ->. discriminate. Qed.

Lemma getitem_finishes s i : finishes (Py.getitem s i).
Proof. apply getitem_total. Qed.

Lemma position_finishes n i : finishes (Py.position n i).
Proof. unfold Py.position. finish. Qed.
#[local] Hint Resolve position_finishes getitem_finishes : finishes.

Lemma nth_finishes {A} (l : list A) i : finishes (Py.nth l i).
Proof. unfold Py.nth. finish. Qed.

Lemma update_finishes {A} (l : list A) i f : finishes (Py.update l i f).
Proof. unfold Py.update. finish. Qed.

Lemma int_digits_finishes s : ∀ acc, finishes (Py.int_digits acc s).
Proof. induction s as [|c s IH]; intros acc; cbn [Py.int_digits]; finish. Qed.
#[local] Hint Resolve nth_finishes update_finishes int_digits_finishes : finishes.

Lemma int_finishes s : finishes (Py.int s).
Proof. unfold Py.int. destruct s; finish. Qed.

Lemma scan_finishes p rest : ∀ i, finishes (scan p rest i).
Proof. induction rest as [|c rest IH]; intros i; cbn [scan]; finish. Qed.

Lemma sign_run_finishes rest : ∀ charge, finishes (sign_run rest charge).
Proof. induction rest as [|c rest IH]; intros q; cbn [sign_run]; finish. Qed.
#[local] Hint Resolve int_finishes scan_finishes sign_run_finishes : finishes.

Lemma skip_while_finishes p s i : finishes (skip_while p s i).
Proof. unfold skip_while. finish. Qed.
#[local] Hint Resolve skip_while_finishes : finishes.

Lemma find_element_finishes s : finishes (find_element s).
Proof. unfold find_element. finish. Qed.
#[local] Hint Resolve find_element_finishes : finishes.

Lemma parse_atom_symbol_finishes s : finishes (parse_atom_symbol s).
Proof. unfold parse_atom_symbol. finish. Qed.

Lemma get_bond_from_num_finishes n : finishes (get_bond_from_num n).
Proof. unfold get_bond_from_num. finish. Qed.

Lemma get_or_wildcard_finishes t k : finishes (get_or_wildcard t k).
Proof. unfold get_or_wildcard. finish. Qed.
#[local] Hint Resolve parse_atom_symbol_finishes get_bond_from_num_finishes
  get_or_wildcard_finishes : finishes.

Lemma get_next_state_finishes w symbol state :
  finishes (get_next_state w symbol state).
Proof. unfold get_next_state. finish. Qed.

Lemma get_next_branch_state_finishes symbol state :
  finishes (get_next_branch_state symbol state).
Proof. unfold get_next_branch_state. finish. Qed.
#[local] Hint Resolve get_next_state_finishes get_next_branch_state_finishes
  : finishes.

(** *** Streams *)

Lemma next_symbols_left g c g' :
  next g = Ok (c, g') →
  ending g' = ending g
  ∧ (real_symbols [c] + symbols_left g' = symbols_left g)%nat.
Proof.
  unfold next, symbols_left, real_symbols. destruct g as [[|x rest] e]; simpl.
  - destruct e as [[]| |]; simpl; try discriminate.
    intros [= <- <-]. split; reflexivity.
  - intros [= <- <-]. split; [reflexivity|].
    rewrite !filter_cons. destruct (decide (x ≠ "")); simpl; lia.
Qed.

Lemma next_finishes g : finishes (ending g) → finishes (next g).
Proof.
  unfold next, finishes. destruct g as [[|x rest] e]; simpl; [|discriminate].
  destruct e as [[]| |]; simpl; congruence.
Qed.

Lemma pull_symbols_left n :
  ∀ g l g', pull n g = Ok (l, g') →
    ending g' = ending g
    ∧ (real_symbols l + symbols_left g' = symbols_left g)%nat.
Proof.
  induction n as [|n IH]; intros g l g'; cbn [pull].
  - intros [= <- <-]. split; reflexivity.
  - destruct (next g) as [[x g1]| |] eqn:E1; try discriminate. bind_step.
    destruct (pull n g1) as [[l2 g2]| |] eqn:E2; try discriminate. bind_step.
    intros [= <- <-].
    destruct (next_symbols_left _ _ _ E1) as [He1 Hc1].
    destruct (IH _ _ _ E2) as [He2 Hc2].
    split; [congruence|]. unfold real_symbols in *.
    rewrite filter_cons. rewrite !filter_cons in Hc1.
    destruct (decide (x ≠ "")); simpl in *; lia.
Qed.

Lemma pull_finishes n : ∀ g, finishes (ending g) → finishes (pull n g).
Proof.
  induction n as [|n IH]; intros g Hg; cbn [pull]; [discriminate|].
  pose proof (next_finishes g Hg) as Hnext.
  destruct (next g) as [[x g1]| |] eqn:E1; [|discriminate|congruence].
  bind_step. destruct (next_symbols_left _ _ _ E1) as [He1 _].
  assert (Hg1 : finishes (ending g1)) by now rewrite He1.
  specialize (IH g1 Hg1).
  destruct (pull n g1) as [[l2 g2]| |]; [|discriminate|congruence].
  discriminate.
Qed.

Lemma symbols_left_branch_gen l :
  (symbols_left (_parse_selfies_symbols l) ≤ real_symbols l)%nat.
Proof.
  unfold symbols_left, real_symbols, _parse_selfies_symbols. cbn [pending].
  induction l as [|x l IH]; [reflexivity|].
  rewrite !filter_cons.
  destruct (decide (x ≠ "[nop]")), (decide (x ≠ "")); simpl;
    rewrite ?filter_cons; try destruct (decide (x ≠ "")); simpl; try lia;
    contradiction.
Qed.

(** *** Branches *)

Lemma od_get_elem (d : list (Z * Z)) k v : od_get k d = Some v → (k, v) ∈ d.
Proof.
  induction d as [|[k' v'] d IH]; simpl; [discriminate|].
  destruct (decide (k = k')) as [->|Hne].
  - intros [= ->]. left.
  - intros H. right. now apply IH.
Qed.

Lemma od_set_ok (d : list (Z * Z)) k v :
  k ≤ v → branches_ok d → branches_ok (od_set k v d).
Proof.
  unfold branches_ok. intros Hkv. induction 1 as [|[k' v'] d Hx Hd IH]; simpl.
  - constructor; [exact Hkv|constructor].
  - destruct (decide (k = k')); constructor; assumption.
Qed.

Lemma starts_from_le a b branches :
  a ≤ b → (starts_from b branches ≤ starts_from a branches)%nat.
Proof.
  intros Hab. unfold starts_from.
  induction branches as [|[k v] d IH]; [reflexivity|].
  rewrite !filter_cons. cbn [fst].
  destruct (decide (b ≤ k)), (decide (a ≤ k)); simpl; lia.
Qed.

Lemma starts_from_lt a b branches k v :
  (k, v) ∈ branches → a ≤ k → k < b →
  (starts_from b branches < starts_from a branches)%nat.
Proof.
  intros Hin Hak Hkb. unfold starts_from.
  induction branches as [|[k' v'] d IH]; [inversion Hin|].
  rewrite !filter_cons. cbn [fst].
  apply elem_of_cons in Hin as [[= <- <-]|Hin].
  - pose proof (starts_from_le a b d ltac:(lia)) as Hle.
    unfold starts_from in Hle.
    destruct (decide (b ≤ k)), (decide (a ≤ k)); simpl; lia.
  - specialize (IH Hin).
    destruct (decide (b ≤ k')), (decide (a ≤ k')); simpl; lia.
Qed.

Lemma skip_branches_finishes branches :
  branches_ok branches →
  ∀ fuel branch_start,
    (starts_from branch_start branches ≤ fuel)%nat →
    finishes (skip_branches fuel branches branch_start).
Proof.
  intros Hok. induction fuel as [|fuel IH]; intros bs Hfuel;
    cbn [skip_branches];
    destruct (od_get bs branches) as [e|] eqn:E; try discriminate;
    apply od_get_elem in E;
    assert (bs ≤ e)
      by (unfold branches_ok in Hok; rewrite Forall_forall in Hok;
          exact (Hok _ E));
    pose proof (starts_from_lt bs (e + 1) branches bs e E ltac:(lia) ltac:(lia)).
  - lia.
  - apply IH. lia.
Qed.

Lemma starts_from_length bs branches :
  (starts_from bs branches ≤ length branches)%nat.
Proof. unfold starts_from. apply length_filter. Qed.

(** *** The derivation *)

#[local] Hint Resolve pull_finishes next_finishes : finishes.

Lemma derive_body_total self w c g st d p b r fuel :
  (∀ g' i d' p' b' r',
     finishes (ending g') → branches_ok b' → (symbols_left g' ≤ fuel)%nat →
     walk_ok (self g' i d' p' b' r')) →
  finishes (ending g) → branches_ok b → (symbols_left g ≤ fuel)%nat →
  turn_ok g (derive_body self w c g st d p b r).
Proof.
  intros Hself Hg Hb Hfuel. unfold derive_body.
  destruct (Py.contains "Branch" c).
  - (* a branch symbol *)
    through_bind. split_tuples.
    destruct (st <=? 1); [cbn; auto|].
    do 2 through_bind.
    through_bind. split_tuples.
    match goal with H : pull _ g = Ok _ |- _ =>
      destruct (pull_symbols_left _ _ _ _ H) as [He1 Hc1] end.
    assert (finishes (ending g0)) by now rewrite He1.
    through_bind. split_tuples.
    match goal with H : pull _ g0 = Ok _ |- _ =>
      destruct (pull_symbols_left _ _ _ _ H) as [He2 Hc2] end.
    match goal with |- context [self ?bg ?i ?d' ?p' ?b' ?r'] =>
      pose proof (Hself bg i d' p' b' r') as Hcall;
      pose proof (symbols_left_branch_gen l0) as Hbg end.
    destruct (self _ _ _ _ _ _) as [[[d' b'] r']| |];
      [|exact I|apply Hcall; [discriminate|exact Hb|lia]].
    assert (Hb' : branches_ok b')
      by (apply Hcall; [discriminate|exact Hb|lia]).
    cbv beta iota delta [mbind result_bind].
    pose proof (skip_branches_finishes b' Hb' (length b')
                  (Z.of_nat (length d)) (starts_from_length _ _)) as Hskip.
    destruct (skip_branches _ _ _) as [bs| |]; [|exact I|congruence].
    cbn. split; [congruence|]. split; [lia|].
    destruct (Z.leb_spec bs (Z.of_nat (length d') - 1));
      [now apply od_set_ok|exact Hb'].
  - destruct (Py.contains "Ring" c).
    + (* a ring symbol *)
      destruct (st =? 0); [cbn; auto|].
      do 2 through_bind.
      through_bind. split_tuples.
      match goal with H : pull _ g = Ok _ |- _ =>
        destruct (pull_symbols_left _ _ _ _ H) as [He1 Hc1] end.
      through_bind. cbn. split; [exact He1|]. split; [lia|exact Hb].
    + (* an atom symbol *)
      through_bind. split_tuples.
      destruct (negb _); [|cbn; auto].
      through_bind. cbn. auto.
Qed.

Lemma derive_loop_total fuel w :
  ∀ c g st d p b r,
    finishes (ending g) → branches_ok b →
    (real_symbols [c] + symbols_left g ≤ fuel)%nat →
    walk_ok (derive_loop fuel w c g st d p b r).
Proof.
  induction fuel as [|fuel IH]; intros c g st d p b r Hg Hb Hfuel.
  - assert (c = "") as ->.
    { unfold real_symbols in Hfuel. rewrite filter_cons in Hfuel.
      destruct (decide (c ≠ "")) as [|Hc]; simpl in Hfuel; [lia|].
      now apply dec_stable in Hc. }
    exact Hb.
  - rewrite derive_loop_S.
    destruct (String.eqb_spec c "") as [->|Hc]; cbn [negb andb]; [exact Hb|].
    destruct (0 <=? st); [|exact Hb].
    assert (Hleft : (symbols_left g ≤ fuel)%nat).
    { unfold real_symbols in Hfuel. rewrite filter_cons in Hfuel.
      destruct (decide (c ≠ "")); simpl in Hfuel; [lia|contradiction]. }
    assert (Hself : ∀ g' i d' p' b' r',
      finishes (ending g') → branches_ok b' → (symbols_left g' ≤ fuel)%nat →
      walk_ok (_translate_selfies_derive fuel w g' i d' p' b' r')).
    { intros g' i d' p' b' r' Hg' Hb' Hf'. unfold _translate_selfies_derive.
      through_bind. split_tuples.
      match goal with H : next _ = Ok _ |- _ =>
        destruct (next_symbols_left _ _ _ H) as [He Hc'] end.
      apply IH; [now rewrite He|exact Hb'|lia]. }
    pose proof (derive_body_total _ w c g st d p b r fuel Hself Hg Hb Hleft)
      as Hturn.
    destruct (derive_body _ _ _ _ _ _ _ _ _)
      as [[[[[[g1 ns] d1] p1] b1] r1]| |]; [|exact I|contradiction].
    destruct Hturn as (He & Hle & Hb1).
    assert (finishes (ending g1)) by now rewrite He.
    through_bind. split_tuples.
    match goal with H : next _ = Ok _ |- _ =>
      destruct (next_symbols_left _ _ _ H) as [He' Hc'] end.
    apply IH; [now rewrite He'|exact Hb1|lia].
Qed.

(** *** Rings, branches and the decoder *)

Lemma resolve_ring_finishes acc r : finishes (resolve_ring acc r).
Proof.
  unfold resolve_ring. destruct acc as [derived ring_locs].
  destruct r as [[left_idx right_idx] bond_symbol]. finish.
Qed.
#[local] Hint Resolve resolve_ring_finishes : finishes.

Lemma resolve_rings_finishes rings : ∀ acc, finishes (resolve_rings acc rings).
Proof.
  induction rings as [|r rings IH]; intros acc; cbn [resolve_rings]; finish.
Qed.

Lemma add_rings_finishes ring_locs :
  ∀ ring_counter derived, finishes (add_rings ring_counter ring_locs derived).
Proof.
  induction ring_locs as [|[[l r] s] ring_locs IH]; intros n derived;
    cbn [add_rings]; finish.
Qed.
#[local] Hint Resolve resolve_rings_finishes add_rings_finishes : finishes.

Lemma _form_rings_bilocally_finishes derived rings :
  finishes (_form_rings_bilocally derived rings).
Proof. unfold _form_rings_bilocally. finish. Qed.

Lemma create_branches_finishes branches :
  ∀ derived, finishes (create_branches branches derived).
Proof.
  induction branches as [|[lb rb] branches IH]; intros derived;
    cbn [create_branches]; finish.
Qed.
#[local] Hint Resolve _form_rings_bilocally_finishes create_branches_finishes
  : finishes.

(** The budget [_translate_selfies] gives the derivation is enough. *)
Theorem _translate_selfies_finishes w selfies :
  finishes (_translate_selfies w selfies).
Proof.
  unfold _translate_selfies, _translate_selfies_derive.
  pose proof (_parse_selfies_finishes selfies) as Hg.
  set (g := _parse_selfies selfies) in *.
  pose proof (next_finishes g Hg) as Hnext.
  destruct (next g) as [[c g']| |] eqn:E; [|discriminate|congruence].
  bind_step. destruct (next_symbols_left _ _ _ E) as [He Hc].
  assert (Hwalk : walk_ok (derive_loop (length (pending g)) w c g' 0 [] (-1) [] [])).
  { apply derive_loop_total; [now rewrite He|constructor|].
    rewrite Hc. unfold symbols_left. apply length_filter. }
  destruct (derive_loop _ _ _ _ _ _ _ _ _) as [[[d b] r]| |];
    [|discriminate|contradiction].
  finish.
Qed.
#[local] Hint Resolve _translate_selfies_finishes : finishes.

Lemma translate_fragments_finishes w fragments :
  ∀ all_smiles, finishes (translate_fragments w fragments all_smiles).
Proof.
  induction fragments as [|s fragments IH]; intros all_smiles;
    cbn [translate_fragments]; finish.
Qed.

Lemma set_semantic_constraints_finishes c w :
  finishes (fst (set_semantic_constraints c w)).
Proof.
  unfold set_semantic_constraints. destruct c as [r|]; [|discriminate].
  repeat case_bool_decide; try discriminate;
    destruct (dict r w); discriminate.
Qed.

(** [decoder] returns or raises, on every string, with every override and
    in every state. *)
Theorem decoder_finishes selfies constraints w :
  finishes (fst (decoder selfies constraints w)).
Proof.
  unfold decoder. destruct (get_semantic_constraints w) as [old w1].
  assert (Hoverride : finishes (fst (apply_override constraints w1))).
  { unfold apply_override, get_octet_rule_constraints,
      get_hypervalent_constraints.
    destruct constraints as [name|]; [|discriminate].
    destruct (String.eqb name "octet_rule");
      [destruct (dict _ w1); apply set_semantic_constraints_finishes|].
    destruct (String.eqb name "hypervalent");
      [destruct (dict _ w1); apply set_semantic_constraints_finishes|].
    discriminate. }
  destruct (apply_override constraints w1) as [[[]| |] w2]; cbn [fst] in *;
    [|discriminate|contradiction].
  assert (Hrestore : ∀ w', finishes (fst (restore_constraints constraints old w'))).
  { intros w'. unfold restore_constraints.
    destruct constraints; [apply set_semantic_constraints_finishes|discriminate]. }
  pose proof (translate_fragments_finishes w2 (Py.split "." selfies) []) as Ht.
  destruct (translate_fragments _ _ _) as [l|e|]; [| |contradiction].
  - pose proof (Hrestore w2) as H2.
    destruct (restore_constraints constraints old w2) as [[[]|[v| |]|] w3] eqn:E;
      cbn [fst mbind result_bind] in *; try discriminate; try contradiction.
    pose proof (Hrestore w3) as H3.
    destruct (restore_constraints constraints old w3) as [[[]|e|] w4];
      cbn [fst mbind result_bind] in *; try discriminate; contradiction.
  - destruct e as [v| |]; cbn [fst]; try discriminate.
    pose proof (Hrestore w2) as H2.
    destruct (restore_constraints constraints old w2) as [[[]|e|] w3];
      cbn [fst mbind result_bind] in *; try discriminate; contradiction.
Qed.

(** * Further properties *)

(** ** The decoder and the active table *)

Lemma default_table_valid : valid_table default_table.
Proof.
  split; [eexists; reflexivity|].
  apply (bool_decide_unpack _). vm_compute. exact I.
Qed.

Lemma octet_rule_table_valid : valid_table octet_rule_table.
Proof.
  split; [eexists; reflexivity|].
  apply (bool_decide_unpack _). vm_compute. exact I.
Qed.

Lemma hypervalent_table_valid : valid_table hypervalent_table.
Proof.
  split; [eexists; reflexivity|].
  apply (bool_decide_unpack _). vm_compute. exact I.
Qed.

(** The decoder under an override whose preset passes the checks: what the
    [try] statement returns under the preset, and the state it leaves when
    it returns. *)
Lemma decoder_override_accepted selfies name w preset :
  world_ok w → valid_table (active_table w) →
  preset_of w name = Some preset → valid_table (deref w preset) →
  fst (decoder selfies (Some name) w)
  = decoded (translate_fragments (world_of (deref w preset))
                                 (Py.split "." selfies) []).
Proof.
  intros Hok Hvalid Hname Hpreset. unfold decoder, get_semantic_constraints.
  destruct (dict_spec w (_bond_constraints w) Hok)
    as (Hok1 & Hold & Hcopy & Hact1 & Hkeep1).
  assert (Hname1 : preset_of (snd (dict (_bond_constraints w) w)) name
                   = Some preset) by exact Hname.
  assert (Hp1 : live w preset).
  { unfold preset_of in Hname.
    destruct (String.eqb name "octet_rule");
      [injection Hname as <-; apply Hok|].
    destruct (String.eqb name "hypervalent"); [|discriminate].
    injection Hname as <-; apply Hok. }
  destruct (Hkeep1 preset Hp1) as [Hp1' Hderef1].
  destruct (dict (_bond_constraints w) w) as [old w1]. cbn [fst snd] in *.
  assert (Hover : ∃ w2, apply_override (Some name) w1 = (Ok (), w2)
                        ∧ world_ok w2 ∧ active_table w2 = deref w preset
                        ∧ live w2 old ∧ deref w2 old = active_table w).
  { unfold apply_override, get_octet_rule_constraints,
      get_hypervalent_constraints.
    assert (Hset : ∀ p, p = preset → live w1 p →
      ∃ w2, (let '(t, w') := dict p w1 in
             set_semantic_constraints (Some t) w') = (Ok (), w2)
            ∧ world_ok w2 ∧ active_table w2 = deref w preset
            ∧ live w2 old ∧ deref w2 old = active_table w).
    { intros p -> Hlive.
      destruct (dict_spec w1 preset Hok1) as (Hok2 & Hnew & Hcopy2 & _ & Hkeep2).
      destruct (dict preset w1) as [t w']. cbn [fst snd] in *.
      destruct (set_semantic_constraints_cases w' t Hok2 Hnew)
        as [(_ & Hr & Hok3 & Hact3 & Hkeep3)|[Hbad _]].
      - destruct (set_semantic_constraints (Some t) w') as [r w2].
        cbn [fst snd] in *. subst r. exists w2.
        destruct (Hkeep2 old Hold) as [Ho2 Ho2'].
        destruct (Hkeep3 old Ho2) as [Ho3 Ho3'].
        split; [reflexivity|]. split; [exact Hok3|]. split; [congruence|].
        split; [exact Ho3|]. unfold active_table. congruence.
      - exfalso. apply Hbad. rewrite Hcopy2, Hderef1. exact Hpreset. }
    unfold preset_of in Hname1.
    destruct (String.eqb name "octet_rule").
    - injection Hname1 as Hp. apply Hset; [exact Hp|apply Hok1].
    - destruct (String.eqb name "hypervalent"); [|discriminate].
      injection Hname1 as Hp. apply Hset; [exact Hp|apply Hok1]. }
  destruct Hover as (w2 & -> & Hok2 & Hact2 & Hold2 & Hderef2).
  assert (Hv2 : valid_table (deref w2 old)) by now rewrite Hderef2.
  destruct (restore_constraints_valid name w2 old Hok2 Hold2 Hv2)
    as (Hres & _ & _).
  destruct (restore_constraints (Some name) old w2) as [restored w3] eqn:Hrest.
  cbn [fst] in Hres. subst restored.
  assert (Ha : active_table w2 = active_table (world_of (deref w preset)))
    by exact Hact2.
  rewrite (translate_fragments_active _ _ _ Ha).
  destruct (translate_fragments _ _ _) as [l|[v| |]|];
    rewrite ?Hrest; reflexivity.
Qed.

(** X1. With a known override whose preset passes the checks, the decoder
    returns what it returns without an override in a state where the
    preset is the active table. *)
Theorem decoder_override_as_active (selfies name : string) (w w' : world)
    (preset : nat) :
  world_ok w → valid_table (active_table w) →
  preset_of w name = Some preset → valid_table (deref w preset) →
  world_ok w' → active_table w' = deref w preset →
  fst (decoder selfies (Some name) w) = fst (decoder selfies None w').
Proof.
  intros Hok Hvalid Hname Hpreset Hok' Hact'.
  rewrite (decoder_override_accepted _ _ _ _ Hok Hvalid Hname Hpreset).
  rewrite decoder_no_override by exact Hok'. cbn [fst]. now rewrite Hact'.
Qed.

Lemma decoder_override_as_active_witness :
  fst (decoder "[C][=S][=C]" (Some "octet_rule") initial_world)
  = fst (decoder "[C][=S][=C]" None (world_of octet_rule_table)).
Proof.
  apply (decoder_override_as_active "[C][=S][=C]" "octet_rule" initial_world
           (world_of octet_rule_table) 1%nat).
  - exact initial_world_ok.
  - exact default_table_valid.
  - reflexivity.
  - exact octet_rule_table_valid.
  - split; unfold live; simpl; lia.
  - reflexivity.
Defined.

(** X2. An override name other than the two presets makes the decoder raise
    the unrecognized-constraint [ValueError] before its [try], so that it
    reaches the caller; the active table is the one from before. *)
Theorem decoder_unknown_override (selfies name : string) (w : world) :
  world_ok w → preset_of w name = None →
  fst (decoder selfies (Some name) w)
  = Raise (ValueError UnrecognizedConstraintType)
  ∧ active_table (snd (decoder selfies (Some name) w)) = active_table w.
Proof.
  intros Hok Hname. unfold decoder, get_semantic_constraints.
  destruct (dict_spec w (_bond_constraints w) Hok) as (_ & _ & _ & Hact & _).
  destruct (dict (_bond_constraints w) w) as [old w1]. cbn [fst snd] in *.
  unfold apply_override. unfold preset_of in Hname.
  destruct (String.eqb name "octet_rule"); [discriminate|].
  destruct (String.eqb name "hypervalent"); [discriminate|].
  split; [reflexivity|exact Hact].
Qed.

Lemma decoder_unknown_override_witness :
  fst (decoder "[C]" (Some "octet") initial_world)
  = Raise (ValueError UnrecognizedConstraintType).
Proof.
  apply (decoder_unknown_override "[C]" "octet" initial_world);
    [exact initial_world_ok|reflexivity].
Defined.

(** X3. Whenever the decoder returns, with a SMILES or with [None], the
    table that was active before the call is active again, and a later call
    without an override returns what it would have returned before. *)
Theorem decoder_returns_restored (selfies selfies' : string)
    (constraints : option string) (w : world) (smiles : option string) :
  world_ok w → valid_table (active_table w) →
  fst (decoder selfies constraints w) = Ok smiles →
  active_table (snd (decoder selfies constraints w)) = active_table w
  ∧ fst (decoder selfies' None (snd (decoder selfies constraints w)))
    = fst (decoder selfies' None w).
Proof.
  intros Hok Hvalid Hret. split.
  - now apply (decoder_return_restores _ _ _ _ Hok Hvalid Hret).
  - exact (decoder_after_return _ _ _ _ _ Hok Hvalid Hret).
Qed.

Lemma decoder_returns_restored_witness :
  active_table (snd (decoder "[C][" (Some "hypervalent") initial_world))
  = default_table
  ∧ fst (decoder "[C][=S][=C]" None
           (snd (decoder "[C][" (Some "hypervalent") initial_world)))
    = fst (decoder "[C][=S][=C]" None initial_world).
Proof.
  apply (decoder_returns_restored "[C][" "[C][=S][=C]" (Some "hypervalent")
           initial_world None);
    [exact initial_world_ok|exact default_table_valid|reflexivity].
Defined.

(** X4. When an exception that is no [ValueError] leaves a decoder call
    with an override, the preset is still the active table afterwards:
    nothing on that way out puts the old table back. *)
Theorem decoder_escape_leaves_preset (selfies name : string) (w : world)
    (e : exn) :
  world_ok w → valid_table (active_table w) →
  fst (decoder selfies (Some name) w) = Raise e →
  (∀ why, e ≠ ValueError why) →
  ∃ preset, preset_of w name = Some preset
            ∧ active_table (snd (decoder selfies (Some name) w))
              = deref w preset.
Proof. apply decoder_escape_keeps_override. Qed.

Lemma decoder_escape_leaves_preset_witness :
  ∃ preset, preset_of initial_world "hypervalent" = Some preset
            ∧ active_table (snd (decoder "[C][]" (Some "hypervalent")
                                         initial_world))
              = deref initial_world preset.
Proof.
  apply (decoder_escape_leaves_preset "[C][]" "hypervalent" initial_world
           IndexError);
    [exact initial_world_ok|exact default_table_valid|reflexivity|].
  intros why. discriminate.
Defined.

(** X5. Without an override the decoder leaves the active table as it is
    on every outcome, lets no [ValueError] reach the caller, and its result
    depends on the state through the active table alone. *)
Theorem decoder_plain (selfies : string) (w w' : world) :
  world_ok w → world_ok w' → active_table w' = active_table w →
  active_table (snd (decoder selfies None w)) = active_table w
  ∧ (∀ why, fst (decoder selfies None w) ≠ Raise (ValueError why))
  ∧ fst (decoder selfies None w') = fst (decoder selfies None w).
Proof.
  intros Hok Hok' Hact. rewrite !decoder_no_override by assumption.
  cbn [fst snd]. split; [|split].
  - unfold get_semantic_constraints.
    now destruct (dict_spec w (_bond_constraints w) Hok) as (_ & _ & _ & ? & _).
  - intros why. unfold decoded.
    destruct (translate_fragments _ _ _) as [l|[v| |]|]; discriminate.
  - now rewrite Hact.
Qed.

Lemma decoder_plain_witness :
  active_table (snd (decoder "[C][" None initial_world)) = default_table
  ∧ (∀ why, fst (decoder "[C][" None initial_world) ≠ Raise (ValueError why))
  ∧ fst (decoder "[C][" None (world_of default_table))
    = fst (decoder "[C][" None initial_world).
Proof.
  apply (decoder_plain "[C][" initial_world (world_of default_table));
    [exact initial_world_ok| |reflexivity].
  split; unfold live; simpl; lia.
Defined.

(** X6. The decoder comes to an end on every string, with every override
    and in every state: each turn of the derivation loop and each call for
    a branch uses up a symbol of the stream, so that the budget of one unit
    for each symbol is never used up. *)
Theorem decoder_terminates (selfies : string) (constraints : option string)
    (w : world) :
  fst (decoder selfies constraints w) ≠ OutOfFuel
  ∧ ∀ fragment, _translate_selfies w fragment ≠ OutOfFuel.
Proof.
  split; [apply decoder_finishes|].
  intros fragment. apply _translate_selfies_finishes.
Qed.

(** ** The stream of a string and the stream of a list *)

Lemma append_cons x (a b : string) : String x a +:+ b = String x (a +:+ b).
Proof. reflexivity. Qed.

Lemma take_app p s : Py.take (String.length p) (p +:+ s) = p.
Proof.
  induction p as [|a p IH]; [now destruct s|].
  rewrite append_cons. cbn [String.length Py.take]. now rewrite IH.
Qed.

Lemma append_assoc (a b c : string) : (a +:+ b) +:+ c = a +:+ (b +:+ c).
Proof.
  induction a as [|x a IH]; [reflexivity|].
  rewrite !append_cons. now rewrite IH.
Qed.

Lemma append_empty_r (a : string) : a +:+ "" = a.
Proof.
  induction a as [|x a IH]; [reflexivity|].
  rewrite append_cons. now rewrite IH.
Qed.

(** One turn of the loop of [_parse_selfies] at the start of a symbol. *)
Lemma parse_loop_symbol fuel body rest :
  Py.contains "]" body = false →
  let symbol := "[" +:+ body +:+ "]" in
  parse_loop (S fuel) (symbol +:+ rest) 0
  = if negb (String.eqb symbol "[nop]")
    then yield symbol (parse_loop fuel rest 0)
    else parse_loop fuel rest 0.
Proof.
  intros Hbody symbol.
  assert (Hlen : Py.len symbol = Py.len body + 2).
  { subst symbol. change ("[" +:+ body +:+ "]") with (String "[" (body +:+ "]")).
    unfold Py.len. cbn [String.length]. rewrite length_app. simpl. lia. }
  pose proof (len_nonneg body) as Hb. pose proof (len_nonneg rest) as Hr.
  assert (Hfind : Py.find (symbol +:+ rest) "]" (0 + 1) = Py.len body + 1).
  { unfold Py.find. rewrite len_app, Hlen.
    replace (Py.slice_bound (Py.len body + 2 + Py.len rest) (0 + 1)) with 1
      by (unfold Py.slice_bound; simpl; lia).
    subst symbol. change (Py.drop (Z.to_nat 1) (("[" +:+ body +:+ "]") +:+ rest))
      with ((body +:+ "]") +:+ rest).
    rewrite append_assoc.
    rewrite (index_from_skip "]" body ("]" +:+ rest) 1 Hbody).
    simpl. lia. }
  cbn [parse_loop]. rewrite Hfind.
  rewrite len_app, Hlen.
  rewrite (proj2 (Z.leb_le 0 0)) by lia.
  rewrite (proj2 (Z.ltb_lt 0 (Py.len body + 2 + Py.len rest))) by lia.
  cbn [andb].
  replace (Py.getitem (symbol +:+ rest) 0) with (Ok "["%char : result ascii)
    by reflexivity.
  rewrite (proj2 (Z.eqb_neq (Py.len body + 1) (-1))) by lia.
  cbn [Ascii.eqb Bool.eqb negb orb andb].
  assert (Hslice : Py.slice (symbol +:+ rest) (Some 0) (Some (Py.len body + 1 + 1))
                   = symbol).
  { unfold Py.slice. cbn [from_option]. rewrite len_app, Hlen.
    unfold Py.slice_bound.
    rewrite (proj2 (Z.ltb_ge 0 0)) by lia.
    rewrite (proj2 (Z.ltb_ge (Py.len body + 1 + 1) 0)) by lia.
    replace (Z.min 0 (Py.len body + 2 + Py.len rest)) with 0 by lia.
    replace (Z.to_nat (Z.min (Py.len body + 1 + 1)
                             (Py.len body + 2 + Py.len rest) - 0))
      with (String.length symbol) by (unfold Py.len in *; lia).
    cbn [Z.to_nat Py.drop]. apply take_app. }
  rewrite Hslice.
  replace (Py.len body + 1 + 1) with (Py.len symbol + 0) by lia.
  rewrite parse_loop_app by lia. reflexivity.
Qed.

Lemma parse_loop_concat symbols :
  Forall bracketed symbols →
  ∀ fuel, (String.length (concat_symbols symbols) ≤ fuel)%nat →
    parse_loop fuel (concat_symbols symbols) 0 = _parse_selfies_symbols symbols.
Proof.
  induction 1 as [|symbol symbols (body & -> & Hbody) _ IH]; intros fuel Hfuel.
  - now apply parse_loop_stops.
  - cbn [concat_symbols foldr] in *. fold (concat_symbols symbols) in *.
    rewrite length_app in Hfuel.
    destruct fuel as [|fuel];
      [change ("[" +:+ body +:+ "]") with (String "[" (body +:+ "]")) in Hfuel;
       simpl in Hfuel; lia|].
    rewrite (parse_loop_symbol fuel body _ Hbody). cbv zeta.
    rewrite IH
      by (change ("[" +:+ body +:+ "]") with (String "[" (body +:+ "]")) in Hfuel;
          simpl in Hfuel; lia).
    unfold _parse_selfies_symbols, yield. cbn [pending ending].
    rewrite filter_cons.
    destruct (String.eqb_spec ("[" +:+ body +:+ "]") "[nop]") as [E|E];
      cbn [negb]; destruct (decide (_ ≠ "[nop]")); try reflexivity;
      contradiction.
Qed.

Lemma _parse_selfies_concat symbols :
  Forall bracketed symbols →
  _parse_selfies (concat_symbols symbols) = _parse_selfies_symbols symbols.
Proof.
  intros Hsymbols. unfold _parse_selfies.
  destruct Hsymbols as [|symbol symbols (body & -> & Hbody) Hrest].
  - reflexivity.
  - replace (Py.find (concat_symbols (("[" +:+ body +:+ "]") :: symbols)) "[" 0)
      with 0 by reflexivity.
    apply parse_loop_concat; [|reflexivity].
    constructor; [now exists body|exact Hrest].
Qed.

(** X7. [_parse_selfies_symbols] is to a list of symbols what
    [_parse_selfies] is to their concatenation: when each symbol is an
    opening bracket, a text without closing bracket and a closing bracket,
    the two streams are the same. *)
Theorem _parse_selfies_of_symbols (symbols : list string) :
  Forall bracketed symbols →
  _parse_selfies (concat_symbols symbols) = _parse_selfies_symbols symbols.
Proof. exact (_parse_selfies_concat symbols). Qed.

Lemma _parse_selfies_of_symbols_witness :
  _parse_selfies (concat_symbols ["[C]"; "[nop]"; "[=O]"])
  = _parse_selfies_symbols ["[C]"; "[nop]"; "[=O]"].
Proof.
  apply (_parse_selfies_of_symbols ["[C]"; "[nop]"; "[=O]"]).
  repeat constructor; [exists "C"|exists "nop"|exists "=O"];
    split; reflexivity.
Defined.

(** ** A bracket that is not closed *)

Lemma index_from_present c s pos :
  Py.contains (Py.str1 c) s = true → Py.index_from c s pos ≠ -1 ∨ pos < 0.
Proof.
  revert pos. induction s as [|a s IH]; intros pos; [discriminate|].
  rewrite contains_cons. cbn [Py.index_from]. rewrite (Ascii.eqb_sym a c).
  destruct (Ascii.eqb c a); cbn [orb].
  - intros _. destruct (Z.eq_dec pos (-1)); [right; lia|now left].
  - intros H. destruct (IH (pos + 1) H) as [Hne|Hneg]; [now left|].
    destruct (index_from_range c s (pos + 1)) as [Hnone|Hsome].
    + right. lia.
    + right. lia.
Qed.

Lemma index_from_char c s :
  ∀ pos, 0 ≤ pos → Py.index_from c s pos ≠ -1 →
    ∃ rest, Py.drop (Z.to_nat (Py.index_from c s pos - pos)) s = String c rest.
Proof.
  induction s as [|a s IH]; intros pos Hpos; cbn [Py.index_from];
    [congruence|].
  destruct (Ascii.eqb_spec a c) as [->|Hne].
  - intros _. rewrite Z.sub_diag. now exists s.
  - intros Hfound. destruct (IH (pos + 1) ltac:(lia) Hfound) as [rest Hrest].
    exists rest.
    destruct (index_from_range c s (pos + 1)) as [Hnone|Hsome]; [congruence|].
    replace (Z.to_nat (Py.index_from c s (pos + 1) - pos))
      with (S (Z.to_nat (Py.index_from c s (pos + 1) - (pos + 1)))) by lia.
    exact Hrest.
Qed.

Lemma contains_drop c n : ∀ s,
  Py.contains (Py.str1 c) s = false →
  Py.contains (Py.str1 c) (Py.drop n s) = false.
Proof.
  induction n as [|n IH]; intros s H; [exact H|].
  destruct s as [|a s]; [reflexivity|]. cbn [Py.drop].
  rewrite contains_cons in H. apply orb_false_iff in H as [_ H]. now apply IH.
Qed.

Lemma find_absent s c j :
  Py.contains (Py.str1 c) s = false → Py.find s c j = -1.
Proof.
  intros H. unfold Py.find. apply index_from_absent. now apply contains_drop.
Qed.

(** The stream of a fragment with an opening bracket and no closing one
    raises at the first pull. *)
Lemma _parse_selfies_unclosed selfies :
  Py.contains "[" selfies = true → Py.contains "]" selfies = false →
  _parse_selfies selfies = Gen [] (Raise (ValueError MalformedBrackets)).
Proof.
  intros Hopen Hclose. unfold _parse_selfies. rewrite find_from_start.
  destruct (index_from_present "[" selfies 0 Hopen) as [Hfound|]; [|lia].
  destruct (index_from_range "[" selfies 0) as [|Hrange]; [congruence|].
  destruct (index_from_char "[" selfies 0 ltac:(lia) Hfound) as [rest Hrest].
  rewrite Z.sub_0_r in Hrest.
  set (i := Py.index_from "[" selfies 0) in *.
  assert (Hlen : (0 < String.length selfies)%nat) by (unfold Py.len in *; lia).
  destruct (String.length selfies) as [|fuel] eqn:E; [lia|].
  cbn [parse_loop].
  rewrite (proj2 (Z.leb_le 0 i)) by lia.
  rewrite (proj2 (Z.ltb_lt i (Py.len selfies))) by lia. cbn [andb].
  rewrite (find_absent selfies "]" (i + 1) Hclose).
  assert (Hget : Py.getitem selfies i = Ok "["%char).
  { unfold Py.getitem. rewrite (proj2 (Z.ltb_ge i 0)) by lia.
    cbv beta iota zeta. rewrite (proj2 (Z.ltb_ge i 0)) by lia.
    now rewrite Hrest. }
  rewrite Hget. reflexivity.
Qed.

Lemma _translate_selfies_unclosed w selfies :
  Py.contains "[" selfies = true → Py.contains "]" selfies = false →
  _translate_selfies w selfies = Raise (ValueError MalformedBrackets).
Proof.
  intros Hopen Hclose. unfold _translate_selfies.
  now rewrite (_parse_selfies_unclosed selfies Hopen Hclose).
Qed.

Lemma split_without c sep s :
  Py.contains (Py.str1 c) s = false →
  Forall (fun fragment => Py.contains (Py.str1 c) fragment = false)
         (Py.split sep s).
Proof.
  induction s as [|a s IH]; intros H.
  - repeat constructor.
  - rewrite contains_cons in H.
    apply orb_false_iff in H as [Ha Hs]. specialize (IH Hs).
    cbn [Py.split]. destruct (Ascii.eqb a sep).
    + constructor; [reflexivity|exact IH].
    + destruct (Py.split sep s) as [|h t].
      * constructor; [|constructor]. rewrite contains_cons, Ha. reflexivity.
      * inversion IH as [|? ? Hh Ht]; subst.
        constructor; [|exact Ht]. now rewrite contains_cons, Ha, Hh.
Qed.

Lemma split_with c sep s :
  c ≠ sep → Py.contains (Py.str1 c) s = true →
  Exists (fun fragment => Py.contains (Py.str1 c) fragment = true)
         (Py.split sep s).
Proof.
  intros Hsep. induction s as [|a s IH]; intros H; [discriminate|].
  rewrite contains_cons in H. cbn [Py.split].
  destruct (Ascii.eqb_spec a sep) as [->|Hne].
  - rewrite (proj2 (Ascii.eqb_neq c sep) Hsep) in H. cbn [orb] in H.
    right. now apply IH.
  - destruct (Ascii.eqb c a) eqn:Eca; cbn [orb] in H.
    + destruct (Py.split sep s) as [|h t]; left;
        rewrite contains_cons, Eca; reflexivity.
    + specialize (IH H). destruct (Py.split sep s) as [|h t];
        [inversion IH|].
      inversion IH as [? ? Hh|? ? Ht]; subst.
      * left. rewrite contains_cons, Hh. now rewrite orb_true_r.
      * now right.
Qed.

Lemma translate_fragments_unclosed w fragments :
  Forall (fun fragment => Py.contains "]" fragment = false) fragments →
  Exists (fun fragment => Py.contains "[" fragment = true) fragments →
  ∀ all_smiles,
    translate_fragments w fragments all_smiles
    = Raise (ValueError MalformedBrackets).
Proof.
  induction 1 as [|s fragments Hclose Hrest IH]; intros Hopen all_smiles;
    [inversion Hopen|].
  cbn [translate_fragments].
  destruct (Py.contains "[" s) eqn:Hs.
  - now rewrite (_translate_selfies_unclosed w s Hs Hclose).
  - rewrite (_translate_selfies_no_bracket w s Hs). bind_step.
    apply IH. inversion Hopen as [? ? Hhead|? ? Htail]; subst;
      [congruence|exact Htail].
Qed.

(** X8. A string with an opening bracket and no closing bracket at all is
    malformed wherever the bracket is and whatever the dots: the stream of
    the first fragment that has the bracket raises the [ValueError] for
    misplaced or missing brackets, and the decoder returns [None]. *)
Theorem decoder_unclosed_bracket (selfies : string) (w : world) :
  Py.contains "[" selfies = true → Py.contains "]" selfies = false →
  fst (decoder selfies None w) = Ok None.
Proof.
  intros Hopen Hclose. unfold decoder.
  destruct (get_semantic_constraints w) as [old w1].
  cbn [apply_override restore_constraints].
  rewrite (translate_fragments_unclosed w1 (Py.split "." selfies)).
  - reflexivity.
  - now apply (split_without "]").
  - apply (split_with "["); [discriminate|exact Hopen].
Qed.

Lemma decoder_unclosed_bracket_witness :
  fst (decoder "C.[C.O" None initial_world) = Ok None.
Proof.
  apply (decoder_unclosed_bracket "C.[C.O" initial_world); reflexivity.
Defined.

(** ** More on the index code *)

Lemma index_digit_range symbol : 0 ≤ index_digit symbol < 16.
Proof.
  unfold index_digit. destruct (_alphabet_code !! symbol) as [d|] eqn:E;
    cbn [default from_option id]; [|lia].
  assert (H : map_Forall (fun _ d => 0 ≤ d < 16) _alphabet_code).
  { apply (bool_decide_unpack _). vm_compute. exact I. }
  exact (H _ _ E).
Qed.

Lemma n_from_reversed_app a : ∀ b i,
  n_from_reversed i (a ++ b)
  = n_from_reversed i a + n_from_reversed (i + Z.of_nat (length a)) b.
Proof.
  induction a as [|c a IH]; intros b i.
  - cbn [app n_from_reversed]. change (Z.of_nat (length [])) with 0.
    now rewrite Z.add_0_r.
  - cbn [app length n_from_reversed]. rewrite IH.
    replace (i + 1 + Z.of_nat (length a)) with (i + Z.of_nat (S (length a)))
      by lia.
    lia.
Qed.

Lemma n_from_reversed_bound l : ∀ i, 0 ≤ i →
  0 ≤ n_from_reversed i l ≤ 16 ^ (i + Z.of_nat (length l)) - 16 ^ i.
Proof.
  induction l as [|c l IH]; intros i Hi; cbn [n_from_reversed length].
  - rewrite Z.add_0_r. lia.
  - specialize (IH (i + 1) ltac:(lia)).
    fold (index_digit c). pose proof (index_digit_range c) as Hd.
    rewrite alphabet_base.
    replace (i + Z.of_nat (S (length l))) with (i + 1 + Z.of_nat (length l))
      by lia.
    assert (Hp : 16 ^ (i + 1) = 16 * 16 ^ i)
      by (rewrite Z.pow_add_r by lia; lia).
    assert (0 < 16 ^ i) by (apply Z.pow_pos_nonneg; lia).
    nia.
Qed.

(** X9. [get_n_from_symbols] reads its symbols as the digits of a number in
    base 16, the first symbol being the most significant and a symbol
    outside the alphabet counting as 0; so the value of [n] symbols is at
    least 0 and below [16^n]. *)
Theorem get_n_from_symbols_positional (symbol : string) (symbols : list string) :
  get_n_from_symbols [] = 0
  ∧ get_n_from_symbols (symbol :: symbols)
    = index_digit symbol * 16 ^ Z.of_nat (length symbols)
      + get_n_from_symbols symbols
  ∧ 0 ≤ get_n_from_symbols symbols < 16 ^ Z.of_nat (length symbols).
Proof.
  split; [reflexivity|]. split.
  - unfold get_n_from_symbols. rewrite reverse_cons, n_from_reversed_app.
    rewrite length_reverse. cbn [n_from_reversed]. rewrite alphabet_base.
    unfold index_digit. rewrite Z.add_0_l. lia.
  - unfold get_n_from_symbols.
    pose proof (n_from_reversed_bound (reverse symbols) 0 ltac:(lia)) as H.
    rewrite length_reverse, Z.add_0_l, Z.pow_0_r in H. lia.
Qed.

Lemma alphabet_symbol (c : string) :
  c ∈ _index_alphabet →
  Py.nth _index_alphabet (index_digit c) = Ok c
  ∧ (index_digit c = 0 → c = "[C]").
Proof.
  unfold _index_alphabet. rewrite !elem_of_cons, elem_of_nil. intros H.
  repeat (destruct H as [->|H]); [..|contradiction];
    (split; [reflexivity|]); vm_compute; (reflexivity || discriminate).
Qed.

(** The value of digits written the last one first. *)
Lemma n_from_reversed_scale l : ∀ i, 0 ≤ i →
  n_from_reversed i l = 16 ^ i * n_from_reversed 0 l.
Proof.
  induction l as [|c l IH]; intros i Hi; cbn [n_from_reversed].
  - lia.
  - rewrite (IH (i + 1)) by lia. rewrite (IH (0 + 1)) by lia.
    rewrite alphabet_base. rewrite Z.pow_add_r by lia.
    cbn [Z.add]. rewrite Z.pow_0_r, Z.pow_1_r. lia.
Qed.

Lemma n_from_reversed_positive l :
  l ≠ [] → last l ≠ Some "[C]" →
  Forall (fun symbol => symbol ∈ _index_alphabet) l →
  0 < n_from_reversed 0 l.
Proof.
  induction l as [|c l IH]; intros Hne Hlast Hall; [congruence|].
  inversion Hall as [|? ? Hc Hl]; subst. cbn [n_from_reversed].
  rewrite alphabet_base, Z.pow_0_r.
  fold (index_digit c). pose proof (index_digit_range c) as Hd.
  rewrite (n_from_reversed_scale l (0 + 1)) by lia. cbn [Z.add].
  rewrite Z.pow_1_r.
  destruct l as [|c' l'].
  - cbn [n_from_reversed].
    destruct (Z.eq_dec (index_digit c) 0) as [E|E]; [|lia].
    destruct (alphabet_symbol c Hc) as [_ Hzero].
    rewrite (Hzero E) in Hlast. now destruct Hlast.
  - assert (0 < n_from_reversed 0 (c' :: l')).
    { apply IH; [discriminate| |exact Hl].
      rewrite last_cons_cons in Hlast. exact Hlast. }
    lia.
Qed.

Lemma symbols_loop_canonical l :
  ∀ fuel symbols,
    (l = [] ∨ last l ≠ Some "[C]") →
    Forall (fun symbol => symbol ∈ _index_alphabet) l →
    (Z.to_nat (n_from_reversed 0 l) ≤ fuel)%nat →
    symbols_loop fuel (n_from_reversed 0 l) symbols = Ok (symbols ++ l).
Proof.
  induction l as [|c l IH]; intros fuel symbols Hlast Hall Hfuel.
  - destruct fuel; cbn; now rewrite app_nil_r.
  - destruct Hlast as [|Hlast]; [discriminate|].
    pose proof (n_from_reversed_positive (c :: l) ltac:(discriminate) Hlast Hall)
      as Hpos.
    inversion Hall as [|? ? Hc Hl]; subst.
    destruct (alphabet_symbol c Hc) as [Hnth _].
    pose proof (index_digit_range c) as Hd.
    assert (Hval : n_from_reversed 0 (c :: l)
                   = index_digit c + 16 * n_from_reversed 0 l).
    { cbn [n_from_reversed]. rewrite alphabet_base, Z.pow_0_r.
      rewrite (n_from_reversed_scale l (0 + 1)) by lia. cbn [Z.add].
      rewrite Z.pow_1_r. unfold index_digit. lia. }
    rewrite Hval in *.
    destruct fuel as [|fuel]; [lia|]. cbn [symbols_loop].
    rewrite (proj2 (Z.eqb_neq _ 0)) by lia.
    change (Z.of_nat (length _index_alphabet)) with 16.
    assert (Hrest : 0 ≤ n_from_reversed 0 l).
    { pose proof (n_from_reversed_bound l 0 ltac:(lia)). lia. }
    replace ((index_digit c + 16 * n_from_reversed 0 l) mod 16)
      with (index_digit c)
      by (apply (Z.mod_unique _ 16 (n_from_reversed 0 l)); [left|]; lia).
    replace ((index_digit c + 16 * n_from_reversed 0 l) / 16)
      with (n_from_reversed 0 l)
      by (apply (Z.div_unique _ 16 _ (index_digit c)); [left|]; lia).
    rewrite Hnth. bind_step. rewrite IH.
    + now rewrite <- app_assoc.
    + destruct l as [|c' l']; [now left|right].
      rewrite last_cons_cons in Hlast. exact Hlast.
    + exact Hl.
    + lia.
Qed.

(** X10. On the lists it produces itself, [get_symbols_from_n] undoes
    [get_n_from_symbols]: for a non-empty list of symbols of the index
    alphabet that does not start with the zero digit "[C]", or is "[C]"
    alone, the symbols of its value are the list again. *)
Theorem index_symbols_round_trip (symbols : list string) :
  canonical_index symbols →
  get_symbols_from_n (get_n_from_symbols symbols) = Ok symbols.
Proof.
  intros (Hne & Hall & [Hhead| ->]); [|reflexivity].
  unfold get_n_from_symbols, get_symbols_from_n.
  assert (Hall' : Forall (fun s => s ∈ _index_alphabet) (reverse symbols))
    by now apply Forall_reverse.
  assert (Hlast : last (reverse symbols) ≠ Some "[C]")
    by now rewrite last_reverse.
  assert (Hne' : reverse symbols ≠ []).
  { intros E. apply Hne. apply (f_equal reverse) in E.
    now rewrite reverse_involutive in E. }
  pose proof (n_from_reversed_positive _ Hne' Hlast Hall') as Hpos.
  rewrite (proj2 (Z.eqb_neq _ 0)) by lia.
  rewrite symbols_loop_canonical; [|now right|exact Hall'|reflexivity].
  cbn [app]. bind_step. now rewrite reverse_involutive.
Qed.

Lemma index_symbols_round_trip_witness :
  get_symbols_from_n (get_n_from_symbols ["[Ring1]"; "[C]"; "[P]"])
  = Ok ["[Ring1]"; "[C]"; "[P]"].
Proof.
  apply (index_symbols_round_trip ["[Ring1]"; "[C]"; "[P]"]).
  split; [discriminate|]. split.
  - repeat constructor.
  - left. discriminate.
Defined.

Lemma alphabet_digit_elem (d : Z) :
  0 ≤ d < 16 → ∃ c, Py.nth _index_alphabet d = Ok c ∧ c ∈ _index_alphabet.
Proof.
  intros Hd.
  assert (d = 0 ∨ d = 1 ∨ d = 2 ∨ d = 3 ∨ d = 4 ∨ d = 5 ∨ d = 6 ∨ d = 7
          ∨ d = 8 ∨ d = 9 ∨ d = 10 ∨ d = 11 ∨ d = 12 ∨ d = 13 ∨ d = 14
          ∨ d = 15) as Hcases by lia.
  repeat (destruct Hcases as [->|Hcases]);
    [..|subst d]; eexists; (split; [reflexivity|]);
    unfold _index_alphabet; rewrite !elem_of_cons; tauto.
Qed.

Lemma symbols_loop_length fuel :
  ∀ n symbols (k : nat), 0 ≤ n < 16 ^ Z.of_nat k → (Z.to_nat n ≤ fuel)%nat →
    ∃ digits, symbols_loop fuel n symbols = Ok (symbols ++ digits)
              ∧ (length digits ≤ k)%nat
              ∧ (0 < n → digits ≠ [])
              ∧ Forall (fun symbol => symbol ∈ _index_alphabet) digits.
Proof.
  induction fuel as [|fuel IH]; intros n symbols k Hn Hfuel.
  - assert (n = 0) as -> by lia. exists []. cbn. rewrite app_nil_r.
    repeat split; [lia|lia|constructor].
  - destruct (Z.eqb_spec n 0) as [->|Hpos].
    + exists []. cbn. rewrite app_nil_r. repeat split; [lia|lia|constructor].
    + cbn [symbols_loop]. rewrite (proj2 (Z.eqb_neq n 0) Hpos).
      change (Z.of_nat (length _index_alphabet)) with 16.
      destruct (alphabet_digit_elem (n mod 16)) as (c & Hc & Hin).
      { apply Z.mod_pos_bound. lia. }
      rewrite Hc. bind_step.
      destruct k as [|k]; [cbn in Hn; lia|].
      destruct (IH (n / 16) (symbols ++ [c]) k) as (digits & Hloop & Hlen & _ & Hall).
      { split; [apply Z.div_pos; lia|].
        apply Z.div_lt_upper_bound; [lia|].
        rewrite Nat2Z.inj_succ, Z.pow_succ_r in Hn by lia. lia. }
      { assert (n / 16 < n) by (apply Z.div_lt; lia). lia. }
      exists (c :: digits). rewrite Hloop, <- app_assoc.
      repeat split; [cbn [length]; lia|discriminate|now constructor].
Qed.

(** X11. A number from 0 to [16^k - 1], for [k >= 1], is written by
    [get_symbols_from_n] with at least one and at most [k] symbols, all of
    them of the index alphabet; so the numbers up to 4095 take at most the
    three index symbols that a branch or ring symbol can announce. *)
Theorem get_symbols_from_n_length (n : Z) (k : nat) :
  (1 ≤ k)%nat → 0 ≤ n < 16 ^ Z.of_nat k →
  ∃ symbols, get_symbols_from_n n = Ok symbols
             ∧ (1 ≤ length symbols ≤ k)%nat
             ∧ Forall (fun symbol => symbol ∈ _index_alphabet) symbols.
Proof.
  intros Hk Hn. unfold get_symbols_from_n.
  destruct (Z.eqb_spec n 0) as [->|Hpos].
  - exists ["[C]"]. split; [reflexivity|]. split; [cbn [length]; lia|].
    repeat constructor.
  - destruct (symbols_loop_length (Z.to_nat n) n [] k Hn (le_n _))
      as (digits & Hloop & Hlen & Hne & Hall).
    rewrite Hloop. cbn [app]. bind_step. exists (reverse digits).
    split; [reflexivity|]. rewrite length_reverse. split.
    + specialize (Hne ltac:(lia)). destruct digits; [congruence|].
      cbn [length] in *. lia.
    + now apply Forall_reverse.
Qed.

Lemma get_symbols_from_n_length_witness :
  ∃ symbols, get_symbols_from_n 4095 = Ok symbols
             ∧ (1 ≤ length symbols ≤ 3)%nat
             ∧ Forall (fun symbol => symbol ∈ _index_alphabet) symbols.
Proof.
  apply (get_symbols_from_n_length 4095 3); [lia|].
  split; [lia|reflexivity].
Defined.

(** ** Bonds, branches and atoms *)

(** X12. On the multiplicities 1, 2 and 3, [get_bond_from_num] returns the
    bond symbol whose multiplicity [get_num_from_bond] is the number it was
    given. *)
Theorem bond_round_trip (n : Z) :
  1 ≤ n ≤ 3 →
  ∃ bond, get_bond_from_num n = Ok bond ∧ get_num_from_bond bond = n.
Proof.
  intros Hn. assert (n = 1 ∨ n = 2 ∨ n = 3) as [->|[->| ->]] by lia;
    eexists; split; reflexivity.
Qed.

Lemma bond_round_trip_witness :
  ∃ bond, get_bond_from_num 2 = Ok bond ∧ get_num_from_bond bond = 2.
Proof. apply (bond_round_trip 2). lia. Defined.

(** X13. [get_bond_from_num] indexes a tuple of three with [n - 1]: it
    raises [IndexError] exactly for [n] above 3 or below -2, and the index
    wraps for 0, -1 and -2, so that the multiplicity 0 gives the triple
    bond. Every symbol that is not "=" or "#" has multiplicity 1. *)
Theorem get_bond_from_num_bounds (n : Z) (bond : string) :
  (get_bond_from_num n = Raise IndexError ↔ n < -2 ∨ 3 < n)
  ∧ get_bond_from_num 0 = Ok "#"
  ∧ get_bond_from_num (-1) = Ok "="
  ∧ get_bond_from_num (-2) = Ok ""
  ∧ (get_num_from_bond bond = 1 ↔ bond ≠ "=" ∧ bond ≠ "#").
Proof.
  split; [|split; [reflexivity|split; [reflexivity|split; [reflexivity|]]]].
  - assert (n < -2 ∨ n = -2 ∨ n = -1 ∨ n = 0 ∨ n = 1 ∨ n = 2 ∨ n = 3 ∨ 3 < n)
      as [Hlow|[->|[->|[->|[->|[->|[->|Hhigh]]]]]]] by lia;
      try (split; [discriminate|lia]).
    + split; [tauto|intros _].
      unfold get_bond_from_num, Py.nth, Py.position.
      change (Z.of_nat (length [""; "="; "#"])) with 3.
      rewrite (proj2 (Z.ltb_lt (n - 1) 0)) by lia.
      rewrite (proj2 (Z.leb_gt 0 (n - 1 + 3))) by lia. reflexivity.
    + split; [tauto|intros _].
      unfold get_bond_from_num, Py.nth, Py.position.
      change (Z.of_nat (length [""; "="; "#"])) with 3.
      rewrite (proj2 (Z.ltb_ge (n - 1) 0)) by lia.
      rewrite (proj2 (Z.ltb_ge (n - 1) 3)) by lia.
      now rewrite andb_false_r.
  - unfold get_num_from_bond.
    destruct (String.eqb_spec bond "=") as [->|H1]; [split; [discriminate|tauto]|].
    destruct (String.eqb_spec bond "#") as [->|H2]; [split; [discriminate|tauto]|].
    tauto.
Qed.

(** X14. A branch that opens takes its bonds from the atom it leaves: for a
    branch symbol of type 1 to 3 in a state from 2 to 8, the first state of
    the branch and the state in which the chain goes on are both at least
    1, the first is at most the type, and they add up to the state. *)
Theorem get_next_branch_state_split (branch_symbol : string) (state X : Z) :
  branch_type_digit branch_symbol = Ok X → 1 ≤ X ≤ 3 → 2 ≤ state ≤ 8 →
  ∃ branch_init_state next_state,
    get_next_branch_state branch_symbol state
    = Ok (branch_init_state, next_state)
    ∧ 1 ≤ branch_init_state ≤ X
    ∧ 1 ≤ next_state
    ∧ branch_init_state + next_state = state.
Proof.
  intros HX Htype Hstate. rewrite branch_type_digit_bind, HX. bind_step.
  rewrite (proj2 (Z.leb_le 1 X)), (proj2 (Z.leb_le X 3)) by lia.
  rewrite (proj2 (Z.leb_le 2 state)), (proj2 (Z.leb_le state 8)) by lia.
  cbn [negb andb]. eexists _, _. split; [reflexivity|]. lia.
Qed.

Lemma get_next_branch_state_split_witness :
  ∃ branch_init_state next_state,
    get_next_branch_state "[Branch2_3]" 3 = Ok (branch_init_state, next_state)
    ∧ 1 ≤ branch_init_state ≤ 3
    ∧ 1 ≤ next_state
    ∧ branch_init_state + next_state = 3.
Proof.
  apply (get_next_branch_state_split "[Branch2_3]" 3 3); [reflexivity|lia|lia].
Defined.

Lemma get_num_from_get_bond n bond :
  1 ≤ n ≤ 3 → get_bond_from_num n = Ok bond → get_num_from_bond bond = n.
Proof.
  intros Hn. assert (n = 1 ∨ n = 2 ∨ n = 3) as [->|[->| ->]] by lia;
    intros [= <-]; reflexivity.
Qed.

(** X15. What [get_next_state] returns for an atom that parses. In state 0
    the bond of the symbol is dropped and the next state is the capacity
    that the hydrogens leave. In a state above 0 the fragment is a bond
    followed by the atom, the multiplicity of that bond exceeds neither the
    state nor the capacity left, and the next state is the capacity less
    the bond, with -1 in place of 0. *)
Theorem get_next_state_bond_capped
    (w : world) (symbol : string) (state : Z)
    (bond smiles_symbol element : string) (h_count charge max_bonds : Z)
    (fragment : string) (next_state : Z) :
  symbol ≠ "[epsilon]" → 0 ≤ state →
  parsed_atom symbol = Ok (bond, smiles_symbol, (element, h_count, charge)) →
  max_bonds_of w element charge = Ok max_bonds →
  get_next_state w symbol state = Ok (fragment, next_state) →
  (state = 0 ∧ fragment = smiles_symbol ∧ next_state = max_bonds - h_count
   ∧ 0 ≤ next_state)
  ∨ (0 < state
     ∧ ∃ used, fragment = used +:+ smiles_symbol
               ∧ 1 ≤ get_num_from_bond used ≤ Z.min state (max_bonds - h_count)
               ∧ get_num_from_bond used ≤ get_num_from_bond bond
               ∧ next_state
                 = (if max_bonds - h_count - get_num_from_bond used =? 0
                    then -1
                    else max_bonds - h_count - get_num_from_bond used)
               ∧ (next_state = -1 ∨ 1 ≤ next_state)).
Proof.
  intros Heps Hstate Hparsed Hmax.
  rewrite (get_next_state_parsed _ _ _ _ _ _ _ _ _ Heps Hparsed Hmax).
  destruct (Z.ltb_spec max_bonds h_count) as [Hlt|Hge]; cbn [orb];
    [discriminate|].
  destruct (Z.eqb_spec state 0) as [->|Hst].
  - rewrite andb_false_r. cbv zeta. intros [= <- <-]. left.
    repeat split; lia.
  - destruct (Z.eqb_spec h_count max_bonds) as [Heq|Hne]; cbn [andb].
    + rewrite (proj2 (Z.ltb_lt 0 state)) by lia. discriminate.
    + cbv zeta.
      pose proof (get_num_from_bond_range bond) as Hbond.
      destruct (Z.ltb_spec (Z.min state (max_bonds - h_count))
                           (get_num_from_bond bond)) as [Hcap|Hfree].
      * destruct (get_bond_from_num_defined (Z.min state (max_bonds - h_count)))
          as [b Hb]; [lia|].
        assert (Hnum : get_num_from_bond b
                       = Z.min state (max_bonds - h_count))
          by (apply get_num_from_get_bond; [lia|exact Hb]).
        rewrite Hb. bind_step. intros [= <- <-]. right. split; [lia|].
        exists b. rewrite Hnum. split; [reflexivity|].
        split; [lia|]. split; [lia|]. split; [reflexivity|].
        destruct (_ =? 0) eqn:E; [now left|right].
        apply Z.eqb_neq in E. lia.
      * bind_step. intros [= <- <-]. right. split; [lia|].
        exists bond. split; [reflexivity|].
        split; [lia|]. split; [lia|]. split; [reflexivity|].
        destruct (_ =? 0) eqn:E; [now left|right].
        apply Z.eqb_neq in E. lia.
Qed.

Lemma get_next_state_bond_capped_witness :
  get_next_state initial_world "[=O]" 1 = Ok ("O", 1)
  ∧ ∃ used, "O" = used +:+ "O" ∧ get_num_from_bond used ≤ Z.min 1 (2 - 0).
Proof.
  split; [reflexivity|].
  destruct (get_next_state_bond_capped
              initial_world "[=O]" 1 "=" "O" "O" 0 0 2 "O" 1)
    as [(H & _)|(_ & used & Hf & Hn & _)];
    [discriminate|lia|reflexivity|reflexivity|reflexivity|discriminate H|].
  exists used. split; [exact Hf|lia].
Defined.

(** ** Tables handed out and taken in *)

Lemma module_tables_new_dict t w :
  world_ok w → module_tables (snd (new_dict t w)) = module_tables w.
Proof.
  intros [? ? ? ?]. unfold module_tables, active_table.
  cbn [new_dict snd default_bond_constraints octet_rule_bond_constraints
       hypervalent_bond_constraints _bond_constraints].
  now rewrite !(deref_new_dict_old t w) by assumption.
Qed.

Lemma deref_setitem_other r r' key value w :
  r ≠ r' → deref (setitem r key value w) r' = deref w r'.
Proof.
  intros Hne. unfold deref, setitem. cbn [store].
  now rewrite list_lookup_alter_ne.
Qed.

Lemma deref_setitem_same r key value w :
  live w r → deref (setitem r key value w) r = <[key := value]> (deref w r).
Proof.
  unfold live, deref, setitem. cbn [store]. intros Hr.
  rewrite list_lookup_alter_eq.
  destruct (store w !! r) eqn:E; [reflexivity|].
  apply lookup_ge_None in E. lia.
Qed.

(** X16. The four functions that return a table return a new dictionary
    with the content of the one they read; what the caller then stores in
    it reaches none of the presets and not the active table. *)
Theorem table_getters_copy (w : world) (key : string) (value : Z)
    (getter : world → nat * world) (source : world → nat) :
  world_ok w → (getter, source) ∈ table_getters →
  let '(copy, w') := getter w in
  deref w' copy = deref w (source w)
  ∧ ¬ live w copy
  ∧ module_tables w' = module_tables w
  ∧ module_tables (setitem copy key value w') = module_tables w
  ∧ deref (setitem copy key value w') copy
    = <[key := value]> (deref w (source w)).
Proof.
  intros Hok Hin.
  assert (Hgetter : getter w = dict (source w) w).
  { unfold table_getters in Hin. rewrite !elem_of_cons, elem_of_nil in Hin.
    destruct Hin as [[= -> ->]|[[= -> ->]|[[= -> ->]|[[= -> ->]|[]]]]];
      reflexivity. }
  rewrite Hgetter. unfold dict.
  pose proof (new_dict_fresh (deref w (source w)) w) as Hfresh.
  pose proof (new_dict_live (deref w (source w)) w) as Hlive.
  pose proof (deref_new_dict_new (deref w (source w)) w) as Hcopy.
  pose proof (module_tables_new_dict (deref w (source w)) w Hok) as Htables.
  destruct (new_dict (deref w (source w)) w) as [copy w'] eqn:E.
  cbn [fst snd] in *.
  split; [exact Hcopy|]. split; [exact Hfresh|]. split; [exact Htables|].
  split.
  - rewrite <- Htables. unfold module_tables, active_table.
    assert (Hglobals : default_bond_constraints w' = default_bond_constraints w
                       ∧ octet_rule_bond_constraints w'
                         = octet_rule_bond_constraints w
                       ∧ hypervalent_bond_constraints w'
                         = hypervalent_bond_constraints w
                       ∧ _bond_constraints w' = _bond_constraints w)
      by (injection E as <- <-; repeat split).
    destruct Hglobals as (Hd & Ho & Hh & Ha). destruct Hok as [? ? ? ?].
    cbn [setitem default_bond_constraints octet_rule_bond_constraints
         hypervalent_bond_constraints _bond_constraints].
    fold (setitem copy key value w').
    rewrite !deref_setitem_other; [reflexivity|..];
      intros ->; apply Hfresh; congruence.
  - rewrite deref_setitem_same by exact Hlive. now rewrite Hcopy.
Qed.

Lemma table_getters_copy_witness :
  let '(copy, w') := get_semantic_constraints initial_world in
  deref w' copy = deref initial_world (_bond_constraints initial_world)
  ∧ ¬ live initial_world copy
  ∧ module_tables w' = module_tables initial_world
  ∧ module_tables (setitem copy "C" 1 w') = module_tables initial_world
  ∧ deref (setitem copy "C" 1 w') copy
    = <["C" := 1]> (deref initial_world (_bond_constraints initial_world)).
Proof.
  apply (table_getters_copy initial_world "C" 1 get_semantic_constraints
           _bond_constraints); [exact initial_world_ok|].
  unfold table_getters. rewrite !elem_of_cons. tauto.
Defined.

(** X17. What [set_semantic_constraints] is given, [get_semantic_constraints]
    gives back: after a table that passes the checks was set, the table
    returned is equal to it; after [None] it is equal to the default
    preset. *)
Theorem set_then_get (w : world) (r : nat) (t : gmap string Z) :
  world_ok w → store w !! r = Some t → valid_table t →
  (let w1 := snd (set_semantic_constraints (Some r) w) in
   let '(copy, w2) := get_semantic_constraints w1 in
   fst (set_semantic_constraints (Some r) w) = Ok () ∧ deref w2 copy = t)
  ∧ (let w1 := snd (set_semantic_constraints None w) in
     let '(copy, w2) := get_semantic_constraints w1 in
     deref w2 copy = deref w (default_bond_constraints w)).
Proof.
  intros Hok Hr [Hwild Hrange]. pose proof (store_live _ _ _ Hr) as Hlive.
  pose proof (deref_store _ _ _ Hr) as Ht. split.
  - destruct (set_semantic_constraints_cases w r Hok Hlive)
      as [(_ & Hres & Hok1 & Hact & _)|[Hbad _]].
    + cbv zeta. unfold get_semantic_constraints.
      destruct (dict_spec _ (_bond_constraints
                  (snd (set_semantic_constraints (Some r) w))) Hok1)
        as (_ & _ & Hcopy & _).
      destruct (dict _ _) as [copy w2]. cbn [fst snd] in *.
      split; [exact Hres|]. rewrite Hcopy. fold (active_table
        (snd (set_semantic_constraints (Some r) w))). congruence.
    + exfalso. apply Hbad. rewrite Ht. now split.
  - cbv zeta. cbn [set_semantic_constraints snd].
    assert (Hok1 : world_ok (set_active (default_bond_constraints w) w))
      by (apply set_active_ok; [exact Hok|apply Hok]).
    unfold get_semantic_constraints.
    destruct (dict_spec _ (_bond_constraints
                (set_active (default_bond_constraints w) w)) Hok1)
      as (_ & _ & Hcopy & _).
    destruct (dict _ _) as [copy w2]. cbn [fst snd] in *. exact Hcopy.
Qed.

Lemma set_then_get_witness :
  let w := snd (new_dict {["?" := 8; "C" := 4]} initial_world) in
  let w1 := snd (set_semantic_constraints (Some 3%nat) w) in
  let '(copy, w2) := get_semantic_constraints w1 in
  fst (set_semantic_constraints (Some 3%nat) w) = Ok ()
  ∧ deref w2 copy = {["?" := 8; "C" := 4]}.
Proof.
  intros w.
  refine (proj1 (set_then_get w 3 {["?" := 8; "C" := 4]} _ eq_refl _)).
  - apply new_dict_ok, initial_world_ok.
  - split; [eexists; reflexivity|].
    apply (bool_decide_unpack _). vm_compute. exact I.
Defined.

(** ** The parts of an atom symbol *)

Lemma int_digit_range c h : Py.int (Py.str1 c) = Ok h → 0 ≤ h ≤ 9.
Proof.
  unfold Py.int, Py.str1. cbn [Py.int_digits].
  destruct (Z.leb_spec 48 (Py.code c)), (Z.leb_spec (Py.code c) 57);
    cbn [andb]; try discriminate.
  intros [= <-]. lia.
Qed.

Lemma scan_from p rest : ∀ i j, scan p rest i = Ok j → i ≤ j.
Proof.
  induction rest as [|c rest IH]; intros i j; cbn [scan]; [discriminate|].
  destruct (p c); [|intros [= <-]; lia].
  intros H. apply IH in H. lia.
Qed.

Lemma getitem_in_range s i c :
  0 ≤ i → Py.getitem s i = Ok c → i < Py.len s.
Proof.
  intros Hi. unfold Py.getitem. rewrite (proj2 (Z.ltb_ge i 0)) by lia.
  cbv beta iota zeta. rewrite (proj2 (Z.ltb_ge i 0)) by lia.
  destruct (Z.lt_ge_cases i (Py.len s)) as [|Hout]; [tauto|].
  replace (Py.drop (Z.to_nat i) s) with ""; [discriminate|].
  clear -Hout Hi. unfold Py.len in Hout.
  assert (Hn : (String.length s ≤ Z.to_nat i)%nat) by lia.
  revert Hn. generalize (Z.to_nat i). clear. intros n. revert s.
  induction n as [|n IH]; intros [|a s] Hn; cbn in *; try reflexivity;
    try lia.
  apply IH. lia.
Qed.

Lemma len_take n : ∀ s,
  (n ≤ String.length s)%nat → String.length (Py.take n s) = n.
Proof.
  induction n as [|n IH]; intros [|a s] Hn; cbn in *; try reflexivity;
    try lia.
  rewrite IH by lia. reflexivity.
Qed.

Lemma len_slice s i j :
  0 ≤ i ≤ j → j ≤ Py.len s →
  Py.len (Py.slice s (Some i) (Some j)) = j - i.
Proof.
  intros Hij Hj. unfold Py.slice. cbn [from_option]. unfold Py.slice_bound.
  rewrite (proj2 (Z.ltb_ge i 0)), (proj2 (Z.ltb_ge j 0)) by lia.
  rewrite !Z.min_l by lia.
  unfold Py.len at 1. rewrite len_take.
  - lia.
  - pose proof (len_drop (Z.to_nat i) s ltac:(unfold Py.len in *; lia)) as H.
    unfold Py.len in *. lia.
Qed.

Lemma find_element_range s i j :
  find_element s = Ok (i, j) →
  0 ≤ i < j ∧ j ≤ Py.len s ∧ (Py.getitem s 0 = Ok "["%char → j ≤ i + 2).
Proof.
  unfold find_element.
  destruct (Py.getitem s 0) as [c| |] eqn:E0; try discriminate. bind_step.
  destruct (Ascii.eqb_spec c "[") as [->|Hbare]; cbn [negb].
  - unfold skip_while.
    destruct (scan Py.isdigit _ 1) as [k| |] eqn:Escan; try discriminate.
    bind_step. apply scan_from in Escan.
    destruct (Py.getitem s (k + 1)) as [c'| |] eqn:E1; try discriminate.
    bind_step. pose proof (getitem_in_range s (k + 1) c' ltac:(lia) E1).
    destruct (_ && _); intros [= <- <-]; repeat split; lia.
  - intros [= <- <-]. pose proof (getitem_in_range s 0 c ltac:(lia) E0).
    repeat split; try lia. congruence.
Qed.

(** X18. What [parse_atom_symbol] can return. A symbol that does not start
    with a bracket is its own element, with no hydrogen and no charge. For
    a symbol in brackets the element has one or two characters and the
    hydrogen count is 0, 1 or the one digit after the H, so at most 9. *)
Theorem parse_atom_symbol_shape (atom_symbol element : string)
    (h_count charge : Z) (c : ascii) :
  Py.getitem atom_symbol 0 = Ok c →
  parse_atom_symbol atom_symbol = Ok (element, h_count, charge) →
  0 ≤ h_count ≤ 9
  ∧ 1 ≤ Py.len element
  ∧ (c ≠ "["%char → element = atom_symbol ∧ h_count = 0 ∧ charge = 0)
  ∧ (c = "["%char → Py.len element ≤ 2).
Proof.
  intros Hc. pose proof (getitem_in_range _ 0 c ltac:(lia) Hc) as Hlen.
  unfold parse_atom_symbol. rewrite Hc. bind_step.
  destruct (Ascii.eqb_spec c "[") as [->|Hbare]; cbn [negb].
  2:{ intros [= <- <- <-]. repeat split; try lia; congruence. }
  head_case as [i j] eqn:Efind.
  destruct (find_element_range _ _ _ Efind) as (Hi & Hjlen & Hj).
  specialize (Hj Hc).
  head_case as c1 eqn:E1. head_case as c2 eqn:E2. head_case as c3 eqn:E3.
  head_case as [h i'] eqn:Eh.
  assert (Hh : 0 ≤ h ≤ 9).
  { destruct (Ascii.eqb c3 "H"); [|injection Eh as <- _; lia].
    revert Eh. bind_step; cbv zeta.
    head_case as c4 eqn:E4.
    destruct (Py.isdigit c4); [|intros [= <- _]; lia].
    head_case as h' eqn:Eint.
    intros [= <- _]. now apply int_digit_range in Eint. }
  head_case as c5 eqn:E5. head_case as q eqn:Eq.
  intros [= <- <- <-].
  rewrite len_slice by lia.
  split; [lia|]. split; [lia|].
  split; [intros []; reflexivity|intros _; lia].
Qed.

Lemma parse_atom_symbol_shape_witness :
  0 ≤ 3 ≤ 9 ∧ 1 ≤ Py.len "C"
  ∧ ("["%char ≠ "["%char → "C" = "[13CH3+2]" ∧ 3 = 0 ∧ 2 = 0)
  ∧ ("["%char = "["%char → Py.len "C" ≤ 2).
Proof.
  apply (parse_atom_symbol_shape "[13CH3+2]" "C" 3 2 "["); reflexivity.
Defined.
(** ** Robustness: strings of robust symbols decode *)

(** *** Lists *)

Lemma position_in_range n i :
  0 ≤ i < Z.of_nat n → Py.position n i = Ok (Z.to_nat i).
Proof.
  intros Hi. unfold Py.position.
  rewrite (proj2 (Z.ltb_ge i 0)) by lia.
  rewrite (proj2 (Z.leb_le 0 i)), (proj2 (Z.ltb_lt i (Z.of_nat n))) by lia.
  reflexivity.
Qed.

Lemma update_in_range {A} (l : list A) i f :
  0 ≤ i < Z.of_nat (length l) →
  Py.update l i f = Ok (alter f (Z.to_nat i) l).
Proof.
  intros Hi. unfold Py.update. now rewrite position_in_range.
Qed.

Lemma nth_in_range {A} (l : list A) i :
  0 ≤ i < Z.of_nat (length l) →
  ∃ x, Py.nth l i = Ok x ∧ l !! Z.to_nat i = Some x.
Proof.
  intros Hi. unfold Py.nth. rewrite position_in_range by exact Hi.
  bind_step. destruct (lookup_lt_is_Some_2 l (Z.to_nat i) ltac:(lia)) as [x Hx].
  exists x. now rewrite Hx.
Qed.

Lemma getitem_nonempty s : s ≠ "" → ∃ c, Py.getitem s 0 = Ok c.
Proof. destruct s as [|c s]; [done|]. intros _. now exists c. Qed.

Lemma append_nonempty a b : b ≠ "" → a +:+ b ≠ "".
Proof. destruct a, b; done. Qed.

Lemma append_nonempty_l a b : a ≠ "" → a +:+ b ≠ "".
Proof. destruct a; done. Qed.

(** *** Atom symbols *)

Lemma parse_atom_symbol_nonempty s parsed :
  parse_atom_symbol s = Ok parsed → s ≠ "".
Proof. intros H ->. discriminate. Qed.

Lemma get_bond_from_num_nonempty n bond :
  2 ≤ n → get_bond_from_num n = Ok bond → bond ≠ "".
Proof.
  intros Hn. destruct (Z.le_gt_cases n 3).
  - assert (n = 2 ∨ n = 3) as [->| ->] by lia; intros [= <-]; discriminate.
  - unfold get_bond_from_num, Py.nth, Py.position.
    rewrite (proj2 (Z.ltb_ge (n - 1) 0)) by lia.
    change (Z.of_nat (length [""; "="; "#"])) with 3.
    rewrite (proj2 (Z.ltb_ge (n - 1) 3)) by lia.
    rewrite andb_false_r. discriminate.
Qed.

(** An atom symbol that is robust gives an atom in every state that is
    not negative; only [[epsilon]] gives none, and then the next state is
    0 or negative. *)
Lemma get_next_state_robust w symbol state :
  Py.contains "Branch" symbol = false → Py.contains "Ring" symbol = false →
  robust_symbol w symbol = true → 0 ≤ state →
  ∃ new_symbol new_state,
    get_next_state w symbol state = Ok (new_symbol, new_state)
    ∧ (new_symbol = "" → new_state ≤ 0).
Proof.
  intros Hb Hr Hrobust Hstate. unfold robust_symbol in Hrobust.
  rewrite Hb, Hr in Hrobust.
  destruct (String.eqb_spec symbol "[epsilon]") as [->|Heps].
  { unfold get_next_state. cbn [String.eqb Ascii.eqb Bool.eqb andb].
    destruct (state =? 0); eexists _, _; (split; [reflexivity|lia]). }
  cbn [orb] in Hrobust.
  destruct (parsed_atom symbol) as [[[bond smiles_symbol] [[element h] q]]| |]
    eqn:Hparsed; try discriminate.
  cbn [fst] in Hrobust.
  destruct (max_bonds_of w element q) as [mb| |] eqn:Hmax; try discriminate.
  apply Z.ltb_lt in Hrobust.
  rewrite (get_next_state_parsed _ _ _ _ _ _ _ _ _ Heps Hparsed Hmax).
  rewrite (proj2 (Z.ltb_ge mb h)) by lia.
  rewrite (proj2 (Z.eqb_neq h mb)) by lia. cbn [orb andb]. cbv zeta.
  assert (Hs : smiles_symbol ≠ "").
  { unfold parsed_atom in Hparsed.
    destruct (Py.getitem symbol 1) as [c| |]; try discriminate.
    revert Hparsed. bind_step.
    destruct (parse_atom_symbol _) as [p| |] eqn:Hp; try discriminate.
    intros [= _ <- _]. now apply parse_atom_symbol_nonempty in Hp. }
  destruct (Z.eqb_spec state 0) as [->|Hst].
  { eexists _, _. split; [reflexivity|]. intros H.
    now apply append_nonempty in H. }
  pose proof (get_num_from_bond_range bond) as Hbn.
  destruct (Z.ltb_spec (Z.min state (mb - h)) (get_num_from_bond bond)).
  - destruct (get_bond_from_num_defined (Z.min state (mb - h)) ltac:(lia))
      as [bond' Hbond'].
    rewrite Hbond'. bind_step. eexists _, _. split; [reflexivity|].
    intros He. now apply append_nonempty in He.
  - bind_step. eexists _, _. split; [reflexivity|].
    intros He. now apply append_nonempty in He.
Qed.
(** *** Streams of robust symbols *)

Lemma next_stream_ok w g :
  stream_ok w g →
  ∃ c g', next g = Ok (c, g') ∧ stream_ok w g'
          ∧ (c = "" ∨ robust_symbol w c = true).
Proof.
  intros [He Hp]. unfold next. destruct g as [[|x rest] e]; cbn in *.
  - subst e. eexists _, _. split; [reflexivity|].
    split; [split; [reflexivity|constructor]|now left].
  - inversion Hp; subst. eexists _, _. split; [reflexivity|].
    split; [split; [reflexivity|assumption]|assumption].
Qed.

Lemma pull_stream_ok w n :
  ∀ g, stream_ok w g →
  ∃ l g', pull n g = Ok (l, g') ∧ stream_ok w g'
          ∧ Forall (fun symbol => symbol = "" ∨ robust_symbol w symbol = true) l.
Proof.
  induction n as [|n IH]; intros g Hg; cbn [pull].
  - eexists _, _. split; [reflexivity|]. split; [exact Hg|constructor].
  - destruct (next_stream_ok w g Hg) as (c & g1 & -> & Hg1 & Hc). bind_step.
    destruct (IH g1 Hg1) as (l & g2 & -> & Hg2 & Hl). bind_step.
    eexists _, _. split; [reflexivity|]. split; [exact Hg2|].
    now constructor.
Qed.

Lemma _parse_selfies_symbols_ok w l :
  Forall (fun symbol => symbol = "" ∨ robust_symbol w symbol = true) l →
  stream_ok w (_parse_selfies_symbols l).
Proof.
  intros Hl. split; [reflexivity|]. cbn [_parse_selfies_symbols pending].
  induction Hl as [|x l Hx Hl IH]; [constructor|].
  rewrite filter_cons. destruct (decide (x ≠ "[nop]")); [|exact IH].
  now constructor.
Qed.

(** *** Graphs *)

Lemma od_set_Forall {K V} `{EqDecision K} (P : K * V → Prop) d k v :
  P (k, v) → Forall P d → Forall P (od_set k v d).
Proof.
  intros Hkv. induction 1 as [|[k' v'] d Hx Hd IH]; cbn [od_set].
  - repeat constructor. exact Hkv.
  - destruct (decide (k = k')); constructor; assumption.
Qed.

Lemma skip_branches_from branches :
  branches_ok branches →
  ∀ fuel bs bs', skip_branches fuel branches bs = Ok bs' → bs ≤ bs'.
Proof.
  intros Hok. induction fuel as [|fuel IH]; intros bs bs';
    cbn [skip_branches];
    destruct (od_get bs branches) as [e|] eqn:E; try discriminate;
    try (intros [= <-]; lia).
  apply od_get_elem in E.
  assert (bs ≤ e)
    by (unfold branches_ok in Hok; rewrite Forall_forall in Hok;
        exact (Hok _ E)).
  intros H'. apply IH in H'. lia.
Qed.

Lemma index_of_le d d' i :
  (length d ≤ length d')%nat → index_of d i → index_of d' i.
Proof. unfold index_of. lia. Qed.

Lemma graph_ok_branches d b r : graph_ok d b r → branches_ok b.
Proof.
  intros [_ Hb _]. unfold branches_ok. eapply Forall_impl; [exact Hb|].
  intros branch. cbv beta. lia.
Qed.

Lemma graph_ok_grow d d' b r :
  graph_ok d b r → Forall (fun a => text a ≠ "") d' →
  (length d ≤ length d')%nat → graph_ok d' b r.
Proof.
  intros [Ht Hb Hr] Ht' Hlen. split; [exact Ht'| |].
  - eapply Forall_impl; [exact Hb|]. intros branch [? ?].
    split; [assumption|]. now apply (index_of_le d).
  - eapply Forall_impl; [exact Hr|]. intros x [? ?].
    split; now apply (index_of_le d).
Qed.

Lemma texts_alter_bonds d i n :
  Forall (fun a => text a ≠ "") d →
  Forall (fun a => text a ≠ "") (alter (sub_bonds n) i d).
Proof. intros H. apply Forall_alter; [exact H|]. intros x _ Hx. exact Hx. Qed.

Lemma get_n_from_symbols_nonneg symbols : 0 ≤ get_n_from_symbols symbols.
Proof.
  unfold get_n_from_symbols.
  exact (proj1 (n_from_reversed_bound (reverse symbols) 0 ltac:(lia))).
Qed.

(** *** The derivation *)

(** One turn of the loop on a robust symbol returns and keeps the graph
    well formed, if the calls for branches do. *)
Lemma derive_body_safe self w c g st d p b r fuel :
  (∀ g' i d' p' b' r',
     stream_ok w g' → graph_ok d' b' r' → cursor_ok d' p' i →
     (symbols_left g' ≤ fuel)%nat →
     walk_safe d' (self g' i d' p' b' r')) →
  robust_symbol w c = true → 0 ≤ st →
  stream_ok w g → graph_ok d b r → cursor_ok d p st →
  (symbols_left g ≤ fuel)%nat →
  turn_safe w g d (derive_body self w c g st d p b r).
Proof.
  intros Hself Hc Hst Hg Hgraph [Hp Hp0] Hfuel.
  unfold derive_body. unfold robust_symbol in Hc.
  destruct (Py.contains "Branch" c) eqn:Hbranch.
  - (* a branch symbol *)
    apply andb_prop in Hc as [HL HX].
    destruct (branch_type_digit c) as [X| |] eqn:EX; try discriminate.
    rewrite branch_type_digit_bind, EX. bind_step.
    rewrite HX. cbn [negb].
    destruct (Z.leb_spec st 1) as [Hle|Hgt].
    + rewrite (proj2 (andb_false_iff (2 <=? st) (st <=? 8)))
        by (left; apply Z.leb_gt; lia).
      cbn. split; [exact Hg|]. split; [lia|]. split; [lia|].
      split; [exact Hgraph|]. split; [exact Hp|]. intros ?; apply Hp0; lia.
    + apply andb_prop in HX as [HX1 HX3].
      apply Z.leb_le in HX1, HX3.
      assert (Hinit : ∃ i n, (if (2 <=? st) && (st <=? 8)
                then Ok (Z.min (st - 1) X, st - Z.min (st - 1) X)
                else Ok (-1, st)) = Ok (i, n) ∧ 0 < n).
      { destruct ((2 <=? st) && (st <=? 8)); eexists _, _;
          (split; [reflexivity|lia]). }
      destruct Hinit as (i & n & -> & Hn). bind_step.
      unfold branch_length_digit in HL.
      destruct (Py.getitem c (-4)) as [c4| |]; try discriminate.
      revert HL. bind_step.
      destruct (Py.int (Py.str1 c4)) as [L| |]; try discriminate.
      intros _. bind_step.
      destruct (pull_stream_ok w (Z.to_nat L) g Hg)
        as (l1 & g1 & E1 & Hg1 & Hl1).
      rewrite E1. bind_step.
      destruct (pull_symbols_left _ _ _ _ E1) as [_ Hc1].
      destruct (pull_stream_ok w (Z.to_nat (get_n_from_symbols l1 + 1)) g1 Hg1)
        as (l2 & g2 & E2 & Hg2 & Hl2).
      rewrite E2. bind_step.
      destruct (pull_symbols_left _ _ _ _ E2) as [_ Hc2].
      pose proof (symbols_left_branch_gen l2) as Hbg.
      pose proof (Hself (_parse_selfies_symbols l2) i d p b r
                    (_parse_selfies_symbols_ok w l2 Hl2) Hgraph
                    ltac:(split; [exact Hp|intros _; apply Hp0; lia])
                    ltac:(lia)) as Hcall.
      destruct (self _ _ _ _ _ _) as [[[d' b'] r']| |]; try contradiction.
      destruct Hcall as [Hlen Hgraph']. bind_step.
      pose proof (graph_ok_branches _ _ _ Hgraph') as Hb'.
      pose proof (skip_branches_finishes b' Hb' (length b')
                    (Z.of_nat (length d)) (starts_from_length _ _)) as Hskip.
      destruct (skip_branches _ _ _) as [bs| |] eqn:Eskip;
        [|exfalso|congruence].
      2:{ clear -Eskip. revert Eskip. generalize (Z.of_nat (length d)).
          induction (length b') as [|k IH]; intros z; cbn [skip_branches];
            destruct (od_get z b'); try discriminate. apply IH. }
      apply (skip_branches_from _ Hb') in Eskip.
      cbn. split; [exact Hg2|]. split; [lia|]. split; [exact Hlen|].
      split; [|split; [lia|intros _; apply Hp0; lia]].
      destruct (Z.leb_spec bs (Z.of_nat (length d') - 1)); [|exact Hgraph'].
      destruct Hgraph' as [Ht' Hbf' Hr']. split; [exact Ht'| |exact Hr'].
      apply od_set_Forall; [|exact Hbf']. cbn [fst snd]. unfold index_of. lia.
  - destruct (Py.contains "Ring" c) eqn:Hring.
    + (* a ring symbol *)
      apply andb_prop in Hc as [HL H5].
      destruct (Z.eqb_spec st 0) as [->|Hst0].
      { cbn. split; [exact Hg|]. split; [lia|]. split; [lia|].
      split; [exact Hgraph|]. split; [exact Hp|]. intros ?; apply Hp0; lia. }
      unfold ring_length_digit in HL.
      destruct (Py.getitem c (-2)) as [c2| |]; try discriminate.
      revert HL. bind_step.
      destruct (Py.int (Py.str1 c2)) as [L| |]; try discriminate.
      intros _. bind_step.
      destruct (pull_stream_ok w (Z.to_nat L) g Hg)
        as (l1 & g1 & E1 & Hg1 & Hl1).
      rewrite E1. bind_step.
      destruct (pull_symbols_left _ _ _ _ E1) as [_ Hc1].
      destruct (Py.getitem c 5) as [c5| |]; try discriminate.
      assert (Hbond : ∃ bond_symbol,
        (if String.eqb (Py.slice c (Some 1) (Some 5)) "Expl"
         then Ok (Py.str1 c5) else Ok "") = Ok bond_symbol).
      { destruct (String.eqb _ _); eexists; reflexivity. }
      destruct Hbond as [bond_symbol ->].
      pose proof (get_n_from_symbols_nonneg l1) as HN.
      cbn. split; [exact Hg1|]. split; [lia|]. split; [lia|].
      split; [|split; assumption].
      destruct Hgraph as [Ht Hbf Hr]. split; [exact Ht|exact Hbf|].
      apply Forall_app_2; [exact Hr|]. repeat constructor; cbn [fst snd];
        unfold index_of; lia.
    + (* an atom symbol *)
      assert (Hc' : robust_symbol w c = true)
        by (unfold robust_symbol; now rewrite Hbranch, Hring).
      destruct (get_next_state_robust w c st Hbranch Hring Hc' Hst)
        as (ns & st' & -> & Hempty).
      bind_step.
      destruct (String.eqb_spec ns "") as [->|Hns]; cbn [negb].
      { specialize (Hempty eq_refl).
        cbn. split; [exact Hg|]. split; [lia|]. split; [lia|].
        split; [exact Hgraph|]. split; [exact Hp|]. lia. }
      destruct Hgraph as [Ht Hbf Hr].
      assert (Ht1 : Forall (fun a => text a ≠ "") (d ++ [Atom ns st' p]))
        by (apply Forall_app_2; [exact Ht|repeat constructor; exact Hns]).
      match goal with |- context [if 0 <=? p then ?linked else ?first] =>
        assert (Hd : ∃ d',
          (if 0 <=? p then linked else first) = Ok d'
          ∧ length d' = S (length d) ∧ Forall (fun x => text x ≠ "") d')
      end.
      { destruct (Z.leb_spec 0 p).
        - destruct (getitem_nonempty ns Hns) as [c0 ->]. bind_step.
          rewrite update_in_range by (rewrite last_length; lia).
          eexists. split; [reflexivity|].
          split; [now rewrite length_alter, last_length|].
          now apply texts_alter_bonds.
        - eexists. split; [reflexivity|]. split; [apply last_length|exact Ht1]. }
      destruct Hd as (d' & -> & Hlen & Ht').
      cbn. split; [exact Hg|]. split; [lia|]. split; [lia|].
      split; [|split; lia].
      apply (graph_ok_grow d); [now split|exact Ht'|lia].
Qed.

Lemma walk_safe_le d d' res :
  (length d ≤ length d')%nat → walk_safe d' res → walk_safe d res.
Proof.
  intros Hle. destruct res as [[[d1 b1] r1]| |]; cbn; [|tauto|tauto].
  intros [? ?]. split; [lia|assumption].
Qed.

(** The loop returns on a stream of robust symbols, with the budget
    [_translate_selfies] gives it. *)
Lemma derive_loop_safe fuel w :
  ∀ c g st d p b r,
    c = "" ∨ robust_symbol w c = true →
    stream_ok w g → graph_ok d b r → cursor_ok d p st →
    (real_symbols [c] + symbols_left g ≤ fuel)%nat →
    walk_safe d (derive_loop fuel w c g st d p b r).
Proof.
  induction fuel as [|fuel IH]; intros c g st d p b r Hc Hg Hgraph Hp Hfuel.
  - assert (c = "") as ->.
    { unfold real_symbols in Hfuel. rewrite filter_cons in Hfuel.
      destruct (decide (c ≠ "")) as [|Hc']; simpl in Hfuel; [lia|].
      now apply dec_stable in Hc'. }
    cbn. split; [lia|exact Hgraph].
  - rewrite derive_loop_S.
    destruct (String.eqb_spec c "") as [->|Hne]; cbn [negb andb];
      [cbn; split; [lia|exact Hgraph]|].
    destruct Hc as [Hc|Hc]; [contradiction|].
    destruct (Z.leb_spec 0 st) as [Hst|Hst]; [|cbn; split; [lia|exact Hgraph]].
    assert (Hleft : (symbols_left g ≤ fuel)%nat).
    { unfold real_symbols in Hfuel. rewrite filter_cons in Hfuel.
      destruct (decide (c ≠ "")); simpl in Hfuel; [lia|contradiction]. }
    assert (Hself : ∀ g' i d' p' b' r',
      stream_ok w g' → graph_ok d' b' r' → cursor_ok d' p' i →
      (symbols_left g' ≤ fuel)%nat →
      walk_safe d' (_translate_selfies_derive fuel w g' i d' p' b' r')).
    { intros g' i d' p' b' r' Hg' Hgraph' Hp' Hf'.
      unfold _translate_selfies_derive.
      destruct (next_stream_ok w g' Hg') as (c' & g1 & E & Hg1 & Hc').
      rewrite E. bind_step.
      destruct (next_symbols_left _ _ _ E) as [_ Hn].
      apply IH; try assumption. lia. }
    pose proof (derive_body_safe _ w c g st d p b r fuel
                  Hself Hc Hst Hg Hgraph Hp Hleft) as Hturn.
    destruct (derive_body _ _ _ _ _ _ _ _ _)
      as [[[[[[g1 ns] d1] p1] b1] r1]| |]; [|contradiction|contradiction].
    destruct Hturn as (Hg1 & Hle & Hlen & Hgraph1 & Hp1). bind_step.
    destruct (next_stream_ok w g1 Hg1) as (c' & g2 & E & Hg2 & Hc').
    rewrite E. bind_step.
    destruct (next_symbols_left _ _ _ E) as [_ Hn].
    apply (walk_safe_le d d1); [exact Hlen|].
    apply IH; try assumption. lia.
Qed.

(** *** Rings and branches *)

Lemma texts_alter_text d i f :
  (∀ t, f t ≠ "") → texts_ok d → texts_ok (alter (set_text f) i d).
Proof.
  intros Hf H. apply Forall_alter; [exact H|]. intros x _ _. apply Hf.
Qed.

Lemma texts_alter_append d i tail :
  texts_ok d → texts_ok (alter (set_text (fun t => t +:+ tail)) i d).
Proof.
  intros H. apply Forall_alter; [exact H|]. intros x _ Hx.
  now apply append_nonempty_l.
Qed.

Lemma ring_locs_fit_length d d' locs :
  length d = length d' → ring_locs_fit d locs → ring_locs_fit d' locs.
Proof.
  intros Hlen. unfold ring_locs_fit, index_of. now rewrite Hlen.
Qed.

(** A ring between derived atoms is resolved without an error. *)
Lemma resolve_ring_safe derived ring_locs left_idx right_idx bond_symbol :
  texts_ok derived → ring_locs_fit derived ring_locs →
  index_of derived left_idx → index_of derived right_idx →
  ∃ derived' ring_locs',
    resolve_ring (derived, ring_locs) (left_idx, right_idx, bond_symbol)
    = Ok (derived', ring_locs')
    ∧ length derived' = length derived
    ∧ texts_ok derived' ∧ ring_locs_fit derived' ring_locs'.
Proof.
  intros Ht Hlocs Hl Hr. unfold resolve_ring.
  destruct (left_idx =? right_idx); [now eexists _, _|].
  destruct (nth_in_range derived left_idx Hl) as (left_end & -> & Hleft).
  destruct (nth_in_range derived right_idx Hr) as (right_end & -> & Hright).
  bind_step.
  destruct (Z.leb_spec (bonds left_end) 0) as [|Hbl]; cbn [orb];
    [now eexists _, _|].
  destruct (Z.leb_spec (bonds right_end) 0) as [|Hbr]; [now eexists _, _|].
  pose proof (get_num_from_bond_range bond_symbol) as Hbn.
  match goal with |- context [if ?t then ?capped else ?kept] =>
    assert (Hbond : ∃ bond_num bond_symbol',
      (if t then capped else kept) = Ok (bond_num, bond_symbol')
      ∧ 1 ≤ bond_num ≤ 3)
  end.
  { destruct (Z.ltb_spec (Z.min (bonds left_end) (bonds right_end))
                         (get_num_from_bond bond_symbol)).
    - destruct (get_bond_from_num_defined
                  (Z.min (bonds left_end) (bonds right_end)) ltac:(lia))
        as [bond' ->].
      bind_step. eexists _, _. split; [reflexivity|lia].
    - eexists _, _. split; [reflexivity|lia]. }
  destruct Hbond as (bond_num & bond_symbol' & -> & Hnum). bind_step.
  match goal with |- context [if left_idx =? parent right_end
                              then ?bonded else ?apart] =>
    assert (Hstep : ∃ derived1 ring_locs1,
      (if left_idx =? parent right_end then bonded else apart)
      = Ok (derived1, ring_locs1)
      ∧ length derived1 = length derived
      ∧ texts_ok derived1 ∧ ring_locs_fit derived1 ring_locs1)
  end.
  { destruct (left_idx =? parent right_end).
    - assert (Htext : text right_end ≠ "").
      { unfold texts_ok in Ht. rewrite Forall_lookup in Ht.
        exact (Ht _ _ Hright). }
      destruct (getitem_nonempty _ Htext) as [c ->].
      set (old_bond := if is_old_bond_char c then Py.str1 c else "").
      pose proof (get_num_from_bond_range old_bond) as Hold.
      destruct (get_bond_from_num_defined
                  (Z.min (bond_num + get_num_from_bond old_bond) 3)
                  ltac:(lia)) as [new_bond Hnew].
      rewrite Hnew.
      assert (Hne : new_bond ≠ "")
        by (eapply get_bond_from_num_nonempty; [|exact Hnew]; lia).
      rewrite update_in_range by exact Hr.
      eexists _, _. split; [reflexivity|].
      split; [apply length_alter|].
      split.
      + apply texts_alter_text; [|exact Ht]. intros t.
        now apply append_nonempty_l.
      + eapply ring_locs_fit_length; [|exact Hlocs].
        now rewrite length_alter.
    - destruct (od_get (left_idx, right_idx) ring_locs) as [old_symbol|].
      + pose proof (get_num_from_bond_range old_symbol) as Hold.
        destruct (get_bond_from_num_defined
                    (Z.min (bond_num + get_num_from_bond old_symbol) 3)
                    ltac:(lia)) as [new_bond ->].
        eexists _, _. split; [reflexivity|]. split; [reflexivity|].
        split; [exact Ht|]. apply od_set_Forall; [|exact Hlocs]. now split.
      + eexists _, _. split; [reflexivity|]. split; [reflexivity|].
        split; [exact Ht|]. apply od_set_Forall; [|exact Hlocs]. now split. }
  destruct Hstep as (derived1 & ring_locs1 & -> & Hlen1 & Ht1 & Hlocs1).
  bind_step.
  rewrite update_in_range by (unfold index_of in Hl; lia). bind_step.
  rewrite update_in_range
    by (rewrite length_alter; unfold index_of in Hr; lia).
  eexists _, _. split; [reflexivity|].
  split; [now rewrite !length_alter|].
  split; [now do 2 apply texts_alter_bonds|].
  eapply ring_locs_fit_length; [|exact Hlocs1]. now rewrite !length_alter.
Qed.

Lemma resolve_rings_safe rings :
  ∀ derived ring_locs,
    texts_ok derived → ring_locs_fit derived ring_locs →
    Forall (fun r : ring => index_of derived r.1.1 ∧ index_of derived r.1.2)
           rings →
    ∃ derived' ring_locs',
      resolve_rings (derived, ring_locs) rings = Ok (derived', ring_locs')
      ∧ length derived' = length derived
      ∧ texts_ok derived' ∧ ring_locs_fit derived' ring_locs'.
Proof.
  induction rings as [|[[l r] s] rings IH]; intros derived ring_locs Ht Hlocs Hr;
    cbn [resolve_rings].
  - now eexists _, _.
  - inversion Hr as [|? ? [Hl Hr'] Hrest]; subst. cbn [fst snd] in *.
    destruct (resolve_ring_safe derived ring_locs l r s Ht Hlocs Hl Hr')
      as (d1 & locs1 & -> & Hlen1 & Ht1 & Hlocs1).
    bind_step.
    destruct (IH d1 locs1 Ht1 Hlocs1) as (d2 & locs2 & -> & Hlen2 & Ht2 & Hlocs2).
    { eapply Forall_impl; [exact Hrest|]. intros x. unfold index_of.
      now rewrite Hlen1. }
    eexists _, _. split; [reflexivity|]. split; [congruence|]. now split.
Qed.

Lemma add_rings_safe ring_locs :
  ∀ ring_counter derived,
    texts_ok derived → ring_locs_fit derived ring_locs →
    ∃ derived', add_rings ring_counter ring_locs derived = Ok derived'
                ∧ length derived' = length derived ∧ texts_ok derived'.
Proof.
  induction ring_locs as [|[[l r] s] ring_locs IH]; intros n derived Ht Hlocs;
    cbn [add_rings].
  - now eexists.
  - inversion Hlocs as [|? ? [Hl Hr] Hrest]; subst. cbn [fst snd] in *.
    cbv zeta. rewrite update_in_range by exact Hl. bind_step.
    rewrite update_in_range by (rewrite length_alter; exact Hr). bind_step.
    match goal with |- context [add_rings _ _ ?d] =>
      destruct (IH (n + 1) d) as (d' & -> & Hlen & Ht')
    end.
    + now do 2 apply texts_alter_append.
    + eapply ring_locs_fit_length; [|exact Hrest]. now rewrite !length_alter.
    + eexists. split; [reflexivity|]. split; [|exact Ht'].
      now rewrite Hlen, !length_alter.
Qed.

Lemma create_branches_safe branches :
  ∀ derived,
    texts_ok derived →
    Forall (fun branch : Z * Z =>
              0 ≤ branch.1 ≤ branch.2 ∧ index_of derived branch.2) branches →
    ∃ derived', create_branches branches derived = Ok derived'.
Proof.
  induction branches as [|[lb rb] branches IH]; intros derived Ht Hb;
    cbn [create_branches].
  - now eexists.
  - inversion Hb as [|? ? [Hlb Hrb] Hrest]; subst. cbn [fst snd] in *.
    unfold index_of in Hrb.
    rewrite update_in_range by lia. bind_step.
    rewrite update_in_range by (rewrite length_alter; lia). bind_step.
    apply IH.
    + apply texts_alter_append. apply texts_alter_text; [|exact Ht].
      intros t. discriminate.
    + eapply Forall_impl; [exact Hrest|]. intros x. unfold index_of.
      now rewrite !length_alter.
Qed.
(** *** Strings of robust symbols *)

Lemma robust_symbol_active w1 w2 symbol :
  active_table w1 = active_table w2 →
  robust_symbol w1 symbol = robust_symbol w2 symbol.
Proof.
  intros Hw. unfold robust_symbol, max_bonds_of. now rewrite Hw.
Qed.

(** The derivation of a fragment made of bracketed robust symbols, the
    rings and the branches all return. *)
Lemma _translate_selfies_safe w symbols :
  Forall (fun symbol => bracketed symbol ∧ robust_symbol w symbol = true)
         symbols →
  ∃ smiles, _translate_selfies w (concat_symbols symbols) = Ok smiles.
Proof.
  intros Hsymbols. unfold _translate_selfies. cbv zeta.
  rewrite _parse_selfies_concat
    by (eapply Forall_impl; [exact Hsymbols|]; now intros s [? _]).
  set (g := _parse_selfies_symbols symbols).
  assert (Hg : stream_ok w g).
  { apply _parse_selfies_symbols_ok.
    eapply Forall_impl; [exact Hsymbols|]. intros s [_ ?]. now right. }
  unfold _translate_selfies_derive.
  destruct (next_stream_ok w g Hg) as (c & g' & E & Hg' & Hc).
  rewrite E. bind_step. destruct (next_symbols_left _ _ _ E) as [_ Hn].
  assert (Hwalk : walk_safe []
            (derive_loop (length (pending g)) w c g' 0 [] (-1) [] [])).
  { apply derive_loop_safe; try assumption.
    - split; constructor.
    - split; [cbn; lia|lia].
    - rewrite Hn. unfold symbols_left. apply length_filter. }
  destruct (derive_loop _ _ _ _ _ _ _ _ _) as [[[d b] r]| |];
    [|contradiction|contradiction].
  destruct Hwalk as [_ [Ht Hb Hr]]. bind_step.
  unfold _form_rings_bilocally.
  destruct (resolve_rings_safe r d [] Ht ltac:(constructor) Hr)
    as (d1 & locs & -> & Hlen1 & Ht1 & Hlocs).
  bind_step.
  destruct (add_rings_safe locs 1 d1 Ht1 Hlocs) as (d2 & -> & Hlen2 & Ht2).
  bind_step.
  destruct (create_branches_safe b d2 Ht2) as [d3 ->].
  { eapply Forall_impl; [exact Hb|]. intros x. unfold index_of.
    now rewrite Hlen2, Hlen1. }
  bind_step. now eexists.
Qed.

(** *** One fragment *)

Lemma contains_char_app c a b :
  Py.contains (Py.str1 c) (a +:+ b)
  = Py.contains (Py.str1 c) a || Py.contains (Py.str1 c) b.
Proof.
  induction a as [|x a IH]; [reflexivity|].
  rewrite append_cons, !contains_cons, IH. now rewrite orb_assoc.
Qed.

Lemma contains_char_concat c symbols :
  Forall (fun symbol => Py.contains (Py.str1 c) symbol = false) symbols →
  Py.contains (Py.str1 c) (concat_symbols symbols) = false.
Proof.
  induction 1 as [|x l Hx Hl IH]; [reflexivity|].
  cbn [concat_symbols foldr]. fold (concat_symbols l).
  now rewrite contains_char_app, Hx, IH.
Qed.

Lemma split_one sep s :
  Py.contains (Py.str1 sep) s = false → Py.split sep s = [s].
Proof.
  induction s as [|a s IH]; [reflexivity|].
  rewrite contains_cons. intros H. apply orb_false_iff in H as [Ha Hs].
  cbn [Py.split]. rewrite Ascii.eqb_sym, Ha. now rewrite (IH Hs).
Qed.

(** [decoder] without override on a string of decodable symbols. *)
Lemma decoder_safe w symbols :
  world_ok w → Forall (decodable_symbol w) symbols →
  ∃ smiles, fst (decoder (concat_symbols symbols) None w) = Ok (Some smiles).
Proof.
  intros Hok Hsymbols. rewrite decoder_no_override by exact Hok. cbn [fst].
  rewrite (split_one "." (concat_symbols symbols)).
  2:{ apply (contains_char_concat ".").
      eapply Forall_impl; [exact Hsymbols|]. now intros s (_ & ? & _). }
  cbn [translate_fragments].
  destruct (_translate_selfies_safe (world_of (active_table w)) symbols)
    as [smiles ->].
  { eapply Forall_impl; [exact Hsymbols|]. intros s (? & _ & Hs).
    split; [assumption|]. now rewrite (robust_symbol_active _ w). }
  bind_step. cbn [decoded]. now eexists.
Qed.

(** *** The alphabet of a preset *)

Lemma closes_spec s :
  closes s = true →
  ∃ body, s = body +:+ "]" ∧ Py.contains "]" body = false.
Proof.
  induction s as [|c rest IH]; [discriminate|]. cbn [closes].
  destruct rest as [|c' rest'].
  - intros H. apply Ascii.eqb_eq in H as ->. now exists "".
  - intros H. apply andb_prop in H as [Hc Hrest].
    destruct (IH Hrest) as (body & -> & Hbody).
    exists (String c body). split; [reflexivity|].
    change "]" with (Py.str1 "]") in *. rewrite contains_cons, Hbody.
    rewrite Ascii.eqb_sym. now destruct (Ascii.eqb c "]").
Qed.

Lemma is_bracketed_spec symbol : is_bracketed symbol = true → bracketed symbol.
Proof.
  destruct symbol as [|c rest]; [discriminate|]. cbn [is_bracketed].
  intros H. apply andb_prop in H as [Hc Hrest].
  apply Ascii.eqb_eq in Hc as ->.
  destruct (closes_spec rest Hrest) as (body & -> & Hbody).
  now exists body.
Qed.

Lemma alphabet_active w1 w2 :
  active_table w1 = active_table w2 →
  get_semantic_robust_alphabet w1 = get_semantic_robust_alphabet w2.
Proof. intros Hw. unfold get_semantic_robust_alphabet. now rewrite Hw. Qed.

Lemma preset_alphabet_checks t :
  preset_table t →
  forallb (fun symbol =>
             is_bracketed symbol && negb (Py.contains "." symbol)
             && robust_symbol (world_of t) symbol)
          (elements (get_semantic_robust_alphabet (world_of t))) = true.
Proof. intros [->|[->| ->]]; vm_compute; reflexivity. Qed.

Lemma preset_alphabet_decodable w symbol :
  preset_table (active_table w) →
  symbol ∈ get_semantic_robust_alphabet w → decodable_symbol w symbol.
Proof.
  intros Hpreset Hin.
  rewrite (alphabet_active w (world_of (active_table w))) in Hin
    by reflexivity.
  apply elem_of_elements, list_elem_of_In in Hin.
  pose proof (preset_alphabet_checks _ Hpreset) as Hall.
  rewrite forallb_forall in Hall. specialize (Hall _ Hin). clear Hin.
  apply andb_prop in Hall as [Hall Hrobust].
  apply andb_prop in Hall as [Hbr Hdot].
  split; [exact (is_bracketed_spec _ Hbr)|].
  split; [destruct (Py.contains "." symbol); [discriminate|reflexivity]|].
  rewrite (robust_symbol_active w (world_of (active_table w))) by reflexivity.
  exact Hrobust.
Qed.



(** X20. With one of the three tables of the module active, every symbol
    that [get_semantic_robust_alphabet] returns is bracketed, holds no dot
    and is robust: the derivation cannot fail on it in any state. *)
Theorem robust_alphabet_decodable (w : world) (symbol : string) :
  preset_table (active_table w) →
  symbol ∈ get_semantic_robust_alphabet w →
  decodable_symbol w symbol.
Proof. exact (preset_alphabet_decodable w symbol). Qed.

Lemma robust_alphabet_decodable_witness :
  decodable_symbol initial_world "[=N+1expl]".
Proof.
  apply (robust_alphabet_decodable initial_world "[=N+1expl]").
  - left. reflexivity.
  - apply (bool_decide_unpack _). vm_compute. exact I.
Defined.

(** X21. The robustness of the decoder: with one of the three tables of
    the module active, [decoder] without override returns a SMILES string,
    not [None] and not an exception, on every concatenation of symbols of
    the alphabet that [get_semantic_robust_alphabet] returns. *)
Theorem decoder_robust (w : world) (symbols : list string) :
  world_ok w → preset_table (active_table w) →
  Forall (fun symbol => symbol ∈ get_semantic_robust_alphabet w) symbols →
  ∃ smiles, fst (decoder (concat_symbols symbols) None w) = Ok (Some smiles).
Proof.
  intros Hok Hpreset Hsymbols. apply decoder_safe; [exact Hok|].
  eapply Forall_impl; [exact Hsymbols|]. intros symbol.
  now apply preset_alphabet_decodable.
Qed.

Lemma decoder_robust_witness :
  ∃ smiles,
    fst (decoder (concat_symbols ["[C]"; "[Branch1_3]"; "[#N]"])
                 None initial_world) = Ok (Some smiles).
Proof.
  apply (decoder_robust initial_world ["[C]"; "[Branch1_3]"; "[#N]"]).
  - exact initial_world_ok.
  - left. reflexivity.
  - repeat constructor; apply (bool_decide_unpack _); vm_compute; exact I.
Defined.
(** ** Fragments *)

Lemma split_nonempty sep s : Py.split sep s ≠ [].
Proof.
  destruct s as [|c s]; cbn [Py.split]; [discriminate|].
  destruct (Ascii.eqb c sep); [discriminate|].
  destruct (Py.split sep s); discriminate.
Qed.

Lemma split_app sep a b :
  Py.split sep (a +:+ String sep b) = Py.split sep a ++ Py.split sep b.
Proof.
  induction a as [|c a IH].
  - change ("" +:+ String sep b) with (String sep b). cbn [Py.split].
    now rewrite Ascii.eqb_refl.
  - rewrite append_cons. cbn [Py.split]. rewrite IH.
    destruct (Ascii.eqb c sep); [reflexivity|].
    pose proof (split_nonempty sep a) as Hne.
    destruct (Py.split sep a) as [|h t]; [contradiction|reflexivity].
Qed.

Lemma translate_fragments_acc w fragments :
  ∀ acc,
    translate_fragments w fragments acc
    = all_smiles ← translate_fragments w fragments []; Ok (acc ++ all_smiles).
Proof.
  induction fragments as [|s fragments IH]; intros acc;
    cbn [translate_fragments].
  - bind_step. now rewrite app_nil_r.
  - bind_step. destruct (_translate_selfies w s) as [smiles| |];
      [|reflexivity|reflexivity].
    rewrite (IH (if negb (String.eqb smiles "") then acc ++ [smiles] else acc)).
    rewrite (IH (if negb (String.eqb smiles "") then [] ++ [smiles] else [])).
    bind_step.
    destruct (translate_fragments w fragments []) as [l| |];
      [|reflexivity|reflexivity].
    destruct (negb (String.eqb smiles "")); [|reflexivity].
    now rewrite <- app_assoc.
Qed.

Lemma translate_fragments_app w l1 l2 :
  translate_fragments w (l1 ++ l2) []
  = smiles1 ← translate_fragments w l1 [];
    smiles2 ← translate_fragments w l2 [];
    Ok (smiles1 ++ smiles2).
Proof.
  induction l1 as [|s l1 IH]; cbn [app translate_fragments].
  - bind_step. now destruct (translate_fragments w l2 []).
  - bind_step. destruct (_translate_selfies w s) as [smiles| |];
      [|reflexivity|reflexivity].
    rewrite (translate_fragments_acc w (l1 ++ l2)).
    rewrite (translate_fragments_acc w l1). rewrite IH. bind_step.
    destruct (translate_fragments w l1 []) as [r1| |];
      [|reflexivity|reflexivity].
    destruct (translate_fragments w l2 []) as [r2| |];
      [|reflexivity|reflexivity].
    now rewrite app_assoc.
Qed.

Lemma translate_fragments_texts w fragments all_smiles :
  translate_fragments w fragments [] = Ok all_smiles →
  Forall (fun smiles => smiles ≠ "") all_smiles.
Proof.
  revert all_smiles. induction fragments as [|s fragments IH];
    intros all_smiles; cbn [translate_fragments].
  - intros [= <-]. constructor.
  - bind_step. destruct (_translate_selfies w s) as [smiles| |];
      try discriminate.
    rewrite translate_fragments_acc. bind_step.
    destruct (translate_fragments w fragments []) as [l| |] eqn:E;
      try discriminate.
    intros [= <-]. specialize (IH l eq_refl).
    destruct (String.eqb_spec smiles ""); cbn [negb]; [exact IH|].
    now constructor.
Qed.

Lemma join_nonempty sep x l : x ≠ "" → Py.join sep (x :: l) ≠ "".
Proof.
  intros Hx. cbn [Py.join]. destruct l; [exact Hx|].
  now apply append_nonempty_l.
Qed.

Lemma join_app sep l1 l2 :
  l1 ≠ [] → l2 ≠ [] →
  Py.join sep (l1 ++ l2) = Py.join sep l1 +:+ sep +:+ Py.join sep l2.
Proof.
  intros H1 H2. induction l1 as [|x l1 IH]; [contradiction|].
  destruct l1 as [|y l1].
  - cbn [app Py.join]. destruct l2; [contradiction|reflexivity].
  - change (Py.join sep ((x :: y :: l1) ++ l2))
      with (x +:+ sep +:+ Py.join sep ((y :: l1) ++ l2)).
    rewrite IH by discriminate.
    change (Py.join sep (x :: y :: l1))
      with (x +:+ sep +:+ Py.join sep (y :: l1)).
    now rewrite !append_assoc.
Qed.

Lemma decoded_some fragments smiles :
  decoded fragments = Ok (Some smiles) →
  ∃ all_smiles, fragments = Ok all_smiles ∧ smiles = Py.join "." all_smiles.
Proof.
  destruct fragments as [l|[v| |]|]; cbn [decoded]; try discriminate.
  intros [= <-]. now exists l.
Qed.

(** X22. The fragments of a string are decoded one by one and their
    results joined by dots, the empty ones left out. When [decoder] without
    override returns on [a] and on [b], a SMILES string or [None], then on
    [a.b] it returns [None] if one of the two is [None], and else the two
    strings with a dot between them, or one of them if the other is
    empty. *)
Theorem decoder_fragments (w : world) (a b : string) (on_a on_b : option string) :
  world_ok w →
  fst (decoder a None w) = Ok on_a → fst (decoder b None w) = Ok on_b →
  fst (decoder (a +:+ "." +:+ b) None w)
  = Ok (match on_a, on_b with
        | Some smiles_a, Some smiles_b =>
            Some (if String.eqb smiles_a "" then smiles_b
                  else if String.eqb smiles_b "" then smiles_a
                  else smiles_a +:+ "." +:+ smiles_b)
        | _, _ => None
        end).
Proof.
  intros Hok. rewrite !decoder_no_override by exact Hok. cbn [fst].
  set (W := world_of (active_table w)).
  change ("." +:+ b) with (String "." b). rewrite split_app.
  rewrite translate_fragments_app. bind_step.
  destruct (translate_fragments W (Py.split "." a) []) as [la|[v| |]|] eqn:Ea;
    cbn [decoded]; try discriminate.
  2:{ intros [= <-] _. reflexivity. }
  intros [= <-].
  destruct (translate_fragments W (Py.split "." b) []) as [lb|[v| |]|] eqn:Eb;
    cbn [decoded]; try discriminate.
  2:{ intros [= <-]. reflexivity. }
  intros [= <-]. do 2 f_equal.
  apply translate_fragments_texts in Ea, Eb.
  destruct la as [|x la]; [reflexivity|].
  inversion Ea as [|? ? Hx _]; subst.
  rewrite (proj2 (String.eqb_neq _ "") (join_nonempty "." x la Hx)).
  destruct lb as [|y lb]; [now rewrite app_nil_r|].
  inversion Eb as [|? ? Hy _]; subst.
  rewrite (proj2 (String.eqb_neq _ "") (join_nonempty "." y lb Hy)).
  now apply join_app.
Qed.

Lemma decoder_fragments_witness :
  fst (decoder ("[C][=O]" +:+ "." +:+ "[N]") None initial_world)
  = Ok (Some "C=O.N").
Proof.
  apply (decoder_fragments initial_world "[C][=O]" "[N]"
           (Some "C=O") (Some "N"));
    [exact initial_world_ok|vm_compute; reflexivity|vm_compute; reflexivity].
Defined.
(** ** The start of a fragment *)

Lemma bracketed_nonempty symbol : bracketed symbol → symbol ≠ "".
Proof. intros (body & -> & _). discriminate. Qed.

(** In state 0 a turn of the loop on such a symbol changes nothing. *)
Lemma derive_body_idle self w symbol g d p b r :
  symbol ≠ "[nop]" → idle_at_start symbol →
  derive_body self w symbol g 0 d p b r = Ok (g, 0, d, p, b, r).
Proof.
  intros Hnop [->|[->|[[Hb (X & HX & HX13)]|[Hb Hr]]]]; [contradiction| | |].
  - reflexivity.
  - unfold derive_body. rewrite Hb, branch_type_digit_bind, HX. bind_step.
    rewrite (proj2 (Z.leb_le 1 X)), (proj2 (Z.leb_le X 3)) by lia.
    reflexivity.
  - unfold derive_body. rewrite Hb, Hr. reflexivity.
Qed.

(** X23. Symbols that need a previous atom are ignored at the start of a
    fragment: a fragment that begins with [[nop]], [[epsilon]], a branch
    symbol of type 1, 2 or 3 or a ring symbol translates as the fragment
    without it. No index symbol is read after it either. *)
Theorem _translate_selfies_idle_start (w : world) (symbol : string)
    (symbols : list string) :
  bracketed symbol → Forall bracketed symbols → idle_at_start symbol →
  _translate_selfies w (concat_symbols (symbol :: symbols))
  = _translate_selfies w (concat_symbols symbols).
Proof.
  intros Hsymbol Hsymbols Hidle. unfold _translate_selfies. cbv zeta.
  rewrite !_parse_selfies_concat by (try constructor; assumption).
  unfold _parse_selfies_symbols. rewrite filter_cons.
  destruct (decide (symbol ≠ "[nop]")) as [Hnop|]; [|reflexivity].
  set (rest := filter (fun s => s ≠ "[nop]") symbols).
  cbn [pending length].
  unfold _translate_selfies_derive at 1. cbn [next pending ending].
  bind_step. rewrite derive_loop_S.
  rewrite (proj2 (String.eqb_neq symbol "") (bracketed_nonempty _ Hsymbol)).
  cbn [negb andb Z.leb Z.compare].
  rewrite (derive_body_idle _ w symbol _ _ _ _ _ Hnop Hidle).
  reflexivity.
Qed.

Lemma _translate_selfies_idle_start_witness :
  _translate_selfies initial_world
    (concat_symbols ["[Ring2]"; "[C]"; "[C]"; "[O]"])
  = _translate_selfies initial_world (concat_symbols ["[C]"; "[C]"; "[O]"]).
Proof.
  apply (_translate_selfies_idle_start initial_world "[Ring2]"
           ["[C]"; "[C]"; "[O]"]).
  - apply is_bracketed_spec. reflexivity.
  - repeat constructor; apply is_bracketed_spec; reflexivity.
  - right. right. right. split; reflexivity.
Defined.
(** ** What the parser yields *)

Lemma take_drop n : ∀ s, Py.take n s +:+ Py.drop n s = s.
Proof.
  induction n as [|n IH]; intros [|a s]; try reflexivity.
  cbn [Py.take Py.drop]. rewrite append_cons. now rewrite IH.
Qed.

Lemma drop_in_range n : ∀ s,
  (n < String.length s)%nat → ∃ c rest, Py.drop n s = String c rest.
Proof.
  induction n as [|n IH]; intros [|a s] Hn; cbn in *; try lia.
  - now eexists _, _.
  - apply IH. lia.
Qed.

Lemma index_from_split c s :
  ∀ pos, 0 ≤ pos → Py.index_from c s pos ≠ -1 →
    ∃ a b, s = a +:+ String c b
           ∧ Py.contains (Py.str1 c) a = false
           ∧ Py.index_from c s pos = pos + Py.len a.
Proof.
  induction s as [|x s IH]; intros pos Hpos; cbn [Py.index_from];
    [congruence|].
  destruct (Ascii.eqb_spec x c) as [->|Hx].
  - intros _. exists "", s. split; [reflexivity|]. split; [reflexivity|].
    change (Py.len "") with 0. lia.
  - intros Hfound. destruct (IH (pos + 1) ltac:(lia) Hfound)
      as (a & b & -> & Ha & Hr).
    exists (String x a), b. split; [reflexivity|]. split.
    + rewrite contains_cons, Ha.
      now rewrite (proj2 (Ascii.eqb_neq c x)) by congruence.
    + rewrite Hr. unfold Py.len. cbn [String.length]. lia.
Qed.

(** The symbol the loop cuts out at an opening bracket. *)
Lemma symbol_at s i :
  0 ≤ i < Py.len s →
  ∃ c, Py.getitem s i = Ok c
       ∧ (c = "["%char → Py.find s "]" (i + 1) ≠ -1 →
          i < Py.find s "]" (i + 1)
          ∧ bracketed (Py.slice s (Some i) (Some (Py.find s "]" (i + 1) + 1)))).
Proof.
  intros Hi.
  destruct (drop_in_range (Z.to_nat i) s ltac:(unfold Py.len in Hi; lia))
    as (c & t & Ht).
  pose proof (take_drop (Z.to_nat i) s) as Hs. rewrite Ht in Hs.
  assert (Hp : Py.len (Py.take (Z.to_nat i) s) = i).
  { unfold Py.len at 1. rewrite len_take by (unfold Py.len in Hi; lia). lia. }
  revert Hs Hp. generalize (Py.take (Z.to_nat i) s). intros p Hs Hp.
  clear Ht. subst s i. exists c. split.
  { rewrite <- (Z.add_0_r (Py.len p)). now rewrite getitem_app. }
  intros -> Hfound. rewrite find_app in * by lia.
  assert (Hfind : Py.find (String "[" t) "]" 1 = Py.index_from "]" t 1).
  { unfold Py.find. pose proof (len_nonneg t).
    replace (Py.slice_bound (Py.len (String "[" t)) 1) with 1; [reflexivity|].
    unfold Py.slice_bound, Py.len in *. cbn [String.length Z.ltb Z.compare].
    lia. }
  rewrite Hfind in *.
  destruct (Z.eqb_spec (Py.index_from "]" t 1) (-1)) as [|Hr]; [congruence|].
  destruct (index_from_split "]" t 1 ltac:(lia) Hr) as (a & b & -> & Ha & Hpos).
  rewrite Hpos. pose proof (len_nonneg a) as Hlen. split; [lia|].
  replace (Py.len p + (1 + Py.len a) + 1) with (Py.len p + (Py.len a + 2))
    by lia.
  rewrite <- (Z.add_0_r (Py.len p)) at 1. rewrite slice_app by lia.
  exists a. split; [|exact Ha].
  unfold Py.slice. cbn [from_option]. unfold Py.slice_bound.
  cbn [Z.ltb Z.compare]. rewrite (proj2 (Z.ltb_ge (Py.len a + 2) 0)) by lia.
  assert (Hall : Py.len (String "[" (a +:+ String "]" b))
                 = Py.len a + 2 + Py.len b).
  { unfold Py.len. cbn [String.length]. rewrite length_app.
    cbn [String.length]. lia. }
  rewrite Hall. pose proof (len_nonneg b).
  rewrite Z.min_l by lia. rewrite Z.min_l by lia.
  change (Py.drop (Z.to_nat 0) ?x) with x. rewrite Z.sub_0_r.
  replace (String "[" (a +:+ String "]" b)) with (("[" +:+ a +:+ "]") +:+ b).
  - replace (Z.to_nat (Py.len a + 2)) with (String.length ("[" +:+ a +:+ "]")).
    + apply take_app.
    + change ("[" +:+ a +:+ "]") with (String "[" (a +:+ "]")).
      cbn [String.length]. rewrite length_app.
      unfold Py.len. cbn [String.length]. lia.
  - change ("[" +:+ a +:+ "]") with (String "[" (a +:+ "]")).
    rewrite append_cons. f_equal. now rewrite append_assoc.
Qed.

Lemma parse_loop_shape s :
  ∀ fuel i, 0 ≤ i →
    Forall (fun symbol => bracketed symbol ∧ symbol ≠ "[nop]")
           (pending (parse_loop fuel s i))
    ∧ (ending (parse_loop fuel s i) = Ok ()
       ∨ ending (parse_loop fuel s i) = Raise (ValueError MalformedBrackets)
       ∨ ending (parse_loop fuel s i) = OutOfFuel).
Proof.
  induction fuel as [|fuel IH]; intros i Hi; cbn [parse_loop].
  - destruct (_ && _); cbn; split; auto.
  - destruct (Z.leb_spec 0 i); [|lia]. cbn [andb].
    destruct (Z.ltb_spec i (Py.len s)) as [Hin|]; [|cbn; split; auto].
    cbv zeta.
    destruct (symbol_at s i ltac:(lia)) as (c & -> & Hsymbol).
    destruct (Ascii.eqb_spec c "[") as [->|]; cbn [negb orb];
      [|cbn; split; auto].
    destruct (Z.eqb_spec (Py.find s "]" (i + 1)) (-1)) as [|Hfound];
      [cbn; split; auto|].
    destruct (Hsymbol eq_refl Hfound) as [Hlt Hbr].
    destruct (IH (Py.find s "]" (i + 1) + 1) ltac:(lia)) as [Hrest Hend].
    destruct (String.eqb_spec
                (Py.slice s (Some i) (Some (Py.find s "]" (i + 1) + 1)))
                "[nop]") as [|Hnop]; cbn [negb]; [now split|].
    cbn [yield pending ending]. split; [|exact Hend].
    constructor; [now split|exact Hrest].
Qed.

(** X24. Whatever the string, every symbol that [_parse_selfies] yields is
    an opening bracket, a text without closing bracket and a closing
    bracket, and is not [[nop]]; and the stream ends with the endless
    [''] or with the [ValueError] of the misplaced or missing bracket,
    never with another exception. *)
Theorem _parse_selfies_yields_symbols (selfies : string) :
  Forall (fun symbol => bracketed symbol ∧ symbol ≠ "[nop]")
         (pending (_parse_selfies selfies))
  ∧ (ending (_parse_selfies selfies) = Ok ()
     ∨ ending (_parse_selfies selfies) = Raise (ValueError MalformedBrackets)).
Proof.
  pose proof (_parse_selfies_finishes selfies) as Hfin.
  unfold _parse_selfies in *.
  destruct (find_range selfies "[" 0) as [Hnone|Hsome]; [lia| |].
  - rewrite Hnone. rewrite parse_loop_stops by reflexivity.
    cbn. split; auto.
  - destruct (parse_loop_shape selfies (String.length selfies)
                (Py.find selfies "[" 0) ltac:(lia)) as [Hall Hend].
    split; [exact Hall|]. destruct Hend as [?|[?|?]]; auto. contradiction.
Qed.
